(** * user/primes.c: the pipeline of sieve processes

    The program is a chain of xv6 processes connected by pipes.  [main]
    creates the first pipe, forks the first sieve process and then feeds the
    integers 2..35 into the pipe; every sieve process prints the first
    number it reads, and forwards the numbers that are not multiples of it
    to a child that it forks when the first such number shows up.

    The embedding is a transition system.  A state holds the process table
    and the pipe table; a process is the program point it stands at together
    with the values of its live local variables; one step executes one
    system call (or one [printf]) of one process.  Which process runs next,
    and whether a [pipe] or [fork] call is refused by the kernel, is chosen
    by a schedule, so that a statement about "every run" quantifies over all
    schedules. *)

From Stdlib Require Import String Ascii DecimalString ZArith List Sorted Bool Arith Lia.
Import ListNotations.

Set Implicit Arguments.

(** ** Kernel objects *)

(** A pipe.  [buf] holds the integers written and not yet read, oldest
    first (every [read] and [write] of the program moves one whole [int]);
    [taken] remembers the integers already delivered to the reader; [rd] and
    [wr] count the descriptors open on the read end and on the write end. *)
Record pipe : Type := mkPipe {
  taken : list Z;
  buf   : list Z;
  rd    : nat;
  wr    : nat
}.

(** Everything ever written into a pipe, in the order of the writes. *)
Definition plog (q : pipe) : list Z := taken q ++ buf q.

Definition no_pipe : pipe := mkPipe [] [] 0 0.

(** ** Program points

    The constructors name the line of primes.c at which the process is about
    to execute a call.  A descriptor is kept as the number of the pipe it
    refers to; which end it is follows from the variable: [leftfd], [p[0]]
    and [next[0]] are read ends, [wfd], [p[1]] and [next[1]] write ends. *)
Inductive pc : Type :=
| Unused                                              (* free slot of the process table *)
(* main *)
| M_pipe                                              (* 129: pipe(p) *)
| M_pipe_err                                          (* 130: fprintf(2, "pipe() failed\n") *)
| M_fork (p : nat)                                    (* 134: fork() *)
| M_fork_err (p : nat)                                (* 141: fprintf(2, "fork() failed\n") *)
| M_fork_exit (p : nat)                               (* 142: exit(1), p[0] and p[1] open *)
| M_child_closeW (p : nat)                            (* 147: close(p[1]) in the child *)
| M_closeR (p : nat)                                  (* 151: close(p[0]) *)
| F_write (wfd : nat) (i : Z)                         (* 7: write(wfd, &i, sizeof(i)) *)
| F_err (wfd : nat)                                   (* 8: fprintf(2, "writer: write error\n") *)
| F_exit (wfd : nat)                                  (* 9: exit(1), wfd open *)
| M_closeW (p : nat)                                  (* 153: close(p[1]) *)
| P_wait                                              (* 104, 154: wait(0), then exit(0) *)
| X_exit (status : Z)                                 (* exit(status), no descriptor open *)
(* sieve *)
| S_read_first (leftfd : nat)                         (* 24: read(leftfd, &p, sizeof(p)) *)
| S_close_exit (leftfd : nat) (status : Z)            (* 25, 44, 52: close(leftfd), then exit *)
| S_print (leftfd : nat) (p : Z)                      (* 30: printf("prime %d\n", p) *)
| S_preread (leftfd : nat) (p : Z)                    (* 34: read(leftfd, &x, sizeof(x)) *)
| S_pipe (leftfd : nat) (p first : Z)                 (* 50: pipe(next) *)
| S_pipe_err (leftfd : nat)                           (* 51: fprintf(2, "pipe failed\n") *)
| S_fork (leftfd : nat) (p first : Z) (next : nat)    (* 56: fork() *)
| S_fork_err (leftfd next : nat)                      (* 58: fprintf(2, "fork failed\n") *)
| S_fork_closeL (leftfd next : nat)                   (* 59: close(leftfd) *)
| S_fork_closeR (next : nat)                          (* 60: close(next[0]) *)
| S_fork_closeW (next : nat)                          (* 61: close(next[1]), then exit(1) *)
| S_child_closeW (leftfd next : nat)                  (* 67: close(next[1]) in the child *)
| S_child_closeL (leftfd next : nat)                  (* 68: close(leftfd), then sieve(next[0]) *)
| S_closeR (leftfd : nat) (p first : Z) (next : nat)  (* 75: close(next[0]) *)
| S_write_first (leftfd : nat) (p first : Z) (next : nat) (* 84: write(next[1], &first_nonmul, ..) *)
| S_write_first_err (leftfd : nat) (p : Z) (next : nat)   (* 85: fprintf(2, "write error\n") *)
| S_loop_read (leftfd : nat) (p : Z) (next : nat)     (* 92: read(leftfd, &x, sizeof(x)) *)
| S_loop_write (leftfd : nat) (p : Z) (next : nat) (x : Z) (* 94: write(next[1], &x, sizeof(x)) *)
| S_loop_err (leftfd next : nat)                      (* 95: fprintf(2, "write error\n"); break *)
| S_end_closeL (leftfd next : nat)                    (* 102: close(leftfd) *)
| S_end_closeW (next : nat)                           (* 103: close(next[1]) *)
(* after exit *)
| Zombie (status : Z)                                 (* exited, not yet waited for *)
| Reaped (status : Z).                                (* exited and collected by wait *)

(** ** Machine state *)

Record state : Type := mkState {
  nproc   : nat;                 (* process ids handed out so far *)
  procs   : nat -> pc;           (* process table, by process id *)
  parent  : nat -> option nat;   (* who forked whom; [None] for main *)
  npipe   : nat;                 (* pipes created so far *)
  pipes   : nat -> pipe;         (* pipe table, by pipe number *)
  printed : list Z;              (* arguments of the printf("prime %d\n", p) calls, in order *)
  errs    : list string          (* lines written to descriptor 2, in order *)
}.

Definition upd (A : Type) (f : nat -> A) (k : nat) (v : A) : nat -> A :=
  fun i => if Nat.eqb i k then v else f i.

Definition set_pc (st : state) (k : nat) (c : pc) : state :=
  mkState (nproc st) (upd (procs st) k c) (parent st) (npipe st) (pipes st)
          (printed st) (errs st).

Definition set_pipe (st : state) (j : nat) (q : pipe) : state :=
  mkState (nproc st) (procs st) (parent st) (npipe st) (upd (pipes st) j q)
          (printed st) (errs st).

(** The line that [printf("prime %d\n", p)] produces, without the newline. *)
Definition prime_line (p : Z) : string :=
  ("prime " ++ NilZero.string_of_int (Z.to_int p))%string.

(** Standard output as the list of its lines. *)
Definition stdout (st : state) : list string := map prime_line (printed st).

(** ** System calls *)

Definition sys_printf (st : state) (p : Z) : state :=
  mkState (nproc st) (procs st) (parent st) (npipe st) (pipes st)
          (printed st ++ [p]) (errs st).

Definition sys_fprintf2 (st : state) (m : string) : state :=
  mkState (nproc st) (procs st) (parent st) (npipe st) (pipes st)
          (printed st) (errs st ++ [m]).

(** [pipe] succeeds: the new pipe gets the next number, with one descriptor
    on each end. *)
Definition sys_pipe (st : state) : state :=
  mkState (nproc st) (procs st) (parent st) (S (npipe st))
          (upd (pipes st) (npipe st) (mkPipe [] [] 1 1))
          (printed st) (errs st).

Definition dup_r (st : state) (j : nat) : state :=
  let q := pipes st j in set_pipe st j (mkPipe (taken q) (buf q) (S (rd q)) (wr q)).

Definition dup_w (st : state) (j : nat) : state :=
  let q := pipes st j in set_pipe st j (mkPipe (taken q) (buf q) (rd q) (S (wr q))).

Definition close_r (st : state) (j : nat) : state :=
  let q := pipes st j in set_pipe st j (mkPipe (taken q) (buf q) (Nat.pred (rd q)) (wr q)).

Definition close_w (st : state) (j : nat) : state :=
  let q := pipes st j in set_pipe st j (mkPipe (taken q) (buf q) (rd q) (Nat.pred (wr q))).

(** [fork] succeeds: the child gets the next process id and starts at [c];
    the descriptors it inherits are duplicated by the caller of [spawn]. *)
Definition spawn (st : state) (me : nat) (c : pc) : state :=
  mkState (S (nproc st)) (upd (procs st) (nproc st) c)
          (upd (parent st) (nproc st) (Some me))
          (npipe st) (pipes st) (printed st) (errs st).

Inductive read_result : Type :=
| RVal (x : Z) (st' : state)   (* one int delivered *)
| REof                         (* read returns 0: empty and no writer left *)
| RBlock.                      (* empty, a writer is left: the reader sleeps *)

Definition sys_read (st : state) (j : nat) : read_result :=
  let q := pipes st j in
  match buf q with
  | x :: b => RVal x (set_pipe st j (mkPipe (taken q ++ [x]) b (rd q) (wr q)))
  | [] => if Nat.eqb (wr q) 0 then REof else RBlock
  end.

Inductive write_result : Type :=
| WOk (st' : state)            (* the int went into the pipe *)
| WErr                         (* write returns -1: no reader left *)
| WBlock.                      (* the pipe is full: the writer sleeps *)

Definition sys_write (cap : nat) (st : state) (j : nat) (v : Z) : write_result :=
  let q := pipes st j in
  if Nat.eqb (rd q) 0 then WErr
  else if Nat.ltb (length (buf q)) cap
       then WOk (set_pipe st j (mkPipe (taken q) (buf q ++ [v]) (rd q) (wr q)))
       else WBlock.

Definition is_zombie (c : pc) : bool :=
  match c with Zombie _ => true | _ => false end.

Definition is_live (c : pc) : bool :=
  match c with Unused | Zombie _ | Reaped _ => false | _ => true end.

Definition exited (c : pc) : bool :=
  match c with Zombie _ | Reaped _ => true | _ => false end.

Definition child_of (st : state) (me c : nat) : bool :=
  match parent st c with Some m => Nat.eqb m me | None => false end.

(** The least [i < n] with [f i], if any. *)
Fixpoint first_that (f : nat -> bool) (n : nat) : option nat :=
  match n with
  | O => None
  | S m => match first_that f m with
           | Some i => Some i
           | None => if f m then Some m else None
           end
  end.

Definition reap (st : state) (c : nat) : state :=
  match procs st c with
  | Zombie s => set_pc st c (Reaped s)
  | _ => st
  end.

(** [wait(0)]: collect a child that has exited; with no child left return
    at once (with -1, which the program ignores); otherwise sleep. *)
Definition sys_wait (st : state) (me : nat) : option state :=
  match first_that (fun c => child_of st me c && is_zombie (procs st c)) (nproc st) with
  | Some c => Some (reap st c)
  | None =>
      match first_that (fun c => child_of st me c && is_live (procs st c)) (nproc st) with
      | Some _ => None
      | None => Some st
      end
  end.

(** ** The program *)

Section Program.

(** [hi] is the last number fed (35 in primes.c, see [LIMIT] below); [cap]
    is the number of ints a pipe buffers before a writer sleeps. *)
Variable hi : Z.
Variable cap : nat.

(** The test of the [for] loop of [feed_numbers]; when it fails the function
    returns to line 153 of [main]. *)
Definition feed_loop (wfd : nat) (i : Z) : pc :=
  if (i <=? hi)%Z then F_write wfd i else M_closeW wfd.

(** One step of process [k].  [fail] tells whether the kernel refuses the
    call when it is a [pipe] or a [fork]; the other calls ignore it.  [None]:
    the process cannot run (it sleeps in the kernel, or it has exited). *)
Definition step (st : state) (k : nat) (fail : bool) : option state :=
  match procs st k with
  | Unused | Zombie _ | Reaped _ => None
  (* main *)
  | M_pipe =>
      Some (if fail then set_pc st k M_pipe_err
            else set_pc (sys_pipe st) k (M_fork (npipe st)))
  | M_pipe_err => Some (set_pc (sys_fprintf2 st "pipe() failed") k (X_exit 1))
  | M_fork p =>
      Some (if fail then set_pc st k (M_fork_err p)
            else set_pc (spawn (dup_w (dup_r st p) p) k (M_child_closeW p)) k (M_closeR p))
  | M_fork_err p => Some (set_pc (sys_fprintf2 st "fork() failed") k (M_fork_exit p))
  | M_fork_exit p => Some (set_pc (close_w (close_r st p) p) k (Zombie 1))
  | M_child_closeW p => Some (set_pc (close_w st p) k (S_read_first p))
  | M_closeR p => Some (set_pc (close_r st p) k (feed_loop p 2))
  (* feed_numbers *)
  | F_write wfd i =>
      match sys_write cap st wfd i with
      | WOk st' => Some (set_pc st' k (feed_loop wfd (i + 1)))
      | WErr => Some (set_pc st k (F_err wfd))
      | WBlock => None
      end
  | F_err wfd => Some (set_pc (sys_fprintf2 st "writer: write error") k (F_exit wfd))
  | F_exit wfd => Some (set_pc (close_w st wfd) k (Zombie 1))
  | M_closeW p => Some (set_pc (close_w st p) k P_wait)
  | P_wait =>
      match sys_wait st k with
      | Some st' => Some (set_pc st' k (X_exit 0))
      | None => None
      end
  | X_exit s => Some (set_pc st k (Zombie s))
  (* sieve *)
  | S_read_first leftfd =>
      match sys_read st leftfd with
      | RVal p st' => Some (set_pc st' k (S_print leftfd p))
      | REof => Some (set_pc st k (S_close_exit leftfd 0))
      | RBlock => None
      end
  | S_close_exit leftfd s => Some (set_pc (close_r st leftfd) k (X_exit s))
  | S_print leftfd p => Some (set_pc (sys_printf st p) k (S_preread leftfd p))
  | S_preread leftfd p =>
      match sys_read st leftfd with
      | RVal x st' =>
          Some (set_pc st' k (if (Z.rem x p =? 0)%Z then S_preread leftfd p
                              else S_pipe leftfd p x))
      | REof => Some (set_pc st k (S_close_exit leftfd 0))
      | RBlock => None
      end
  | S_pipe leftfd p first =>
      Some (if fail then set_pc st k (S_pipe_err leftfd)
            else set_pc (sys_pipe st) k (S_fork leftfd p first (npipe st)))
  | S_pipe_err leftfd => Some (set_pc (sys_fprintf2 st "pipe failed") k (S_close_exit leftfd 1))
  | S_fork leftfd p first next =>
      Some (if fail then set_pc st k (S_fork_err leftfd next)
            else set_pc (spawn (dup_w (dup_r (dup_r st leftfd) next) next) k
                               (S_child_closeW leftfd next))
                        k (S_closeR leftfd p first next))
  | S_fork_err leftfd next =>
      Some (set_pc (sys_fprintf2 st "fork failed") k (S_fork_closeL leftfd next))
  | S_fork_closeL leftfd next => Some (set_pc (close_r st leftfd) k (S_fork_closeR next))
  | S_fork_closeR next => Some (set_pc (close_r st next) k (S_fork_closeW next))
  | S_fork_closeW next => Some (set_pc (close_w st next) k (X_exit 1))
  | S_child_closeW leftfd next => Some (set_pc (close_w st next) k (S_child_closeL leftfd next))
  | S_child_closeL leftfd next => Some (set_pc (close_r st leftfd) k (S_read_first next))
  | S_closeR leftfd p first next =>
      Some (set_pc (close_r st next) k (S_write_first leftfd p first next))
  | S_write_first leftfd p first next =>
      match sys_write cap st next first with
      | WOk st' => Some (set_pc st' k (S_loop_read leftfd p next))
      | WErr => Some (set_pc st k (S_write_first_err leftfd p next))
      | WBlock => None
      end
  | S_write_first_err leftfd p next =>
      Some (set_pc (sys_fprintf2 st "write error") k (S_loop_read leftfd p next))
  | S_loop_read leftfd p next =>
      match sys_read st leftfd with
      | RVal x st' =>
          Some (set_pc st' k (if (Z.rem x p =? 0)%Z then S_loop_read leftfd p next
                              else S_loop_write leftfd p next x))
      | REof => Some (set_pc st k (S_end_closeL leftfd next))
      | RBlock => None
      end
  | S_loop_write leftfd p next x =>
      match sys_write cap st next x with
      | WOk st' => Some (set_pc st' k (S_loop_read leftfd p next))
      | WErr => Some (set_pc st k (S_loop_err leftfd next))
      | WBlock => None
      end
  | S_loop_err leftfd next =>
      Some (set_pc (sys_fprintf2 st "write error") k (S_end_closeL leftfd next))
  | S_end_closeL leftfd next => Some (set_pc (close_r st leftfd) k (S_end_closeW next))
  | S_end_closeW next => Some (set_pc (close_w st next) k P_wait)
  end.

(** A schedule: at each step the process that runs and whether a [pipe] or
    [fork] it calls is refused. *)
Definition schedule : Type := list (nat * bool).

(** Run a schedule; [None] when it asks a process to run that cannot. *)
Fixpoint run (st : state) (sc : schedule) : option state :=
  match sc with
  | [] => Some st
  | (k, fail) :: sc' =>
      match step st k fail with
      | Some st' => run st' sc'
      | None => None
      end
  end.

(** The state in which the shell starts the program: process 0 at the top of
    [main], nothing else.  [main] never looks at [argc] or [argv]. *)
Definition boot (argc : Z) (argv : list string) : state :=
  mkState 1 (upd (fun _ => Unused) 0 M_pipe) (fun _ => None)
          0 (fun _ => no_pipe) [] [].

Definition init : state := boot 1 ["primes"%string].

(** A scheduler to compute runs with: always the runnable process with the
    least id; [fault] says which [pipe] and [fork] calls are refused, by
    process and program point. *)
Definition pick (st : state) : option nat :=
  first_that (fun k => match step st k false with Some _ => true | None => false end)
             (nproc st).

Fixpoint plan_schedule (fault : nat -> pc -> bool) (fuel : nat) (st : state) : schedule :=
  match fuel with
  | O => []
  | S fuel' =>
      match pick st with
      | Some k =>
          let f := fault k (procs st k) in
          match step st k f with
          | Some st' => (k, f) :: plan_schedule fault fuel' st'
          | None => []
          end
      | None => []
      end
  end.

End Program.

(** ** Descriptors held at a program point

    The number of descriptors that a process standing at [c] has open on the
    read end, respectively the write end, of pipe [j]. *)
Definition eqn (a b : nat) : nat := if Nat.eqb a b then 1 else 0.

Definition holds_r (c : pc) (j : nat) : nat :=
  match c with
  | M_fork p | M_fork_err p | M_fork_exit p | M_child_closeW p | M_closeR p => eqn p j
  | S_read_first l | S_close_exit l _ | S_print l _ | S_preread l _
  | S_pipe l _ _ | S_pipe_err l => eqn l j
  | S_fork l _ _ n | S_fork_err l n | S_fork_closeL l n
  | S_child_closeW l n | S_child_closeL l n | S_closeR l _ _ n => eqn l j + eqn n j
  | S_fork_closeR n => eqn n j
  | S_write_first l _ _ _ | S_write_first_err l _ _ | S_loop_read l _ _
  | S_loop_write l _ _ _ | S_loop_err l _ | S_end_closeL l _ => eqn l j
  | _ => 0
  end.

Definition holds_w (c : pc) (j : nat) : nat :=
  match c with
  | M_fork p | M_fork_err p | M_fork_exit p | M_child_closeW p | M_closeR p => eqn p j
  | F_write w _ | F_err w | F_exit w | M_closeW w => eqn w j
  | S_fork _ _ _ n | S_fork_err _ n | S_fork_closeL _ n | S_fork_closeR n
  | S_fork_closeW n | S_child_closeW _ n | S_closeR _ _ _ n
  | S_write_first _ _ _ n | S_write_first_err _ _ n | S_loop_read _ _ n
  | S_loop_write _ _ n _ | S_loop_err _ n | S_end_closeL _ n | S_end_closeW n => eqn n j
  | _ => 0
  end.

Fixpoint sumn (n : nat) (f : nat -> nat) : nat :=
  match n with
  | O => 0
  | S m => sumn m f + f m
  end.

(** ** The shape of the chain

    Process 0 runs [main]; process [k+1] runs [sieve] on pipe [k], which
    process [k] created and writes to. *)
Definition will_pipe (c : pc) : bool :=
  match c with
  | M_pipe | M_child_closeW _ | S_read_first _ | S_print _ _ | S_preread _ _
  | S_pipe _ _ _ | S_child_closeW _ _ | S_child_closeL _ _ => true
  | _ => false
  end.

Definition at_fork (c : pc) : bool :=
  match c with
  | M_fork _ | S_fork _ _ _ _ => true
  | _ => false
  end.

(** Program points of a process that has no child: it has not forked yet,
    or it is on a path on which [pipe] or [fork] was refused, or it found
    nothing to hand on. *)
Definition childless (c : pc) : bool :=
  match c with
  | M_pipe | M_pipe_err | M_fork _ | M_fork_err _ | M_fork_exit _ | M_child_closeW _
  | S_read_first _ | S_close_exit _ _ | S_print _ _ | S_preread _ _ | S_pipe _ _ _
  | S_pipe_err _ | S_fork _ _ _ _ | S_fork_err _ _ | S_fork_closeL _ _
  | S_fork_closeR _ | S_fork_closeW _ | S_child_closeW _ _ | S_child_closeL _ _ => true
  | _ => false
  end.

(** Program points that are only reached after a successful [fork]. *)
Definition has_child (c : pc) : bool :=
  match c with
  | M_closeR _ | F_write _ _ | F_err _ | F_exit _ | M_closeW _ | P_wait
  | S_closeR _ _ _ _ | S_write_first _ _ _ _ | S_write_first_err _ _ _
  | S_loop_read _ _ _ | S_loop_write _ _ _ _ | S_loop_err _ _
  | S_end_closeL _ _ | S_end_closeW _ => true
  | _ => false
  end.

Definition shape (k : nat) (c : pc) : Prop :=
  match c with
  | Unused => False
  | M_pipe | M_pipe_err => k = 0
  | M_fork p | M_fork_err p | M_fork_exit p | M_closeR p | M_closeW p => k = 0 /\ p = 0
  | F_write w _ | F_err w | F_exit w => k = 0 /\ w = 0
  | M_child_closeW p => k = 1 /\ p = 0
  | P_wait | X_exit _ | Zombie _ => True
  | Reaped _ => 1 <= k
  | S_read_first l | S_close_exit l _ | S_print l _ | S_preread l _
  | S_pipe l _ _ | S_pipe_err l => S l = k
  | S_fork l _ _ n | S_fork_err l n | S_fork_closeL l n | S_closeR l _ _ n
  | S_write_first l _ _ n | S_write_first_err l _ n | S_loop_read l _ n
  | S_loop_write l _ n _ | S_loop_err l n | S_end_closeL l n => S l = k /\ n = k
  | S_fork_closeR n | S_fork_closeW n | S_end_closeW n => n = k /\ 1 <= k
  | S_child_closeW l n | S_child_closeL l n => S n = k /\ S l = n
  end.

Record chain_ok (st : state) : Prop := mkChain {
  ck_nproc  : 1 <= nproc st;
  ck_npipe  : npipe st <= nproc st <= S (npipe st);
  ck_unused : forall k, nproc st <= k -> procs st k = Unused;
  ck_nopipe : forall j, npipe st <= j -> pipes st j = no_pipe;
  ck_shape  : forall k, k < nproc st -> shape k (procs st k);
  ck_last   : forall k, k < nproc st -> will_pipe (procs st k) = true ->
              nproc st = S k /\ npipe st = k;
  ck_fork   : forall k, k < nproc st -> at_fork (procs st k) = true ->
              nproc st = S k /\ npipe st = S k;
  ck_rd     : forall j, rd (pipes st j) = sumn (nproc st) (fun k => holds_r (procs st k) j);
  ck_wr     : forall j, wr (pipes st j) = sumn (nproc st) (fun k => holds_w (procs st k) j);
  ck_alone  : forall k, k < nproc st -> childless (procs st k) = true -> nproc st = S k;
  ck_child  : forall k, k < nproc st -> has_child (procs st k) = true -> S k < nproc st;
  ck_root   : parent st 0 = None;
  ck_parent : forall k, S k < nproc st -> parent st (S k) = Some k
}.

(** ** The flow of numbers through the chain *)

(** [x % p != 0] on C ints: the remainder of truncating division. *)
Definition nondiv (p x : Z) : bool := negb (Z.rem x p =? 0)%Z.

(** The consecutive integers [lo], [lo+1], ... ([n] of them), and the range
    [lo..hi]. *)
Fixpoint zcount (lo : Z) (n : nat) : list Z :=
  match n with
  | O => []
  | S m => lo :: zcount (lo + 1) m
  end.

Definition zrange (lo hi : Z) : list Z := zcount lo (Z.to_nat (hi - lo + 1)).

(** The value a sieve process has read, found not to be a multiple of its
    prime, and not yet written to its child. *)
Definition pend (c : pc) : list Z :=
  match c with
  | S_pipe _ _ f | S_fork _ _ f _ | S_closeR _ _ f _ | S_write_first _ _ f _ => [f]
  | S_loop_write _ _ _ x => [x]
  | _ => []
  end.

(** The variable [p] of [sieve], where it is live. *)
Definition prime_of (c : pc) : option Z :=
  match c with
  | S_print _ p | S_preread _ p | S_pipe _ p _ | S_fork _ p _ _ | S_closeR _ p _ _
  | S_write_first _ p _ _ | S_write_first_err _ p _ | S_loop_read _ p _
  | S_loop_write _ p _ _ => Some p
  | _ => None
  end.

(** Program points of a process that has not yet read its first number. *)
Definition reads_first (c : pc) : bool :=
  match c with
  | M_child_closeW _ | S_child_closeW _ _ | S_child_closeL _ _ | S_read_first _ => true
  | _ => false
  end.

(** Program points reached by giving up a number that was to be written. *)
Definition drop_pc (c : pc) : bool :=
  match c with
  | S_pipe_err _ | S_fork_err _ _ | S_write_first_err _ _ _ | S_loop_err _ _ => true
  | _ => false
  end.

(** [l1] is [l2] with some elements left out. *)
Inductive subseq : list Z -> list Z -> Prop :=
| subseq_nil : subseq [] []
| subseq_skip x l1 l2 : subseq l1 l2 -> subseq l1 (x :: l2)
| subseq_keep x l1 l2 : subseq l1 l2 -> subseq (x :: l1) (x :: l2).

(** Strictly increasing lists. *)
Definition increasing (l : list Z) : Prop := StronglySorted Z.lt l.

(** What pipe [j+1] has received, plus what its writer (process [j+1]) is
    about to write, against what that process has read from pipe [j]: the
    first number read is its prime [p], and of the others those that are not
    multiples of [p] go on.  [R] is equality for runs where nothing is given
    up, and [subseq] in general. *)
Definition flow_at (R : list Z -> list Z -> Prop) (st : state) (j : nat) : Prop :=
  match taken (pipes st j) with
  | [] => pend (procs st (S j)) = [] /\ plog (pipes st (S j)) = [] /\
          prime_of (procs st (S j)) = None
  | p :: t => R (plog (pipes st (S j)) ++ pend (procs st (S j))) (filter (nondiv p) t) /\
              (forall q, prime_of (procs st (S j)) = Some q -> q = p) /\
              reads_first (procs st (S j)) = false /\ S j < nproc st
  end.

(** What [main] has written into pipe 0, by the point it stands at: the
    numbers from 2 up to the loop variable while it feeds, all of 2..[hi]
    once the loop is over, a part of them (from 2 on) when a write failed. *)
Definition feed_ok (hi : Z) (c : pc) (log : list Z) : Prop :=
  match c with
  | M_pipe | M_pipe_err | M_fork _ | M_fork_err _ | M_fork_exit _ | M_closeR _ => log = []
  | F_write _ i => log ++ zrange i hi = zrange 2 hi /\ (2 <= i <= hi)%Z
  | M_closeW _ | P_wait => log = zrange 2 hi
  | F_err _ | F_exit _ => exists rest, log ++ rest = zrange 2 hi
  | X_exit s | Zombie s =>
      (exists rest, log ++ rest = zrange 2 hi) /\ (s = 0%Z -> log = zrange 2 hi)
  | _ => True
  end.

Record flow_ok (hi : Z) (R : list Z -> list Z -> Prop) (st : state) : Prop := mkFlow {
  fl_at    : forall j, flow_at R st j;
  fl_empty : forall j, nproc st <= S j -> plog (pipes st j) = [];
  fl_feed  : feed_ok hi (procs st 0) (plog (pipes st 0))
}.

(** ** What has been printed *)

Definition unprinted (c : pc) : bool :=
  match c with
  | S_print _ _ => true
  | _ => reads_first c
  end.

(** The numbers printed are the first numbers read by the first processes
    of the chain, in the order of the chain; only the last process may not
    have printed yet. *)
Record printed_ok (st : state) : Prop := mkPrinted {
  pr_done  : forall j, j < List.length (printed st) ->
             exists t, taken (pipes st j) = nth j (printed st) 0%Z :: t;
  pr_todo  : forall j, List.length (printed st) <= j ->
             taken (pipes st j) = [] \/
             (j = List.length (printed st) /\ exists l p, procs st (S j) = S_print l p);
  pr_count : S (List.length (printed st)) <= nproc st <= S (S (List.length (printed st)));
  pr_last  : forall k, k < nproc st -> unprinted (procs st k) = true ->
             k = S (List.length (printed st))
}.

(** ** The first number reaches every process *)

Definition first_pending (c : pc) : bool :=
  match c with
  | M_closeR _ | S_closeR _ _ _ _ | S_write_first _ _ _ _ => true
  | F_write _ i => (i =? 2)%Z
  | _ => false
  end.

Record first_ok (st : state) : Prop := mkFirst {
  fs_pending : forall j, j < nproc st -> first_pending (procs st j) = true ->
               plog (pipes st j) = [];
  fs_unread  : forall j, S j < nproc st -> taken (pipes st j) = [] ->
               reads_first (procs st (S j)) = true /\
               (buf (pipes st j) <> [] \/ first_pending (procs st j) = true)
}.

(** ** Waiting for the child *)

Definition joined_pc (k : nat) (c : pc) : bool :=
  match c with
  | X_exit _ | Reaped _ => true
  | Zombie s => Nat.leb 1 k || (s =? 0)%Z
  | _ => false
  end.

Definition wait_ok (st : state) : Prop :=
  forall k, S k < nproc st -> joined_pc k (procs st k) = true ->
  exists s, procs st (S k) = Reaped s.

(** ** Runs in which nothing goes wrong *)

Definition clean (c : pc) : bool :=
  match c with
  | M_pipe_err | M_fork_err _ | M_fork_exit _ | F_err _ | F_exit _
  | S_pipe_err _ | S_fork_err _ _ | S_fork_closeL _ _ | S_fork_closeR _
  | S_fork_closeW _ | S_write_first_err _ _ _ | S_loop_err _ _ => false
  | X_exit s | Zombie s | Reaped s | S_close_exit _ s => (s =? 0)%Z
  | _ => true
  end.

(** Program points of a sieve process that is done with its input. *)
Definition past_input (c : pc) : bool :=
  match c with
  | S_close_exit _ _ | S_end_closeL _ _ | S_end_closeW _ | P_wait
  | X_exit _ | Zombie _ | Reaped _ => true
  | _ => false
  end.

Record clean_ok (hi : Z) (st : state) : Prop := mkClean {
  cl_pcs     : forall k, clean (procs st k) = true;
  cl_errs    : errs st = [];
  cl_drained : forall j, S j < nproc st -> past_input (procs st (S j)) = true ->
               wr (pipes st j) = 0 /\ buf (pipes st j) = [];
  cl_flow    : flow_ok hi eq st
}.

(** ** Runs *)

(** Every process that was created has exited. *)
Definition all_exited (st : state) : Prop :=
  forall k, k < nproc st -> exited (procs st k) = true.

(** No [pipe] or [fork] call is refused. *)
Definition fault_free (sc : schedule) : Prop :=
  forallb (fun x => negb (snd x)) sc = true.

(** The number of sieve processes created. *)
Definition stages (st : state) : nat := nproc st - 1.

(** The status a process exited with. *)
Definition exit_status (st : state) (k : nat) : option Z :=
  match procs st k with
  | Zombie s | Reaped s => Some s
  | _ => None
  end.

(** What holds of every state a run goes through. *)
Record invariant (hi : Z) (st : state) : Prop := mkInv {
  inv_chain   : chain_ok st;
  inv_flow    : flow_ok hi subseq st;
  inv_printed : printed_ok st;
  inv_wait    : wait_ok st
}.

(** ** What the driver reports *)

(** The lines that only [main] and [feed_numbers] write to descriptor 2. *)
Definition driver_msg (m : string) : bool :=
  String.eqb m "pipe() failed" || String.eqb m "fork() failed"
  || String.eqb m "writer: write error".

Definition driver_errs (st : state) : list string := filter driver_msg (errs st).

(** The driver exits with status 1 after a report of its own, and with
    status 0 without one. *)
Definition driver_ok (st : state) : Prop :=
  match procs st 0 with
  | X_exit s =>
      (s = 0%Z /\ driver_errs st = []) \/
      (s = 1%Z /\ driver_errs st = ["pipe() failed"%string])
  | Zombie s =>
      (s = 0%Z /\ driver_errs st = []) \/ (s = 1%Z /\ driver_errs st <> [])
  | M_fork_exit _ => driver_errs st = ["fork() failed"%string]
  | F_exit _ => driver_errs st = ["writer: write error"%string]
  | _ => driver_errs st = []
  end.

(** Program points at which a process calls [read]. *)
Definition reading (c : pc) : bool :=
  match c with
  | S_read_first _ | S_preread _ _ | S_loop_read _ _ _ => true
  | _ => false
  end.

(** ** A measure that every step decreases *)

Definition weight (c : pc) : Z :=
  match c with
  | Unused | Zombie _ | Reaped _ => 0
  | X_exit _ | M_fork_exit _ | F_exit _ => 1
  | P_wait | M_pipe_err | M_fork_err _ | F_err _ | S_close_exit _ _ => 2
  | M_closeW _ | S_pipe_err _ | S_fork_closeW _ | S_end_closeW _ => 3
  | F_write _ _ | S_fork_closeR _ | S_end_closeL _ _ => 4
  | M_closeR _ | S_fork_closeL _ _ | S_loop_err _ _ => 5
  | M_fork _ | S_fork_err _ _ | S_loop_read _ _ _ => 6
  | M_pipe | S_write_first_err _ _ _ | S_loop_write _ _ _ _ => 7
  | S_write_first _ _ _ _ => 8
  | S_closeR _ _ _ _ => 9
  | S_fork _ _ _ _ => 10
  | S_pipe _ _ _ => 11
  | S_preread _ _ => 12
  | S_print _ _ => 13
  | S_read_first _ => 14
  | M_child_closeW _ | S_child_closeL _ _ => 15
  | S_child_closeW _ _ => 16
  end%Z.

Fixpoint sumz (n : nat) (f : nat -> Z) : Z :=
  match n with
  | O => 0%Z
  | S m => (sumz m f + f m)%Z
  end.

(** The reads and writes a pipe has seen. *)
Definition traffic (q : pipe) : Z :=
  (Z.of_nat (List.length (taken q)) + Z.of_nat (List.length (plog q)))%Z.

Definition measure (st : state) : Z :=
  (sumz (nproc st) (fun k => weight (procs st k))
   - 30 * Z.of_nat (nproc st)
   - 2 * sumz (npipe st) (fun j => traffic (pipes st j)))%Z.

(** A bound on the number of steps of a run that feeds 2..[hi]. *)
Definition step_bound (hi : Z) : Z :=
  (let n := Z.max 0 (hi - 1) in 4 * n * n + 38 * n + 37)%Z.

(** Process [k] can take a step. *)
Definition runnable (hi : Z) (cap : nat) (st : state) (k : nat) : Prop :=
  step hi cap st k false <> None.

(** The designated prime of stage [i] (process [i+1]): the first number it
    read from its pipe. *)
Definition designated (st : state) (i : nat) : option Z := head (taken (pipes st i)).

(** The sieve as a function on the list of numbers fed into the chain: the
    head is a prime, the rest is filtered and sieved again. *)
Fixpoint sieve_list (fuel : nat) (l : list Z) : list Z :=
  match fuel, l with
  | S fuel', p :: t => p :: sieve_list fuel' (filter (nondiv p) t)
  | _, _ => []
  end.

Definition primes_of (l : list Z) : list Z := sieve_list (List.length l) l.

(** Primality by trial division, to compare the output with. *)
Definition is_prime (v : Z) : bool :=
  (2 <=? v)%Z && forallb (fun d => nondiv d v) (zrange 2 (v - 1)).

(** The bound of the [for] loop of [feed_numbers]. *)
Definition LIMIT : Z := 35.

(** xv6 pipes buffer 512 bytes, that is 128 ints. *)
Definition PIPESIZE : nat := 128.

(** Every process of the table has exited (computable). *)
Definition completed (st : state) : bool :=
  forallb (fun k => exited (procs st k)) (seq 0 (nproc st)).

(** ** Some runs of the program *)

Definition at_pipe (c : pc) : bool :=
  match c with S_pipe _ _ _ => true | _ => false end.

Definition at_spawn (c : pc) : bool :=
  match c with S_fork _ _ _ _ => true | _ => false end.

(** Nothing is refused; the process with the least id that can run, runs. *)
Definition demo : schedule :=
  plan_schedule LIMIT PIPESIZE (fun _ _ => false) 1000 init.


(** [pipe] is refused to the first sieve process (process 1), after [main]
    has fed all its numbers. *)
Definition pipe_refused_1 : schedule :=
  plan_schedule LIMIT PIPESIZE (fun k c => Nat.eqb k 1 && at_pipe c) 1000 init.

(** [fork] is refused to the third sieve process (process 3) when it is
    about to create the fourth, after [main] has fed all its numbers. *)
Definition fork_refused_3 : schedule :=
  plan_schedule LIMIT PIPESIZE (fun k c => Nat.eqb k 3 && at_spawn c) 1000 init.

(** [main] gets to write 2 and 3 only; the first sieve process reads them,
    is refused its [pipe] and closes its input; then [main] writes 4. *)
Definition early_pipe_refusal : schedule :=
  repeat (0, false) 5 ++ repeat (1, false) 4 ++ [(1, true)] ++ repeat (1, false) 2
  ++ repeat (0, false) 3.

(** The same with [fork] refused instead of [pipe], up to the moment [main]
    has reported that its write failed. *)
Definition early_fork_refusal : schedule :=
  repeat (0, false) 5 ++ repeat (1, false) 5 ++ [(1, true)] ++ repeat (1, false) 2
  ++ repeat (0, false) 2.

(** The run above with one more step of [main]: its [exit(1)]. *)
Definition feeder_write_fails : schedule := early_fork_refusal ++ [(0, false)].

(** The part of a schedule before the first call it has refused. *)
Fixpoint before_refusal (sc : schedule) : schedule :=
  match sc with
  | [] => []
  | (k, f) :: sc' => if f then [] else (k, f) :: before_refusal sc'
  end.

(** The state a schedule leads to from the start of the program ([init]
    itself for a schedule that cannot be run). *)
Definition outcome (hi : Z) (cap : nat) (sc : schedule) : state :=
  match run hi cap init sc with
  | Some st => st
  | None => init
  end.

(** The process table as a list. *)
Definition table (st : state) : list pc := map (procs st) (seq 0 (nproc st)).

(** Whether a schedule can be run from the start of the program. *)
Definition can_run (hi : Z) (cap : nat) (sc : schedule) : bool :=
  match run hi cap init sc with
  | Some _ => true
  | None => false
  end.

(** ** More about primes.c *)

(** Program points at which a process calls [write]. *)
Definition writing (c : pc) : bool :=
  match c with
  | F_write _ _ | S_write_first _ _ _ _ | S_loop_write _ _ _ _ => true
  | _ => false
  end.

(** Program points of a sieve process that will neither read its input nor
    write to its child any more. *)
Definition stopped (c : pc) : bool :=
  match c with
  | S_close_exit _ _ | S_pipe_err _ | S_fork_err _ _ | S_fork_closeL _ _
  | S_fork_closeR _ | S_fork_closeW _ | S_loop_err _ _ | S_end_closeL _ _
  | S_end_closeW _ | P_wait | X_exit _ | Zombie _ | Reaped _ => true
  | _ => false
  end.

(** [a] is an initial part of [b]. *)
Definition prefix (a b : list Z) : Prop := exists r, a ++ r = b.

(** What process [j+1] has passed on, against what it has read: while it
    is at work, all the numbers its prime does not divide, the last one
    possibly still in its hand; once it has stopped, an initial part of
    them.  It never stands at line 85. *)
Definition passed_at (st : state) (j : nat) : Prop :=
  match taken (pipes st j) with
  | [] => True
  | p :: t =>
      if stopped (procs st (S j))
      then prefix (plog (pipes st (S j))) (filter (nondiv p) t)
      else plog (pipes st (S j)) ++ pend (procs st (S j)) = filter (nondiv p) t /\
           forall l q n, procs st (S j) <> S_write_first_err l q n
  end.

Definition passed (st : state) : Prop := forall j, passed_at st j.

(** The lists of the sieve: [ideal hi 0] is 2..[hi], and each next one is
    the one before without its head and the multiples of its head. *)
Fixpoint ideal (hi : Z) (j : nat) : list Z :=
  match j with
  | O => zrange 2 hi
  | S j' => match ideal hi j' with
            | [] => []
            | p :: t => filter (nondiv p) t
            end
  end.

(** The states that runs of the program go through. *)
Definition reachable (hi : Z) (cap : nat) (st : state) : Prop :=
  exists sc, run hi cap init sc = Some st.

(** [v] has no divisor among 2 .. [m - 1]. *)
Definition roughb (m v : Z) : bool := forallb (fun d => nondiv d v) (zrange 2 (m - 1)).

Unset Implicit Arguments.

(** * user/xargs.c: run a command on the words of standard input *)

Module Xargs.

(** The maximum length of a single token, terminator included (line 6). *)
Definition TOKSZ : nat := 128.

(** What the program cannot know beforehand: whether its n-th [fork] and
    its n-th [malloc] succeed, and whether [exec] of an argument vector
    does. *)
Record env : Type := mkEnv {
  fork_ok   : nat -> bool;
  malloc_ok : nat -> bool;
  exec_ok   : list string -> bool
}.

(** What can be observed: a child that runs a program with the given
    argument vector, and a line on descriptor 2. *)
Inductive event : Type :=
| Ran (args : list string)
| Stderr (msg : string).

(** The variables of [main] that change in its loop: [tok[0..tlen)],
    [words[0..wcnt)], the calls of [fork] and [malloc] made so far, and what
    has been observed. *)
Record state : Type := mkState {
  tok     : list ascii;
  words   : list string;
  forks   : nat;
  mallocs : nat;
  out     : list event
}.

Definition start : state := mkState [] [] 0 0 [].

(** A function of the program either returns or has called [exit]. *)
Inductive result : Type :=
| Go (s : state)
| Exit (status : Z) (s : state).

Definition andthen (r : result) (k : state -> result) : result :=
  match r with
  | Go s => k s
  | Exit c s => Exit c s
  end.

Definition set_tok (s : state) (t : list ascii) : state :=
  mkState t (words s) (forks s) (mallocs s) (out s).

Definition set_words (s : state) (w : list string) : state :=
  mkState (tok s) w (forks s) (mallocs s) (out s).

Definition emit (s : state) (ev : event) : state :=
  mkState (tok s) (words s) (forks s) (mallocs s) (out s ++ [ev]).

Definition count_fork (s : state) : state :=
  mkState (tok s) (words s) (S (forks s)) (mallocs s) (out s).

Definition count_malloc (s : state) : state :=
  mkState (tok s) (words s) (forks s) (S (mallocs s)) (out s).

Definition NUL : ascii := "000"%char.
Definition quote2 : ascii := "034"%char.
Definition quote1 : ascii := "'"%char.
Definition backslash : ascii := "\"%char.
Definition space : ascii := " "%char.
Definition tab : ascii := "009"%char.
Definition newline : ascii := "010"%char.

(** The C string that starts at [tok]: the characters before the first
    zero byte. *)
Fixpoint cstr (l : list ascii) : string :=
  match l with
  | [] => EmptyString
  | c :: l' => if Ascii.eqb c NUL then EmptyString else String c (cstr l')
  end.

Section Program.

(** [MAXARG] comes from kernel/param.h. *)
Variable MAXARG : nat.
Variable e : env.

(** The child of lines 28-31 and 50-53: [exec], and when that returns, the
    report and [exit(1)]. *)
Definition child (args : list string) : event :=
  if exec_ok e args then Ran args
  else Stderr ("xargs: exec " ++ hd EmptyString args ++ " failed").

(** Lines 27-37 and 49-59: [fork]; the child [exec]s, the parent waits for
    it; when [fork] fails, the report and [exit(1)]. *)
Definition fork_exec (args : list string) (s : state) : result :=
  if fork_ok e (forks s) then Go (emit (count_fork s) (child args))
  else Exit 1 (emit (count_fork s) (Stderr "xargs: fork failed")).

Section Loop.

(** [fixed[0..fcnt)] and [per_token], which the loop does not change. *)
Variable fixed : list string.
Variable per_token : bool.

Definition run_with_token (word : string) (s : state) : result :=
  fork_exec (fixed ++ [word]) s.

(** The words are freed after the child has been waited for; the caller
    resets [wcnt]. *)
Definition run_with_tokens (ws : list string) (s : state) : result :=
  fork_exec (fixed ++ ws) s.

(** Lines 170-176, 208-211 and 238-241: run what has been collected when
    one more word would not fit. *)
Definition flush_if_full (s : state) : result :=
  if Nat.leb MAXARG (List.length fixed + List.length (words s) + 1)
  then andthen (run_with_tokens (words s) s) (fun s' => Go (set_words s' []))
  else Go s.

(** The token in [tok] is complete (lines 166-183, 204-216, 234-246).
    [keep] is false at lines 180-182 only, where the copy of the token is
    not put into [words]. *)
Definition end_token (keep : bool) (s : state) : result :=
  if per_token then run_with_token (cstr (tok s)) s
  else
    andthen (flush_if_full s) (fun s1 =>
      if malloc_ok e (mallocs s1)
      then Go (set_words (count_malloc s1)
                 (if keep then words s1 ++ [cstr (tok s1)] else words s1))
      else Exit 1 (emit (count_malloc s1) (Stderr "xargs: malloc failed"))).

(** [if (tlen < TOKSZ - 1) tok[tlen++] = c]. *)
Definition push (c : ascii) (s : state) : state :=
  if Nat.ltb (List.length (tok s)) (TOKSZ - 1) then set_tok s (tok s ++ [c]) else s.

Definition is_quote (c : ascii) : bool := Ascii.eqb c quote2 || Ascii.eqb c quote1.

Definition is_blank (c : ascii) : bool :=
  Ascii.eqb c space || Ascii.eqb c tab || Ascii.eqb c newline.

(** The loop of lines 140-224 on what is left of standard input; it ends
    when [read] returns 0. *)
Fixpoint loop (input : list ascii) (s : state) : result :=
  match input with
  | [] => Go s
  | ch :: rest =>
      if is_quote ch then loop rest s
      else if Ascii.eqb ch backslash then
        match rest with
        | ch2 :: rest2 =>
            if Ascii.eqb ch2 "n"%char
            then if Nat.ltb 0 (List.length (tok s))
                 then andthen (end_token false s) (fun s' => loop rest2 (set_tok s' []))
                 else loop rest2 s
            else loop rest2 (push ch2 (push backslash s))
        | [] => Go (push backslash s)
        end
      else if is_blank ch then
        if Nat.ltb 0 (List.length (tok s))
        then andthen (end_token true s) (fun s' => loop rest (set_tok s' []))
        else loop rest s
      else loop rest (push ch s)
  end.

(** Lines 233-255: the last token, what has been collected, [exit(0)]. *)
Definition at_eof (s : state) : result :=
  andthen (if Nat.ltb 0 (List.length (tok s)) then end_token true s else Go s) (fun s1 =>
  andthen (if negb per_token && Nat.ltb 0 (List.length (words s1))
           then andthen (run_with_tokens (words s1) s1) (fun s' => Go (set_words s' []))
           else Go s1) (fun s2 =>
  Exit 0 s2)).

End Loop.

(** Lines 88-101: whether [argv] starts with the option [-n], and the
    index [i] of the command in [argv]. *)
Definition has_n (argv : list string) : bool :=
  Nat.leb 3 (List.length argv) && String.eqb (nth 1 argv EmptyString) "-n".

Definition first_arg (argv : list string) : nat := if has_n argv then 3 else 1.

(** [main], with [argc] the length of [argv]: the exit status and what was
    observed. *)
Definition main (argv : list string) (input : list ascii) : Z * list event :=
  if has_n argv && negb (String.eqb (nth 2 argv EmptyString) "1")
  then (1%Z, [Stderr "xargs: only -n 1 supported"])
  else
    let per_token := has_n argv in
    let i := first_arg argv in
    if Nat.leb (List.length argv) i
    then (1%Z, [Stderr "usage: xargs [-n 1] <cmd> [args...]"])
    else
      let fixed := skipn i argv in
      match andthen (loop fixed per_token input start) (at_eof fixed per_token) with
      | Go s => (0%Z, out s)
      | Exit c s => (c, out s)
      end.

End Program.

(** The words of a text: the maximal runs of characters that are not
    blanks, in order. *)
Fixpoint split_blank (cur : list ascii) (input : list ascii) : list (list ascii) :=
  match input with
  | [] => match cur with [] => [] | _ => [cur] end
  | c :: rest =>
      if is_blank c
      then match cur with [] => split_blank [] rest | _ => cur :: split_blank [] rest end
      else split_blank (cur ++ [c]) rest
  end.

Definition words_of (input : list ascii) : list (list ascii) := split_blank [] input.

(** A text that the loop reads word by word: no quotes, no backslash, no
    zero byte. *)
Definition plain (input : list ascii) : bool :=
  forallb (fun c => negb (is_quote c || Ascii.eqb c backslash || Ascii.eqb c NUL)) input.

(** A list cut into pieces of [n] elements, the last one possibly
    shorter. *)
Fixpoint chunks_fuel (fuel n : nat) (l : list string) : list (list string) :=
  match fuel with
  | O => []
  | S fuel' =>
      match l with
      | [] => []
      | _ => firstn n l :: chunks_fuel fuel' n (skipn n l)
      end
  end.

Definition chunks (n : nat) (l : list string) : list (list string) :=
  chunks_fuel (List.length l) n l.

(** An environment in which nothing fails. *)
Definition kind : env := mkEnv (fun _ => true) (fun _ => true) (fun _ => true).

(** [I] holds of the state of a function that returns, [Q] of the exit
    status and the state of one that exits. *)
Definition holds (I : state -> Prop) (Q : Z -> state -> Prop) (r : result) : Prop :=
  match r with
  | Go s => I s
  | Exit c s => Q c s
  end.

(** Every program that was run got the fixed arguments first, in an
    argument vector that fits [args[MAXARG]] with its terminator. *)
Definition runs_fit (MAXARG : nat) (fixed : list string) (evs : list event) : Prop :=
  forall a, In (Ran a) evs -> (exists b, a = fixed ++ b) /\ List.length a < MAXARG.

(** The same, and the words collected fit with the fixed arguments. *)
Definition fits (MAXARG : nat) (fixed : list string) (s : state) : Prop :=
  List.length fixed + List.length (words s) < MAXARG /\ runs_fit MAXARG fixed (out s).

(** The lines with which xargs itself gives up. *)
Definition failure (m : string) : Prop :=
  m = "xargs: fork failed"%string \/ m = "xargs: malloc failed"%string \/
  m = "usage: xargs [-n 1] <cmd> [args...]"%string \/
  m = "xargs: only -n 1 supported"%string.

Definition ends_in_failure (evs : list event) : Prop :=
  exists pre m, evs = pre ++ [Stderr m] /\ failure m.

(** No line of what was observed is one with which xargs gives up. *)
Definition quiet (evs : list event) : Prop :=
  forall m, In (Stderr m) evs -> ~ failure m.

(** How a run ends: with status 0 and no such line, or with status 1 and
    such a line last. *)
Definition ending (c : Z) (evs : list event) : Prop :=
  (c = 0%Z /\ quiet evs) \/ (c = 1%Z /\ ends_in_failure evs).

(** Two states that differ at most in the numbers of calls made. *)
Definition same (s t : state) : Prop :=
  tok s = tok t /\ words s = words t /\ out s = out t.

Definition same_result (r1 r2 : result) : Prop :=
  match r1, r2 with
  | Go s, Go t => same s t
  | Exit c s, Exit d t => c = d /\ out s = out t
  | _, _ => False
  end.

(** The text with every backslash-n pair that the loop reads as such
    replaced by a newline. *)
Fixpoint unescape (input : list ascii) : list ascii :=
  match input with
  | [] => []
  | ch :: rest =>
      if is_quote ch then ch :: unescape rest
      else if Ascii.eqb ch backslash then
        match rest with
        | ch2 :: rest2 =>
            if Ascii.eqb ch2 "n"%char then newline :: unescape rest2
            else ch :: ch2 :: unescape rest2
        | [] => [ch]
        end
      else ch :: unescape rest
  end.

(** The result without the state. *)
Definition observe (r : result) : option (Z * list event) :=
  match r with
  | Go _ => None
  | Exit c s => Some (c, out s)
  end.

End Xargs.

(** * user/pingpong.c: a byte from the parent to the child and back *)

Module Pingpong.

(** The two processes. *)
Inductive who : Type := Parent | Child.

(** Program points, named after the call about to be executed, with the
    line of pingpong.c. *)
Inductive pc : Type :=
| Unborn                          (* the child before fork *)
| M_pipe1                         (* 28: pipe(p2c) *)
| M_pipe2                         (* 28: pipe(c2p) *)
| M_pipe_err (p2c_open : bool)    (* 29: fprintf(2, "pipe() failed\n") *)
| M_pipe_exit (p2c_open : bool)   (* 30: exit(1) *)
| M_fork                          (* 33: fork() *)
| M_fork_err                      (* 35: fprintf(2, "fork() failed\n") *)
| M_fork_exit                     (* 36: exit(1), both pipes open *)
| C_closeW                        (* 43: close(p2c[1]) *)
| C_closeR                        (* 44: close(c2p[0]) *)
| C_read                          (* 62: read(p2c[0], &byte, 1) *)
| C_read_err                      (* 63: fprintf(2, "child: read error\n") *)
| C_print (byte : Z)              (* 68: printf("%d: received ping\n", getpid()) *)
| C_write (byte : Z)              (* 70: write(c2p[1], &byte, 1) *)
| C_write_err                     (* 71: fprintf(2, "child: write error\n") *)
| C_fail_exit                     (* 64, 72: exit(1), p2c[0] and c2p[1] open *)
| C_close1                        (* 75: close(p2c[0]) *)
| C_close2                        (* 76: close(c2p[1]) *)
| P_closeR                        (* 79: close(p2c[0]) *)
| P_closeW                        (* 80: close(c2p[1]) *)
| P_write                         (* 83: write(p2c[1], &byte, 1), byte = 'x' *)
| P_write_err                     (* 84: fprintf(2, "parents: write error\n") *)
| P_read                          (* 88: read(c2p[0], &byte, 1) *)
| P_read_err                      (* 89: fprintf(2, "parents: read error\n") *)
| P_fail_exit                     (* 85, 90: exit(1), p2c[1] and c2p[0] open *)
| P_print                         (* 93: printf("%d: received pong\n", getpid()) *)
| P_close1                        (* 95: close(p2c[1]) *)
| P_close2                        (* 96: close(c2p[0]) *)
| P_wait                          (* 117: wait(0) *)
| X_exit (status : Z)             (* 77, 118: exit(status), nothing open *)
| Zombie (status : Z)             (* exited, not yet waited for *)
| Reaped (status : Z).            (* exited and collected by wait *)

(** The lines on standard output, by who wrote them. *)
Inductive line : Type := Ping | Pong.

Record state : Type := mkState {
  parent : pc;
  child  : pc;
  p2c    : pipe;          (* the pipe from the parent to the child *)
  c2p    : pipe;          (* the pipe from the child to the parent *)
  out    : list line;     (* standard output *)
  errs   : list string    (* descriptor 2 *)
}.

Definition init : state := mkState M_pipe1 Unborn no_pipe no_pipe [] [].

(** ** Pipes *)

Definition fresh : pipe := mkPipe [] [] 1 1.

Definition dup (q : pipe) : pipe := mkPipe (taken q) (buf q) (S (rd q)) (S (wr q)).

Definition closeR (q : pipe) : pipe := mkPipe (taken q) (buf q) (Nat.pred (rd q)) (wr q).

Definition closeW (q : pipe) : pipe := mkPipe (taken q) (buf q) (rd q) (Nat.pred (wr q)).

Inductive got : Type :=
| Byte (x : Z) (q' : pipe)   (* read returns 1 *)
| Eof                        (* read returns 0 *)
| Wait.                      (* the caller sleeps *)

Definition read1 (q : pipe) : got :=
  match buf q with
  | x :: b => Byte x (mkPipe (taken q ++ [x]) b (rd q) (wr q))
  | [] => if Nat.eqb (wr q) 0 then Eof else Wait
  end.

Inductive put : Type :=
| Put (q' : pipe)            (* write returns 1 *)
| Broken                     (* write returns -1: no reader *)
| Full.                      (* the caller sleeps *)

Definition write1 (cap : nat) (q : pipe) (v : Z) : put :=
  if Nat.eqb (rd q) 0 then Broken
  else if Nat.ltb (List.length (buf q)) cap
       then Put (mkPipe (taken q) (buf q ++ [v]) (rd q) (wr q))
       else Full.

(** ** The program *)

Definition set_parent (st : state) (c : pc) : state :=
  mkState c (child st) (p2c st) (c2p st) (out st) (errs st).

Definition set_child (st : state) (c : pc) : state :=
  mkState (parent st) c (p2c st) (c2p st) (out st) (errs st).

Definition set_p2c (st : state) (q : pipe) : state :=
  mkState (parent st) (child st) q (c2p st) (out st) (errs st).

Definition set_c2p (st : state) (q : pipe) : state :=
  mkState (parent st) (child st) (p2c st) q (out st) (errs st).

Definition say (st : state) (l : line) : state :=
  mkState (parent st) (child st) (p2c st) (c2p st) (out st ++ [l]) (errs st).

Definition complain (st : state) (m : string) : state :=
  mkState (parent st) (child st) (p2c st) (c2p st) (out st) (errs st ++ [m]).

Section Program.

(** The number of bytes a pipe buffers. *)
Variable cap : nat.

(** One step of the parent; [fail]: the kernel refuses the call when it is
    [pipe] or [fork]. *)
Definition step_parent (st : state) (fail : bool) : option state :=
  match parent st with
  | M_pipe1 =>
      Some (if fail then set_parent st (M_pipe_err false)
            else set_parent (set_p2c st fresh) M_pipe2)
  | M_pipe2 =>
      Some (if fail then set_parent st (M_pipe_err true)
            else set_parent (set_c2p st fresh) M_fork)
  | M_pipe_err b => Some (set_parent (complain st "pipe() failed") (M_pipe_exit b))
  | M_pipe_exit b =>
      Some (set_parent (if b then set_p2c st (closeW (closeR (p2c st))) else st) (Zombie 1))
  | M_fork =>
      Some (if fail then set_parent st M_fork_err
            else set_parent (set_child (set_c2p (set_p2c st (dup (p2c st))) (dup (c2p st)))
                                       C_closeW) P_closeR)
  | M_fork_err => Some (set_parent (complain st "fork() failed") M_fork_exit)
  | M_fork_exit =>
      Some (set_parent (set_c2p (set_p2c st (closeW (closeR (p2c st))))
                                (closeW (closeR (c2p st)))) (Zombie 1))
  | P_closeR => Some (set_parent (set_p2c st (closeR (p2c st))) P_closeW)
  | P_closeW => Some (set_parent (set_c2p st (closeW (c2p st))) P_write)
  | P_write =>
      match write1 cap (p2c st) 120 with
      | Put q => Some (set_parent (set_p2c st q) P_read)
      | Broken => Some (set_parent st P_write_err)
      | Full => None
      end
  | P_write_err => Some (set_parent (complain st "parents: write error") P_fail_exit)
  | P_read =>
      match read1 (c2p st) with
      | Byte _ q => Some (set_parent (set_c2p st q) P_print)
      | Eof => Some (set_parent st P_read_err)
      | Wait => None
      end
  | P_read_err => Some (set_parent (complain st "parents: read error") P_fail_exit)
  | P_fail_exit =>
      Some (set_parent (set_c2p (set_p2c st (closeW (p2c st))) (closeR (c2p st))) (Zombie 1))
  | P_print => Some (set_parent (say st Pong) P_close1)
  | P_close1 => Some (set_parent (set_p2c st (closeW (p2c st))) P_close2)
  | P_close2 => Some (set_parent (set_c2p st (closeR (c2p st))) P_wait)
  | P_wait =>
      match child st with
      | Zombie s => Some (set_parent (set_child st (Reaped s)) (X_exit 0))
      | Unborn | Reaped _ => Some (set_parent st (X_exit 0))
      | _ => None
      end
  | X_exit s => Some (set_parent st (Zombie s))
  | _ => None
  end.

(** One step of the child. *)
Definition step_child (st : state) : option state :=
  match child st with
  | C_closeW => Some (set_child (set_p2c st (closeW (p2c st))) C_closeR)
  | C_closeR => Some (set_child (set_c2p st (closeR (c2p st))) C_read)
  | C_read =>
      match read1 (p2c st) with
      | Byte b q => Some (set_child (set_p2c st q) (C_print b))
      | Eof => Some (set_child st C_read_err)
      | Wait => None
      end
  | C_read_err => Some (set_child (complain st "child: read error") C_fail_exit)
  | C_print b => Some (set_child (say st Ping) (C_write b))
  | C_write b =>
      match write1 cap (c2p st) b with
      | Put q => Some (set_child (set_c2p st q) C_close1)
      | Broken => Some (set_child st C_write_err)
      | Full => None
      end
  | C_write_err => Some (set_child (complain st "child: write error") C_fail_exit)
  | C_fail_exit =>
      Some (set_child (set_c2p (set_p2c st (closeR (p2c st))) (closeW (c2p st))) (Zombie 1))
  | C_close1 => Some (set_child (set_p2c st (closeR (p2c st))) C_close2)
  | C_close2 => Some (set_child (set_c2p st (closeW (c2p st))) (X_exit 0))
  | X_exit s => Some (set_child st (Zombie s))
  | _ => None
  end.

Definition step (st : state) (k : who) (fail : bool) : option state :=
  match k with
  | Parent => step_parent st fail
  | Child => step_child st
  end.

Definition schedule : Type := list (who * bool).

Fixpoint run (st : state) (sc : schedule) : option state :=
  match sc with
  | [] => Some st
  | (k, fail) :: sc' =>
      match step st k fail with
      | Some st' => run st' sc'
      | None => None
      end
  end.

End Program.

Definition exited (c : pc) : bool :=
  match c with Zombie _ | Reaped _ => true | _ => false end.

Definition exit_status (c : pc) : option Z :=
  match c with Zombie s | Reaped s => Some s | _ => None end.

(** No [pipe] or [fork] is refused. *)
Definition fault_free (sc : schedule) : bool := forallb (fun x => negb (snd x)) sc.

(** Standard output as text, given what [getpid] returns in the parent and
    in the child. *)
Definition render (ppid cpid : Z) (l : line) : string :=
  match l with
  | Ping => (NilZero.string_of_int (Z.to_int cpid) ++ ": received ping")%string
  | Pong => (NilZero.string_of_int (Z.to_int ppid) ++ ": received pong")%string
  end.

Definition stdout (ppid cpid : Z) (st : state) : list string :=
  map (render ppid cpid) (out st).

(** ** The states of all runs *)

Definition pc_eq_dec (a b : pc) : {a = b} + {a <> b}.
Proof. decide equality; try apply Z.eq_dec; apply Bool.bool_dec. Defined.

Definition pipe_eq_dec (a b : pipe) : {a = b} + {a <> b}.
Proof. decide equality; try apply Nat.eq_dec; apply (list_eq_dec Z.eq_dec). Defined.

Definition line_eq_dec (a b : line) : {a = b} + {a <> b}.
Proof. decide equality. Defined.

Definition state_eq_dec (a b : state) : {a = b} + {a <> b}.
Proof.
  decide equality; try apply pc_eq_dec; try apply pipe_eq_dec;
    try apply (list_eq_dec line_eq_dec); apply (list_eq_dec string_dec).
Defined.

Definition mem (s : state) (l : list state) : bool :=
  existsb (fun t => if state_eq_dec s t then true else false) l.

Definition moves : list (who * bool) :=
  [(Parent, false); (Parent, true); (Child, false); (Child, true)].

(** The states one step away from [s], with pipes of [cap] bytes. *)
Definition next (cap : nat) (s : state) : list state :=
  flat_map (fun m => match step cap s (fst m) (snd m) with
                     | Some s' => [s']
                     | None => []
                     end) moves.

(** Breadth-first search from [todo]. *)
Fixpoint explore (cap fuel : nat) (todo seen : list state) : list state :=
  match fuel with
  | O => seen
  | S fuel' =>
      match todo with
      | [] => seen
      | s :: todo' =>
          if mem s seen then explore cap fuel' todo' seen
          else explore cap fuel' (todo' ++ next cap s) (s :: seen)
      end
  end.

(** The states found from [init] with pipes of one byte. *)
Definition reach : list state := explore 1 1000 [init] [].

(** Closed under steps. *)
Definition closed (cap : nat) (l : list state) : bool :=
  forallb (fun s => forallb (fun s' => mem s' l) (next cap s)) l.

(** A process that stands at a [write] finds its pipe empty. *)
Definition writes_empty (s : state) : bool :=
  (match parent s with
   | P_write => match buf (p2c s) with [] => true | _ => false end
   | _ => true
   end) &&
  (match child s with
   | C_write _ => match buf (c2p s) with [] => true | _ => false end
   | _ => true
   end).

(** The number of steps a process has before it at most. *)
Definition rank (c : pc) : nat :=
  match c with
  | Unborn | Zombie _ | Reaped _ => 0
  | X_exit _ | M_pipe_exit _ | M_fork_exit | C_fail_exit | P_fail_exit => 1
  | M_pipe_err _ | M_fork_err | C_read_err | C_write_err | P_read_err | P_write_err
  | P_wait | C_close2 => 2
  | C_close1 | P_close2 => 3
  | C_write _ | P_close1 => 4
  | C_print _ | P_print => 5
  | C_read | P_read => 6
  | C_closeR | P_write => 7
  | C_closeW | P_closeW => 8
  | P_closeR => 9
  | M_fork => 19
  | M_pipe2 => 20
  | M_pipe1 => 21
  end.

Definition measure (s : state) : nat := rank (parent s) + rank (child s).

(** ** What is checked on the states found *)

Definition out_ok (s : state) : bool :=
  match out s with
  | [] | [Ping] | [Ping; Pong] => true
  | _ => false
  end.

Definition errs_ok (s : state) : bool :=
  match errs s with
  | [] => true
  | [m] => String.eqb m "pipe() failed" || String.eqb m "fork() failed"
  | _ => false
  end.

(** Program points on a path on which something was refused or failed. *)
Definition on_error_path (c : pc) : bool :=
  match c with
  | M_pipe_err _ | M_pipe_exit _ | M_fork_err | M_fork_exit
  | C_read_err | C_write_err | C_fail_exit
  | P_read_err | P_write_err | P_fail_exit => true
  | X_exit s | Zombie s | Reaped s => negb (s =? 0)%Z
  | _ => false
  end.

(** Nothing has gone wrong so far. *)
Definition clean (s : state) : bool :=
  negb (on_error_path (parent s)) && negb (on_error_path (child s)) &&
  match errs s with [] => true | _ => false end.

Definition pipe_closed (q : pipe) : bool :=
  Nat.eqb (rd q) 0 && Nat.eqb (wr q) 0 && match buf q with [] => true | _ => false end.

(** The parent has exited: then the child, if there is one, has exited and
    was waited for, and the pipes are closed and empty. *)
Definition joined (s : state) : bool :=
  negb (exited (parent s)) ||
  ((match child s with Unborn | Reaped _ => true | _ => false end) &&
   pipe_closed (p2c s) && pipe_closed (c2p s)).

(** The parent has exited after a run in which nothing went wrong. *)
Definition ended_well (s : state) : bool :=
  negb (exited (parent s)) ||
  ((if pc_eq_dec (parent s) (Zombie 0) then true else false) &&
   (if pc_eq_dec (child s) (Reaped 0) then true else false) &&
   (match out s with [Ping; Pong] => true | _ => false end)).

(** Every step with pipes of [cap] bytes decreases the measure. *)
Definition decreasing (cap : nat) (s : state) : bool :=
  forallb (fun s' => Nat.ltb (measure s') (measure s)) (next cap s).

(** The parent has exited, or some process can take a step without any
    call being refused. *)
Definition live (cap : nat) (s : state) : bool :=
  exited (parent s) ||
  match step cap s Parent false, step cap s Child false with
  | None, None => false
  | _, _ => true
  end.

(** A step that refuses nothing keeps [clean]. *)
Definition clean_kept (cap : nat) (s : state) : bool :=
  negb (clean s) ||
  forallb (fun k => match step cap s k false with
                    | Some s' => clean s'
                    | None => true
                    end) [Parent; Child].

(** No process is on the branch of a failed [read] or [write]. *)
Definition transfers_ok (s : state) : bool :=
  match parent s with
  | P_write_err | P_read_err | P_fail_exit => false
  | _ => match child s with
         | C_read_err | C_write_err | C_fail_exit => false
         | _ => true
         end
  end.

(** The state in which the program ends when nothing is refused. *)
Definition done : state :=
  mkState (Zombie 0) (Reaped 0) (mkPipe [120%Z] [] 0 0) (mkPipe [120%Z] [] 0 0) [Ping; Pong] [].

Definition ends_done (s : state) : bool :=
  negb (clean s && exited (parent s)) || (if state_eq_dec s done then true else false).

(** The parent has exited after a report on descriptor 2: with status 1,
    without a child and without output. *)
Definition refused_end (s : state) : bool :=
  negb (exited (parent s)) ||
  match errs s with
  | [] => true
  | _ => (if pc_eq_dec (parent s) (Zombie 1) then true else false) &&
         (if pc_eq_dec (child s) Unborn then true else false) &&
         match out s with [] => true | _ => false end
  end.

(** A run in which nothing is refused: the parent up to its [read], the
    child to its end, the parent to its end. *)
Definition demo : schedule :=
  repeat (Parent, false) 6 ++ repeat (Child, false) 8 ++ repeat (Parent, false) 6.

(** The first part of [demo]: the child has printed, the parent has not. *)
Definition demo_half : schedule :=
  repeat (Parent, false) 6 ++ repeat (Child, false) 4.

(** [fork] is refused. *)
Definition demo_refused : schedule :=
  [(Parent, false); (Parent, false); (Parent, true); (Parent, false); (Parent, false)].

End Pingpong.

(** * user/find.c: the files of a given name below a path *)

Module Find.

(** The length of the name field of a directory entry (kernel/fs.h). *)
Definition DIRSIZ : nat := 14.

(** [sizeof buf] (line 68). *)
Definition BUFSZ : nat := 512.

Definition NUL : ascii := "000"%char.
Definition slash : ascii := "/"%char.
Definition dot : ascii := "."%char.

(** What the kernel answers when a path is opened: [open] fails; [open]
    succeeds and [fstat] fails; a file; a directory, with the entries its
    reads return one after the other, each with its inode number, its name
    field and what opening that name in the directory answers; anything
    else (a device). *)
Inductive node : Type :=
| NoOpen
| NoStat
| File
| Device
| Dir (entries : list (nat * list ascii * node)).

(** What the program does that can be seen from outside. *)
Inductive event : Type :=
| Open (path : list ascii) (ok : bool)   (* open(path, 0), and whether it gave a descriptor *)
| Close                                  (* close(fd) *)
| Stdout (line : list ascii)             (* printf("%s\n", ...) *)
| Stderr (line : list ascii).            (* fprintf(2, ...) *)

(** A character array read as a C string: up to the first NUL. *)
Fixpoint cstr (l : list ascii) : list ascii :=
  match l with
  | [] => []
  | c :: l' => if Ascii.eqb c NUL then [] else c :: cstr l'
  end.

(** The characters before the first '/'. *)
Fixpoint upto_slash (l : list ascii) : list ascii :=
  match l with
  | [] => []
  | c :: l' => if Ascii.eqb c slash then [] else c :: upto_slash l'
  end.

(** Lines 17-37: from the end of the string to the left up to the first
    '/'; what follows it, the whole string when there is none. *)
Definition basename (path : list ascii) : list ascii :=
  rev (upto_slash (rev path)).

Definition same (a b : list ascii) : bool :=
  if list_eq_dec Ascii.ascii_dec a b then true else false.

(** Lines 94-96: the name field as a C string. *)
Definition entry_name (field : list ascii) : list ascii :=
  cstr (firstn DIRSIZ field).

Definition text (s : string) : list ascii := list_ascii_of_string s.

(** Lines 39-120. *)
Fixpoint find (path target : list ascii) (n : node) : list event :=
  match n with
  | NoOpen => [Open path false; Stderr (text "find: cannot open " ++ path)]
  | NoStat => [Open path true; Stderr (text "find: cannot stat " ++ path); Close]
  | File =>
      Open path true ::
      (if same (basename path) target then [Stdout path] else []) ++ [Close]
  | Dir entries =>
      if Nat.ltb BUFSZ (List.length path + 1 + DIRSIZ + 1)
      then [Open path true; Stderr (text "find: path too long"); Close]
      else
        Open path true ::
        flat_map (fun e =>
                    match e with
                    | (inum, field, sub) =>
                        if Nat.eqb inum 0 then []
                        else if same (entry_name field) [dot] ||
                                same (entry_name field) [dot; dot] then []
                        else find (path ++ slash :: entry_name field) target sub
                    end) entries
        ++ [Close]
  | Device => [Open path true; Close]
  end.

(** Lines 122-133; the exit status and what was done. *)
Definition main (argv : list (list ascii)) (root : node) : Z * list event :=
  match argv with
  | [_; start; target] => (0%Z, find start target root)
  | _ => (1%Z, [Stderr (text "usage: find <start-path> <target-name>")])
  end.

(** ** What the theorems speak of *)

(** One entry of the loop of lines 83-110. *)
Definition visit (path target : list ascii) (e : nat * list ascii * node) : list event :=
  match e with
  | (inum, field, sub) =>
      if Nat.eqb inum 0 then []
      else if same (entry_name field) [dot] || same (entry_name field) [dot; dot] then []
      else find (path ++ slash :: entry_name field) target sub
  end.

(** [p] is the path of a file below [path]: reached through directories
    whose path leaves room in the buffer, by entries in use whose name is
    neither "." nor "..". *)
Inductive file_at : list ascii -> node -> list ascii -> Prop :=
| at_file path : file_at path File path
| at_entry path entries inum field sub p :
    List.length path + 1 + DIRSIZ + 1 <= BUFSZ ->
    In (inum, field, sub) entries ->
    inum <> 0 -> entry_name field <> [dot] -> entry_name field <> [dot; dot] ->
    file_at (path ++ slash :: entry_name field) sub p ->
    file_at path (Dir entries) p.

(** The number of descriptors open after the events [l], starting from [n]
    open ones; [None] when a descriptor is closed that is not open. *)
Fixpoint descriptors (n : nat) (l : list event) : option nat :=
  match l with
  | [] => Some n
  | Open _ true :: l' => descriptors (S n) l'
  | Close :: l' => match n with O => None | S n' => descriptors n' l' end
  | _ :: l' => descriptors n l'
  end.

(** The most descriptors open at a time during [l], starting from [n]. *)
Fixpoint peak (n : nat) (l : list event) : nat :=
  match l with
  | [] => n
  | Open _ true :: l' => Nat.max n (peak (S n) l')
  | Close :: l' => Nat.max n (peak (Nat.pred n) l')
  | _ :: l' => peak n l'
  end.

(** The longest chain of nodes opened inside each other. *)
Fixpoint height (n : node) : nat :=
  match n with
  | NoOpen => 0
  | Dir entries =>
      S (fold_right (fun e m => match e with (_, _, sub) => Nat.max (height sub) m end) 0 entries)
  | _ => 1
  end.

(** A small tree: a directory with an unused slot, ".", "..", a file "b",
    a directory "d" with a file "b" and a file "c", and a name that cannot
    be opened. *)
Definition pad (s : string) : list ascii :=
  text s ++ repeat NUL (DIRSIZ - String.length s).

Definition demo : node :=
  Dir [ (0, pad "gone", File);
        (1, pad ".", Dir []);
        (1, pad "..", Dir []);
        (2, pad "b", File);
        (3, pad "d", Dir [ (3, pad ".", Dir []); (1, pad "..", Dir []);
                           (4, pad "b", File); (5, pad "c", File) ]);
        (6, pad "x", NoOpen) ].

End Find.

(** * The process table and the descriptor counts *)

Lemma upd_same (A : Type) (f : nat -> A) k v : upd f k v k = v.
Proof. unfold upd. now rewrite Nat.eqb_refl. Qed.

Lemma upd_other (A : Type) (f : nat -> A) k v i : i <> k -> upd f k v i = f i.
Proof. unfold upd. intros H. apply Nat.eqb_neq in H. now rewrite H. Qed.

Lemma sumn_ext n f g : (forall i, i < n -> f i = g i) -> sumn n f = sumn n g.
Proof.
  induction n as [|n IH]; simpl; intros H; [reflexivity|].
  rewrite IH, H; auto.
Qed.

Lemma sumn_zero n f : (forall i, i < n -> f i = 0) -> sumn n f = 0.
Proof.
  induction n as [|n IH]; simpl; intros H; [reflexivity|].
  rewrite IH, H; auto.
Qed.

(** Changing one summand. *)
Lemma sumn_upd (A : Type) n (F : A -> nat) (f : nat -> A) k v :
  k < n ->
  sumn n (fun i => F (upd f k v i)) + F (f k) = sumn n (fun i => F (f i)) + F v.
Proof.
  induction n as [|n IH]; intros Hk; [lia|]. simpl.
  destruct (Nat.eq_dec k n) as [->|Hne].
  - rewrite upd_same.
    rewrite (sumn_ext n (fun i => F (upd f n v i)) (fun i => F (f i))); [lia|].
    intros i Hi. rewrite upd_other; [reflexivity|lia].
  - rewrite (@upd_other A f k v n); [|lia].
    assert (k < n) as Hlt by lia. specialize (IH Hlt). lia.
Qed.

Lemma sumn_upd_out (A : Type) n (F : A -> nat) (f : nat -> A) k v :
  n <= k -> sumn n (fun i => F (upd f k v i)) = sumn n (fun i => F (f i)).
Proof.
  intros Hk. apply sumn_ext. intros i Hi. rewrite upd_other; [reflexivity|lia].
Qed.

Lemma sumn_ge n f k : k < n -> f k <= sumn n f.
Proof.
  induction n as [|n IH]; intros Hk; [lia|]. simpl.
  destruct (Nat.eq_dec k n) as [->|Hne]; [lia|].
  assert (k < n) as Hlt by lia. specialize (IH Hlt). lia.
Qed.

Lemma first_that_some f n i : first_that f n = Some i -> i < n /\ f i = true.
Proof.
  induction n as [|n IH]; simpl; [discriminate|].
  destruct (first_that f n) as [i0|].
  - intros H. injection H as ->. destruct (IH eq_refl). split; [lia|assumption].
  - destruct (f n) eqn:E; [|discriminate]. intros H. injection H as <-. split; [lia|assumption].
Qed.

Lemma first_that_none f n : first_that f n = None -> forall i, i < n -> f i = false.
Proof.
  induction n as [|n IH]; simpl; intros H i Hi; [lia|].
  destruct (first_that f n) as [i0|]; [discriminate|].
  destruct (f n) eqn:E; [discriminate|].
  destruct (Nat.eq_dec i n) as [->|Hne]; [assumption|]. apply IH; [reflexivity|lia].
Qed.

Lemma first_that_exists f n i : i < n -> f i = true -> exists j, first_that f n = Some j.
Proof.
  intros Hi Hf. destruct (first_that f n) as [j|] eqn:E; [eauto|].
  rewrite (first_that_none _ _ E i Hi) in Hf. discriminate.
Qed.

(** * The shape of the chain is kept by every step *)

Ltac fields :=
  unfold close_r, close_w, dup_r, dup_w, spawn, sys_pipe,
         sys_printf, sys_fprintf2, set_pc, set_pipe in *;
  cbn [nproc procs parent npipe pipes printed errs taken buf rd wr] in *.

(** Case analysis on which call a step executed and how it came out. *)
Ltac step_inv H :=
  unfold step in H;
  match type of H with
  | context [procs ?st ?k] => destruct (procs st k) eqn:Epc
  end; try discriminate H;
  repeat match type of H with
  | context [sys_read ?st ?l] =>
      unfold sys_read in H;
      destruct (buf (pipes st l)) eqn:Ebuf;
      [destruct (Nat.eqb (wr (pipes st l)) 0) eqn:Ewr|]
  | context [sys_write ?c ?st ?l ?v] =>
      unfold sys_write in H;
      destruct (Nat.eqb (rd (pipes st l)) 0) eqn:Erd;
      [|destruct (Nat.ltb (List.length (buf (pipes st l))) c) eqn:Ecap]
  | context [sys_wait ?st ?k] => destruct (sys_wait st k) eqn:Ewait
  | context [if ?f then _ else _] => destruct f eqn:?
  | context [feed_loop _ _ _] => unfold feed_loop in H
  end; try discriminate H;
  injection H; clear H; intro H; subst.

Ltac eqn_cases :=
  unfold eqn, upd in *;
  repeat match goal with
  | |- context [Nat.eqb ?a ?b] => destruct (Nat.eqb_spec a b)
  | H : context [Nat.eqb ?a ?b] |- _ => destruct (Nat.eqb_spec a b)
  end.

Section Inv.
Variable hi : Z.
Variable cap : nat.

Lemma wait_cases st k st1 :
  chain_ok st -> sys_wait st k = Some st1 ->
  (st1 = st /\ (S k < nproc st -> exists s, procs st (S k) = Reaped s)) \/
  exists s, S k < nproc st /\ procs st (S k) = Zombie s /\ st1 = set_pc st (S k) (Reaped s).
Proof.
  intros C. unfold sys_wait.
  destruct (first_that _ (nproc st)) as [c|] eqn:E1.
  - apply first_that_some in E1. destruct E1 as [Hc Hz].
    apply andb_prop in Hz. destruct Hz as [Hp Hz].
    unfold child_of in Hp. destruct c as [|c].
    + rewrite (ck_root C) in Hp. discriminate.
    + rewrite (ck_parent C) in Hp by assumption. apply Nat.eqb_eq in Hp. subst c.
      intros H; injection H; clear H; intros <-. right.
      unfold reap. destruct (procs st (S k)) eqn:E; try discriminate. eauto.
  - destruct (first_that (fun c => child_of st k c && is_live (procs st c)) (nproc st)) eqn:E2;
      [discriminate|].
    intros H; injection H; clear H; intros <-. left. split; [reflexivity|].
    intros Hc.
    pose proof (first_that_none _ _ E1 (S k) Hc) as Z1.
    pose proof (first_that_none _ _ E2 (S k) Hc) as Z2.
    pose proof (ck_shape C Hc) as Hs.
    cbv beta in Z1, Z2. unfold child_of in Z1, Z2.
    rewrite (ck_parent C Hc), Nat.eqb_refl in Z1, Z2. simpl in Z1, Z2.
    destruct (procs st (S k)); simpl in *; try discriminate; try contradiction. eauto.
Qed.

Lemma chain_ok_boot argc argv : chain_ok (boot argc argv).
Proof.
  constructor; simpl; try lia; try reflexivity; intros k Hk.
  all: try (assert (k = 0) as -> by lia; simpl).
  all: try (unfold upd; destruct (Nat.eqb_spec k 0); [lia|reflexivity]).
  all: try lia; try discriminate; try reflexivity; intros; auto.
Qed.

Lemma sum_set_pc (h : pc -> nat -> nat) n (ps : nat -> pc) k c j :
  k < n ->
  sumn n (fun i => h (upd ps k c i) j) + h (ps k) j = sumn n (fun i => h (ps i) j) + h c j.
Proof. intros Hk. exact (sumn_upd pc n (fun c => h c j) ps k c Hk). Qed.

(** A step that changes the program point of one process and adjusts the
    descriptor counts accordingly. *)
Lemma chain_ok_local st k c pipes' pr er :
  chain_ok st -> k < nproc st -> shape k c ->
  (will_pipe c = true -> nproc st = S k /\ npipe st = k) ->
  (at_fork c = true -> nproc st = S k /\ npipe st = S k) ->
  (childless c = true -> nproc st = S k) ->
  (has_child c = true -> S k < nproc st) ->
  (forall j, npipe st <= j -> pipes' j = no_pipe) ->
  (forall j, rd (pipes' j) + holds_r (procs st k) j = rd (pipes st j) + holds_r c j) ->
  (forall j, wr (pipes' j) + holds_w (procs st k) j = wr (pipes st j) + holds_w c j) ->
  chain_ok (mkState (nproc st) (upd (procs st) k c) (parent st) (npipe st) pipes' pr er).
Proof.
  intros C Hk Hs Hl Hf Hal Hch Hn Hr Hw.
  constructor; cbn [nproc procs parent npipe pipes printed errs].
  - exact (ck_nproc C).
  - exact (ck_npipe C).
  - intros i Hi. rewrite upd_other by lia. exact (ck_unused C Hi).
  - exact Hn.
  - intros i Hi. destruct (Nat.eq_dec i k) as [->|Hne].
    + now rewrite upd_same.
    + rewrite upd_other by assumption. exact (ck_shape C Hi).
  - intros i Hi. destruct (Nat.eq_dec i k) as [->|Hne].
    + now rewrite upd_same.
    + rewrite upd_other by assumption. exact (ck_last C Hi).
  - intros i Hi. destruct (Nat.eq_dec i k) as [->|Hne].
    + now rewrite upd_same.
    + rewrite upd_other by assumption. exact (ck_fork C Hi).
  - intros j. pose proof (sum_set_pc holds_r (nproc st) (procs st) k c j Hk).
    pose proof (ck_rd C j). pose proof (Hr j). lia.
  - intros j. pose proof (sum_set_pc holds_w (nproc st) (procs st) k c j Hk).
    pose proof (ck_wr C j). pose proof (Hw j). lia.
  - intros i Hi. destruct (Nat.eq_dec i k) as [->|Hne].
    + now rewrite upd_same.
    + rewrite upd_other by assumption. exact (ck_alone C Hi).
  - intros i Hi. destruct (Nat.eq_dec i k) as [->|Hne].
    + now rewrite upd_same.
    + rewrite upd_other by assumption. exact (ck_child C Hi).
  - exact (ck_root C).
  - exact (ck_parent C).
Qed.

(** A successful [pipe] call by the last process of the chain. *)
Lemma chain_ok_pipe st k c :
  chain_ok st -> k < nproc st -> will_pipe (procs st k) = true ->
  shape k c -> at_fork c = true ->
  (forall j, holds_r c j = holds_r (procs st k) j + eqn (npipe st) j) ->
  (forall j, holds_w c j = holds_w (procs st k) j + eqn (npipe st) j) ->
  chain_ok (set_pc (sys_pipe st) k c).
Proof.
  intros C Hk Hwp Hs Hf Hr Hw.
  destruct (ck_last C Hk Hwp) as [Hn Hp].
  assert (will_pipe c = false) as Hnw by (destruct c; simpl in *; congruence).
  constructor; fields.
  - exact (ck_nproc C).
  - lia.
  - intros i Hi. rewrite upd_other by lia. exact (ck_unused C Hi).
  - intros j Hj. rewrite upd_other by lia. apply (ck_nopipe C). lia.
  - intros i Hi. destruct (Nat.eq_dec i k) as [->|Hne].
    + now rewrite upd_same.
    + rewrite upd_other by assumption. exact (ck_shape C Hi).
  - intros i Hi. destruct (Nat.eq_dec i k) as [->|Hne].
    + rewrite upd_same. congruence.
    + rewrite upd_other by assumption. intros X. destruct (ck_last C Hi X). lia.
  - intros i Hi. destruct (Nat.eq_dec i k) as [->|Hne].
    + rewrite upd_same. intros _. lia.
    + rewrite upd_other by assumption. intros X. destruct (ck_fork C Hi X). lia.
  - intros j. pose proof (sum_set_pc holds_r (nproc st) (procs st) k c j Hk).
    pose proof (ck_rd C j). pose proof (Hr j).
    destruct (Nat.eq_dec j (npipe st)) as [->|Hne].
    + rewrite upd_same. rewrite (ck_nopipe C (Nat.le_refl _)) in *. simpl in *.
      unfold eqn in *. rewrite Nat.eqb_refl in *. lia.
    + rewrite upd_other by assumption. unfold eqn in *.
      destruct (Nat.eqb_spec (npipe st) j); [congruence|]. lia.
  - intros j. pose proof (sum_set_pc holds_w (nproc st) (procs st) k c j Hk).
    pose proof (ck_wr C j). pose proof (Hw j).
    destruct (Nat.eq_dec j (npipe st)) as [->|Hne].
    + rewrite upd_same. rewrite (ck_nopipe C (Nat.le_refl _)) in *. simpl in *.
      unfold eqn in *. rewrite Nat.eqb_refl in *. lia.
    + rewrite upd_other by assumption. unfold eqn in *.
      destruct (Nat.eqb_spec (npipe st) j); [congruence|]. lia.
  - intros i Hi. destruct (Nat.eq_dec i k) as [->|Hne].
    + intros _. assumption.
    + rewrite upd_other by assumption. exact (ck_alone C Hi).
  - intros i Hi. destruct (Nat.eq_dec i k) as [->|Hne].
    + rewrite upd_same. destruct c; simpl in *; congruence.
    + rewrite upd_other by assumption. exact (ck_child C Hi).
  - exact (ck_root C).
  - exact (ck_parent C).
Qed.

(** A successful [fork] call by the last process of the chain: [c] is where
    the parent continues, [cc] where the child starts, [pipes'] the pipe
    table with the inherited descriptors counted. *)
Lemma chain_ok_fork st k c cc pipes' :
  chain_ok st -> k < nproc st -> at_fork (procs st k) = true ->
  shape k c -> shape (S k) cc ->
  will_pipe c = false -> at_fork c = false -> childless c = false ->
  will_pipe cc = true ->
  (forall j, npipe st <= j -> pipes' j = no_pipe) ->
  (forall j, rd (pipes' j) + holds_r (procs st k) j
             = rd (pipes st j) + holds_r c j + holds_r cc j) ->
  (forall j, wr (pipes' j) + holds_w (procs st k) j
             = wr (pipes st j) + holds_w c j + holds_w cc j) ->
  chain_ok (mkState (S (nproc st)) (upd (upd (procs st) (nproc st) cc) k c)
                    (upd (parent st) (nproc st) (Some k))
                    (npipe st) pipes' (printed st) (errs st)).
Proof.
  intros C Hk Haf Hs Hsc Hnw Hnf Hncl Hcw Hn Hr Hw.
  destruct (ck_fork C Hk Haf) as [Hnp Hpp].
  assert (at_fork cc = false) as Hcf by (destruct cc; simpl in *; congruence).
  assert (forall (h : pc -> nat -> nat) (j : nat),
    sumn (S (nproc st)) (fun i => h (upd (upd (procs st) (nproc st) cc) k c i) j)
    + h (procs st k) j = sumn (nproc st) (fun i => h (procs st i) j) + h c j + h cc j) as Hsum.
  { intros h j. simpl. rewrite upd_other by lia. rewrite upd_same.
    pose proof (sum_set_pc h (nproc st) (upd (procs st) (nproc st) cc) k c j Hk) as E.
    rewrite (upd_other _ (procs st)) in E by lia.
    rewrite (sumn_ext (nproc st) (fun i => h (upd (procs st) (nproc st) cc i) j)
                      (fun i => h (procs st i) j)) in E.
    - lia.
    - intros i Hi. rewrite upd_other by lia. reflexivity. }
  constructor; cbn [nproc procs parent npipe pipes printed errs].
  - lia.
  - lia.
  - intros i Hi. rewrite !upd_other by lia. apply (ck_unused C). lia.
  - exact Hn.
  - intros i Hi. destruct (Nat.eq_dec i k) as [->|Hne].
    + now rewrite upd_same.
    + rewrite upd_other by assumption. destruct (Nat.eq_dec i (nproc st)) as [->|Hne2].
      * rewrite upd_same. now rewrite Hnp.
      * rewrite upd_other by assumption. apply (ck_shape C). lia.
  - intros i Hi. destruct (Nat.eq_dec i k) as [->|Hne].
    + rewrite upd_same. congruence.
    + rewrite upd_other by assumption. destruct (Nat.eq_dec i (nproc st)) as [->|Hne2].
      * intros _. lia.
      * rewrite upd_other by assumption. intros X.
        assert (i < nproc st) as Hi' by lia. destruct (ck_last C Hi' X). lia.
  - intros i Hi. destruct (Nat.eq_dec i k) as [->|Hne].
    + rewrite upd_same. congruence.
    + rewrite upd_other by assumption. destruct (Nat.eq_dec i (nproc st)) as [->|Hne2].
      * rewrite upd_same. congruence.
      * rewrite upd_other by assumption. intros X.
        assert (i < nproc st) as Hi' by lia. destruct (ck_fork C Hi' X). lia.
  - intros j. pose proof (Hsum holds_r j). pose proof (ck_rd C j). pose proof (Hr j). lia.
  - intros j. pose proof (Hsum holds_w j). pose proof (ck_wr C j). pose proof (Hw j). lia.
  - intros i Hi. destruct (Nat.eq_dec i k) as [->|Hne].
    + rewrite upd_same. congruence.
    + rewrite upd_other by assumption. destruct (Nat.eq_dec i (nproc st)) as [->|Hne2].
      * intros _. reflexivity.
      * rewrite upd_other by assumption. intros X.
        assert (i < nproc st) as Hi' by lia. pose proof (ck_alone C Hi' X). lia.
  - intros i Hi. destruct (Nat.eq_dec i k) as [->|Hne].
    + intros _. lia.
    + rewrite upd_other by assumption. destruct (Nat.eq_dec i (nproc st)) as [->|Hne2].
      * rewrite upd_same. destruct cc; simpl in *; congruence.
      * rewrite upd_other by assumption. intros X.
        assert (i < nproc st) as Hi' by lia. pose proof (ck_child C Hi' X). lia.
  - rewrite upd_other by lia. exact (ck_root C).
  - intros i Hi. destruct (Nat.eq_dec (S i) (nproc st)) as [E|Hne].
    + rewrite E, upd_same. f_equal. lia.
    + rewrite upd_other by assumption. apply (ck_parent C). lia.
Qed.

Lemma held_r_le st k j :
  chain_ok st -> k < nproc st -> holds_r (procs st k) j <= rd (pipes st j).
Proof.
  intros C Hk. rewrite (ck_rd C j).
  exact (sumn_ge (nproc st) (fun i => holds_r (procs st i) j) k Hk).
Qed.

Lemma held_w_le st k j :
  chain_ok st -> k < nproc st -> holds_w (procs st k) j <= wr (pipes st j).
Proof.
  intros C Hk. rewrite (ck_wr C j).
  exact (sumn_ge (nproc st) (fun i => holds_w (procs st i) j) k Hk).
Qed.

Lemma held_lt st k j :
  chain_ok st -> k < nproc st ->
  0 < holds_r (procs st k) j + holds_w (procs st k) j -> j < npipe st.
Proof.
  intros C Hk H.
  destruct (Nat.lt_ge_cases j (npipe st)) as [?|Hge]; [assumption|].
  pose proof (held_r_le st k j C Hk). pose proof (held_w_le st k j C Hk).
  rewrite (ck_nopipe C Hge) in *. simpl in *. lia.
Qed.

Lemma chain_ok_reap st c s :
  chain_ok st -> c < nproc st -> 1 <= c -> procs st c = Zombie s ->
  chain_ok (set_pc st c (Reaped s)).
Proof.
  intros C Hc H1 E. unfold set_pc.
  apply chain_ok_local; try assumption; rewrite ?E; simpl; try discriminate; auto.
  apply (ck_nopipe C).
Qed.

Lemma chain_ok_step st k f st' :
  chain_ok st -> step hi cap st k f = Some st' -> chain_ok st'.
Proof.
  intros C H.
  assert (k < nproc st) as Hk.
  { destruct (Nat.lt_ge_cases k (nproc st)) as [?|Hge]; [assumption|].
    unfold step in H. rewrite (ck_unused C Hge) in H. discriminate. }
  pose proof (ck_shape C Hk) as Hsh.
  pose proof (ck_last C Hk) as Hlast.
  pose proof (ck_fork C Hk) as Hfork.
  pose proof (ck_child C Hk) as Hchild.
  pose proof (ck_alone C Hk) as Halone.
  pose proof (fun j => held_r_le st k j C Hk) as Hre.
  pose proof (fun j => held_w_le st k j C Hk) as Hwe.
  pose proof (fun j => held_lt st k j C Hk) as Hlt.
  step_inv H; simpl in Hsh, Hlast, Hfork, Hchild, Halone, Hre, Hwe, Hlt.
  all: try (apply (wait_cases _ _ _ C) in Ewait;
            destruct Ewait as [[-> Hs0]|(s0 & Hs1 & Hs2 & ->)]).
  all: fields.
  all: first
    [ apply chain_ok_pipe; rewrite ?Epc
    | apply chain_ok_fork; rewrite ?Epc
    | apply chain_ok_local; rewrite ?Epc
    | idtac ].
  all: try assumption; try reflexivity.
  all: try solve [simpl; intuition (try lia; try discriminate)].
  all: try solve [intros j Hj; pose proof (Hlt j); eqn_cases; subst; simpl in *;
                  try lia; apply (ck_nopipe C); lia].
  all: try solve [intros j; pose proof (Hre j); pose proof (Hwe j); simpl;
                  eqn_cases; subst; simpl in *; lia].
  pose proof (chain_ok_reap st (S k) s0 C Hs1 (le_n_S _ _ (Nat.le_0_l k)) Hs2) as C1.
  apply (chain_ok_local (set_pc st (S k) (Reaped s0)) k (X_exit 0)); try assumption;
    fields; rewrite ?upd_other by lia; rewrite ?Epc; simpl; try discriminate; auto.
  apply (ck_nopipe C).
Qed.
End Inv.

(** * Lists *)

Lemma subseq_refl l : subseq l l.
Proof. induction l; [apply subseq_nil|apply subseq_keep; assumption]. Qed.

Lemma subseq_nil_l l : subseq [] l.
Proof. induction l; constructor; assumption. Qed.

Lemma subseq_app a b c d : subseq a b -> subseq c d -> subseq (a ++ c) (b ++ d).
Proof.
  intros H. induction H; simpl; intros Hc.
  - assumption.
  - apply subseq_skip. auto.
  - apply subseq_keep. auto.
Qed.

Lemma subseq_snoc a b x : subseq a b -> subseq (a ++ [x]) (b ++ [x]).
Proof. intros H. apply subseq_app; [assumption|apply subseq_refl]. Qed.

Lemma subseq_drop_last a v b : subseq (a ++ [v]) b -> subseq a b.
Proof.
  remember (a ++ [v]) as l eqn:E. intros H. revert a E.
  induction H as [|x l1 l2 H IH|x l1 l2 H IH]; intros a E.
  - destruct a; discriminate.
  - apply subseq_skip. eapply IH; eassumption.
  - destruct a as [|y a]; simpl in E.
    + apply subseq_nil_l.
    + injection E; clear E; intros E1 E2; subst. apply subseq_keep. eapply IH; reflexivity.
Qed.

Lemma subseq_trans a b c : subseq a b -> subseq b c -> subseq a c.
Proof.
  intros Hab Hbc. revert a Hab.
  induction Hbc as [|x l1 l2 H IH|x l1 l2 H IH]; intros a Hab.
  - assumption.
  - apply subseq_skip. auto.
  - inversion Hab; subst.
    + apply subseq_skip. auto.
    + apply subseq_keep. auto.
Qed.

Lemma subseq_In a b x : subseq a b -> In x a -> In x b.
Proof.
  intros H. induction H; simpl; intros Hin; auto.
  destruct Hin; auto.
Qed.

Lemma subseq_filter f l : subseq (filter f l) l.
Proof.
  induction l as [|x l IH]; simpl; [constructor|].
  destruct (f x); [apply subseq_keep|apply subseq_skip]; assumption.
Qed.

Lemma subseq_app_l a b : subseq a (a ++ b).
Proof.
  rewrite <- (app_nil_r a) at 1. apply subseq_app; [apply subseq_refl|apply subseq_nil_l].
Qed.

Lemma subseq_length a b : subseq a b -> List.length a <= List.length b.
Proof. intros H. induction H; simpl; lia. Qed.

Lemma subseq_increasing a b : subseq a b -> increasing b -> increasing a.
Proof.
  unfold increasing. intros H. induction H; intros Hs.
  - constructor.
  - inversion Hs; subst. auto.
  - inversion Hs; subst. constructor; [auto|].
    rewrite Forall_forall in *. intros y Hy. eauto using subseq_In.
Qed.

Lemma zcount_app lo n m :
  zcount lo (n + m) = zcount lo n ++ zcount (lo + Z.of_nat n) m.
Proof.
  revert lo. induction n as [|n IH]; intros lo; simpl.
  - f_equal. lia.
  - rewrite IH. do 3 f_equal. lia.
Qed.

Lemma zcount_In lo n x : In x (zcount lo n) <-> (lo <= x < lo + Z.of_nat n)%Z.
Proof.
  revert lo. induction n as [|n IH]; intros lo; simpl.
  - lia.
  - rewrite IH. lia.
Qed.

Lemma zcount_increasing lo n : increasing (zcount lo n).
Proof.
  revert lo. induction n as [|n IH]; intros lo; simpl; constructor.
  - apply IH.
  - rewrite Forall_forall. intros x Hx. apply zcount_In in Hx. lia.
Qed.

Lemma zrange_cons lo hi : (lo <= hi)%Z -> zrange lo hi = lo :: zrange (lo + 1) hi.
Proof.
  intros H. unfold zrange.
  replace (Z.to_nat (hi - lo + 1)) with (S (Z.to_nat (hi - (lo + 1) + 1))) by lia.
  reflexivity.
Qed.

Lemma zrange_nil lo hi : (hi < lo)%Z -> zrange lo hi = [].
Proof.
  intros H. unfold zrange. replace (Z.to_nat (hi - lo + 1)) with 0 by lia. reflexivity.
Qed.

Lemma zrange_In lo hi x : In x (zrange lo hi) <-> (lo <= x <= hi)%Z.
Proof. unfold zrange. rewrite zcount_In. lia. Qed.

Lemma zrange_increasing lo hi : increasing (zrange lo hi).
Proof. apply zcount_increasing. Qed.

Lemma zrange_length lo hi : List.length (zrange lo hi) = Z.to_nat (hi - lo + 1).
Proof.
  unfold zrange. generalize (Z.to_nat (hi - lo + 1)) as n. intros n. revert lo.
  induction n; intros lo; simpl; auto.
Qed.

(** * The flow of numbers is kept by every step *)

Lemma plog_read q x b :
  buf q = x :: b -> plog (mkPipe (taken q ++ [x]) b (rd q) (wr q)) = plog q.
Proof. intros E. unfold plog. simpl. rewrite E, <- app_assoc. reflexivity. Qed.

Lemma plog_write q v :
  plog (mkPipe (taken q) (buf q ++ [v]) (rd q) (wr q)) = plog q ++ [v].
Proof. unfold plog. simpl. now rewrite app_assoc. Qed.

Lemma plog_counts q a b : plog (mkPipe (taken q) (buf q) a b) = plog q.
Proof. reflexivity. Qed.

Lemma step_lt hi cap st k f st' :
  chain_ok st -> step hi cap st k f = Some st' -> k < nproc st.
Proof.
  intros C H. destruct (Nat.lt_ge_cases k (nproc st)) as [?|Hge]; [assumption|].
  unfold step in H. rewrite (ck_unused C Hge) in H. discriminate.
Qed.

Ltac zleb :=
  repeat match goal with
  | H : (_ <=? _)%Z = true |- _ => apply Z.leb_le in H
  | H : (_ <=? _)%Z = false |- _ => apply Z.leb_gt in H
  end.

Lemma feed_write_more hi i log :
  log ++ zrange i hi = zrange 2 hi -> (i <= hi)%Z ->
  (log ++ [i]) ++ zrange (i + 1) hi = zrange 2 hi.
Proof.
  intros H Hi. rewrite <- app_assoc. simpl. rewrite <- zrange_cons by assumption. exact H.
Qed.

Lemma feed_write_last hi i log :
  log ++ zrange i hi = zrange 2 hi -> (i <= hi)%Z -> (hi < i + 1)%Z ->
  log ++ [i] = zrange 2 hi.
Proof.
  intros H Hi Hl. rewrite zrange_cons in H by assumption.
  rewrite (zrange_nil (i + 1) hi) in H by assumption. exact H.
Qed.

(** The standard opening of a proof that a step keeps an invariant: the
    facts about the process that runs, then one case for each call and
    outcome. *)
Ltac step_start C H :=
  pose proof (step_lt _ _ _ _ _ _ C H) as Hk;
  pose proof (ck_shape C Hk) as Hsh;
  pose proof (ck_last C Hk) as Hlast;
  pose proof (ck_fork C Hk) as Hfork;
  pose proof (ck_child C Hk) as Hchild;
  pose proof (ck_alone C Hk) as Halone;
  step_inv H; simpl in Hsh, Hlast, Hfork, Hchild, Halone;
  try match goal with
      | Ew : sys_wait _ _ = Some _ |- _ =>
          apply (wait_cases _ _ _ C) in Ew;
          destruct Ew as [[-> Hs0]|(s0 & Hs1 & Hs2 & ->)]
      end;
  fields.

Ltac succ_inj :=
  repeat match goal with e : S _ = S _ |- _ => apply Nat.succ_inj in e end; subst.

Section Flow.
Variable hi : Z.
Variable cap : nat.
Variable R : list Z -> list Z -> Prop.
Hypothesis R_nil : R [] [].
Hypothesis R_snoc : forall a b x, R a b -> R (a ++ [x]) (b ++ [x]).

Lemma flow_step st k f st' :
  chain_ok st -> flow_ok hi R st -> step hi cap st k f = Some st' ->
  (forall a v b, R (a ++ [v]) b -> R a b) \/ drop_pc (procs st' k) = false ->
  flow_ok hi R st'.
Proof.
  intros C F H Hdrop.
  pose proof (step_lt _ _ _ _ _ _ C H) as Hk.
  pose proof (ck_shape C Hk) as Hsh.
  pose proof (ck_last C Hk) as Hlast.
  pose proof (ck_fork C Hk) as Hfork.
  pose proof (ck_child C Hk) as Hchild.
  pose proof (fl_feed F) as Hfeed.
  step_inv H; simpl in Hsh, Hlast, Hfork, Hchild.
  all: try (apply (wait_cases _ _ _ C) in Ewait;
            destruct Ewait as [[-> Hs0]|(s0 & Hs1 & Hs2 & ->)]).
  all: fields.
  all: constructor; fields.
  (* nothing is written into a pipe that has no reader yet *)
  all: try match goal with
  | |- forall j, _ <= _ -> plog _ = [] =>
      intros j Hj; pose proof (@fl_empty _ _ _ F j) as He;
      try (pose proof (Hchild eq_refl));
      eqn_cases; subst; rewrite ?plog_counts, ?plog_write;
      try (erewrite plog_read by eassumption);
      solve [apply He; lia | lia | reflexivity]
  end.
  (* what main has written *)
  all: try match goal with
  | |- feed_ok _ _ _ =>
      rewrite ?upd_other by lia;
      try (destruct (Nat.eq_dec k 0) as [->|Hk0];
           [rewrite ?upd_same; rewrite ?Epc in *|rewrite ?upd_other by assumption]);
      eqn_cases; subst; rewrite ?plog_counts, ?plog_write;
      try (erewrite plog_read by eassumption);
      simpl in *; zleb;
      solve [ assumption
            | intuition (try lia; try discriminate; eauto)
            | rewrite Hfeed; split; [eexists; reflexivity | discriminate]
            | rewrite Hfeed; split; [reflexivity | lia]
            | rewrite zrange_nil by lia; assumption
            | destruct Hfeed; split; [apply feed_write_more; [assumption|lia] | lia]
            | destruct Hfeed; apply feed_write_last; [assumption | lia | lia]
            | split; [exists []; rewrite app_nil_r|intros _]; assumption ]
  end.
  (* the numbers that went through each process *)
  all: intros j; pose proof (fl_at F j) as Hj;
       try (pose proof (fl_at F leftfd) as Hfl);
       unfold flow_at in *; fields.
  all: try (pose proof (Hchild eq_refl)).
  all: eqn_cases; subst; try lia; cbn [taken buf rd wr] in *.
  all: repeat match goal with e : S _ = S _ |- _ => apply Nat.succ_inj in e end; subst.
  all: rewrite ?plog_counts, ?plog_write in *; try (erewrite plog_read in * by eassumption).
  all: try assumption.
  all: rewrite ?Epc in *; try rewrite Hs2 in *.
  all: try (destruct (Hlast eq_refl) as [Hl1 Hl2]; rewrite <- ?Hl2 in *;
            rewrite ?(@ck_nopipe _ C (npipe st) (Nat.le_refl _)) in *; rewrite ?Hl2 in *).
  all: try (rewrite (ck_unused C) in * by lia).
  all: repeat match goal with
       | |- context [taken (pipes ?s ?x)] => destruct (taken (pipes s x)) eqn:?
       | H : context [match taken (pipes ?s ?x) with _ => _ end] |- _ =>
           destruct (taken (pipes s x)) eqn:?
       end.
  all: simpl in *.
  all: try solve [intuition (try lia; try discriminate; try congruence)].
  all: repeat match goal with
       | H : _ /\ _ |- _ => destruct H
       | H : forall q, Some ?p = Some q -> q = _ |- _ => specialize (H p eq_refl); subst
       end.
  all: repeat split; try lia; try discriminate; try congruence; try assumption.
  all: rewrite ?filter_app, ?app_nil_r in *; simpl;
       try match goal with H : (Z.rem ?x ?p =? 0)%Z = ?b |- _ =>
         let E := fresh in
         assert (nondiv p x = negb b) as E by (unfold nondiv; rewrite H; reflexivity);
         rewrite E; simpl end;
       rewrite ?app_nil_r.
  all: try assumption.
  all: try solve [apply R_snoc; assumption].
  all: try solve [apply (R_snoc []); assumption].
  all: try solve [destruct Hdrop as [Hd|Hd]; [eapply Hd; eassumption | discriminate Hd]].
  all: solve [match goal with H : plog _ = [] |- _ => rewrite H; apply R_nil end].
Qed.

Lemma flow_ok_boot argc argv : flow_ok hi R (boot argc argv).
Proof.
  constructor; unfold flow_at; simpl; intros; try reflexivity.
  unfold upd. simpl. auto.
Qed.

End Flow.

(** * What has been printed, step by step *)

Lemma flow_prime hi R st j p :
  flow_ok hi R st -> prime_of (procs st (S j)) = Some p ->
  exists t, taken (pipes st j) = p :: t.
Proof.
  intros F Hp. pose proof (fl_at F j) as Hj. unfold flow_at in Hj.
  destruct (taken (pipes st j)) as [|q t].
  - destruct Hj as (_ & _ & Hn). congruence.
  - destruct Hj as (_ & Hq & _). rewrite (Hq p Hp). eauto.
Qed.

Lemma flow_unread hi R st j :
  flow_ok hi R st -> reads_first (procs st (S j)) = true -> taken (pipes st j) = [].
Proof.
  intros F Hp. pose proof (fl_at F j) as Hj. unfold flow_at in Hj.
  destruct (taken (pipes st j)) as [|q t]; [reflexivity|].
  destruct Hj as (_ & _ & Hr & _). congruence.
Qed.

Ltac split_hyps :=
  repeat match goal with H : _ /\ _ |- _ => destruct H end; subst.

(** The prime of the process that runs heads what it took from its pipe. *)
Ltac use_prime F :=
  try match goal with
  | E : procs ?st (S ?l) = ?c |- _ =>
      match eval simpl in (prime_of c) with
      | Some ?q =>
          let t := fresh "t" in let Ht := fresh "Ht" in
          destruct (flow_prime _ _ st l q F) as [t Ht]; [rewrite E; reflexivity|]
      end
  end.

Ltac use_unread F :=
  try match goal with
  | E : procs ?st (S ?l) = ?c |- _ =>
      match eval simpl in (reads_first c) with
      | true =>
          let Ht := fresh "Hu" in
          pose proof (flow_unread _ _ st l F) as Ht; rewrite E in Ht; specialize (Ht eq_refl)
      end
  end.

Section Printed.
Variable hi : Z.
Variable cap : nat.
Variable R : list Z -> list Z -> Prop.

Lemma printed_ok_boot argc argv : printed_ok (boot argc argv).
Proof.
  constructor; simpl; intros; try lia; auto.
  assert (k = 0) as -> by lia. discriminate.
Qed.

Lemma printed_step st k f st' :
  chain_ok st -> flow_ok hi R st -> printed_ok st ->
  step hi cap st k f = Some st' -> printed_ok st'.
Proof.
  intros C F P H.
  pose proof (@pr_last _ P k) as Plast.
  pose proof (pr_count P) as Pcount.
  step_start C H.
  all: simpl in Plast; split_hyps; use_prime F; use_unread F.
  all: constructor; fields.
  all: rewrite ?length_app; simpl List.length.
  (* pr_count *)
  all: try match goal with
  | |- _ <= _ <= _ =>
      try (specialize (Plast Hk eq_refl));
      try (destruct (Hfork eq_refl));
      try (pose proof (@pr_todo _ P leftfd) as Pt; rewrite ?Epc, ?Ht in Pt);
      solve [ lia
            | destruct (Nat.le_gt_cases (List.length (printed st)) leftfd) as [Hle|Hgt];
              [destruct (Pt Hle) as [?|[_ (? & ? & ?)]]; discriminate | lia] ]
  end.
  (* pr_last *)
  all: try match goal with
  | |- forall k0, k0 < _ -> unprinted _ = true -> k0 = _ =>
      let k0 := fresh "k0" in let Hk0 := fresh "Hk0" in let Hu := fresh "Hu" in
      intros k0 Hk0 Hu; pose proof (@pr_last _ P k0) as Pl0;
      try (specialize (Plast Hk eq_refl));
      try (destruct (Hfork eq_refl));
      try (pose proof (@pr_todo _ P leftfd) as Pt; rewrite ?Epc, ?Ht in Pt);
      eqn_cases; subst; simpl in Hu; try discriminate Hu;
      try (rewrite (ck_unused C) in Hu by lia; discriminate Hu);
      solve [ lia | apply Pl0; [lia|assumption]
            | specialize (Pl0 ltac:(lia) Hu); lia
            | destruct (Nat.le_gt_cases (List.length (printed st)) leftfd) as [Hle|Hgt];
              [destruct (Pt Hle) as [?|[_ (? & ? & ?)]]; discriminate | lia] ]
  end.
  (* pr_done *)
  all: try match goal with
  | |- forall j, j < _ -> exists t, _ = _ :: t =>
      let j := fresh "j" in let Hj := fresh "Hj" in
      intros j Hj; pose proof (@pr_done _ P j) as Pd;
      try (specialize (Plast Hk eq_refl));
      try (destruct (Hlast eq_refl)); try (destruct (Hfork eq_refl));
      eqn_cases; subst; succ_inj; cbn [taken buf rd wr]; try lia;
      try (destruct (Nat.eq_dec j (List.length (printed st))) as [->|Hne];
           [rewrite nth_middle; eauto | rewrite app_nth1 by lia]);
      solve [ apply Pd; lia
            | destruct (Pd ltac:(lia)) as [t' Ht']; rewrite Ht'; simpl; eauto ]
  end.
  (* pr_todo *)
  all: intros j Hj; pose proof (@pr_todo _ P j) as Pt;
       try (specialize (Plast Hk eq_refl));
       try (destruct (Hlast eq_refl)); try (destruct (Hfork eq_refl));
       eqn_cases; subst; succ_inj; cbn [taken buf rd wr]; try lia;
       rewrite ?Epc in *.
  all: try solve [left; reflexivity].
  all: try solve [destruct (Pt ltac:(lia)) as [?|[? (? & ? & ?)]];
                  [left; assumption | try discriminate; try lia; right; eauto]].
  all: try solve [destruct (Pt ltac:(lia)) as [?|[? (? & ? & ?)]]; congruence].
  all: try solve [right; split; [lia|eauto]].
  all: solve [destruct (Pt ltac:(lia)) as [?|[? (? & ? & Hx)]];
              [left; assumption
              |rewrite ?Hs2 in Hx; try rewrite (ck_unused C) in Hx by lia; discriminate Hx]].
Qed.
End Printed.

(** * Waiting, and the first number of every pipe *)

Section Wait.
Variable hi : Z.
Variable cap : nat.

Lemma wait_ok_boot argc argv : wait_ok (boot argc argv).
Proof. intros k Hk. simpl in Hk. lia. Qed.

Lemma wait_step st k f st' :
  chain_ok st -> wait_ok st -> step hi cap st k f = Some st' -> wait_ok st'.
Proof.
  intros C W H.
  step_start C H.
  all: split_hyps.
  all: intros k0 Hk0 Hj; fields; pose proof (W k0) as W0;
       try (pose proof (W (S k)) as W1; rewrite ?Hs2 in W1; simpl in W1).
  all: try (destruct (Hfork eq_refl)); try (pose proof (Halone eq_refl)).
  all: eqn_cases; subst; succ_inj; simpl in Hj; try discriminate Hj; try lia.
  all: try solve [apply W0; [lia | rewrite ?Epc; simpl; assumption]].
  all: try solve [destruct W0 as [s1 Hs1']; [lia|assumption|congruence]].
  all: try solve [eauto].
  all: try solve [rewrite Epc in W0; simpl in W0; eauto].
  all: try solve [apply W1; [lia|reflexivity]].
Qed.
End Wait.

Lemma app_one_not_nil (A : Type) (l : list A) x : l ++ [x] <> [].
Proof. destruct l; discriminate. Qed.

(** A process about to write the first number into its pipe holds the
    write end; one that has not read yet holds the read end. *)
Lemma first_pending_holds st j :
  chain_ok st -> j < nproc st -> first_pending (procs st j) = true ->
  1 <= wr (pipes st j).
Proof.
  intros C Hj Hf. pose proof (held_w_le st j j C Hj) as Hw.
  pose proof (ck_shape C Hj) as Hs.
  destruct (procs st j); simpl in *; try discriminate; split_hyps;
    unfold eqn in *; rewrite ?Nat.eqb_refl in *; lia.
Qed.

Lemma reads_first_holds st j :
  chain_ok st -> S j < nproc st -> reads_first (procs st (S j)) = true ->
  1 <= rd (pipes st j).
Proof.
  intros C Hj Hf. pose proof (held_r_le st (S j) j C Hj) as Hw.
  pose proof (ck_shape C Hj) as Hs.
  destruct (procs st (S j)); simpl in *; try discriminate; split_hyps; succ_inj;
    unfold eqn in *; rewrite ?Nat.eqb_refl in *; try lia.
Qed.

Section First.
Variable hi : Z.
Variable cap : nat.
Variable R : list Z -> list Z -> Prop.
Hypothesis hi_ge : (2 <= hi)%Z.

Lemma first_ok_boot argc argv : first_ok (boot argc argv).
Proof.
  constructor; simpl; intros j Hj; try lia.
  assert (j = 0) as -> by lia. discriminate.
Qed.

Lemma first_step st k f st' :
  chain_ok st -> flow_ok hi R st -> first_ok st ->
  step hi cap st k f = Some st' -> first_ok st'.
Proof.
  intros C F A H.
  pose proof (fl_feed F) as Hfeed.
  step_start C H.
  all: split_hyps; use_prime F; use_unread F.
  all: zleb; try lia.
  all: constructor; fields.
  all: try match goal with
  | |- forall j, j < _ -> first_pending _ = true -> plog _ = [] =>
      let j := fresh "j" in let Hj := fresh "Hj" in let Hp := fresh "Hp" in
      intros j Hj Hp; pose proof (@fs_pending _ A j) as A0;
      pose proof (@fl_empty _ _ _ F j) as He;
      try (destruct (Hfork eq_refl));
      eqn_cases; subst; succ_inj; rewrite ?plog_counts, ?plog_write;
      try (erewrite plog_read by eassumption);
      simpl in Hp; try discriminate Hp; rewrite ?Epc in *; simpl in *;
      solve [ apply A0; [lia|assumption] | apply A0; [lia|reflexivity]
            | apply He; lia | rewrite (ck_unused C) in Hp by lia; discriminate Hp
            | apply Z.eqb_eq in Hp; lia ]
  end.
  all: intros j Hj Ht0; pose proof (@fs_unread _ A j) as A0;
       pose proof (first_pending_holds st j C) as Hfw;
       pose proof (reads_first_holds st j C) as Hfr;
       pose proof (@fl_empty _ _ _ F j) as He;
       try (destruct (Hfork eq_refl)); try (pose proof (Hchild eq_refl)).
  all: eqn_cases; subst; succ_inj; cbn [taken buf rd wr] in *; try lia.
  all: rewrite ?Epc in *; simpl reads_first in *; simpl first_pending in *.
  all: try solve [exfalso; eapply app_one_not_nil; eassumption].
  all: try congruence.
  all: try solve [apply A0; [lia|assumption]].
  all: try solve [destruct A0 as [Ha [Hb|Hb]]; [lia|assumption| |]; (split; [assumption|]);
                  solve [left; assumption | right; assumption | discriminate Hb
                        | left; apply app_one_not_nil
                        | left; congruence ]].
  all: try solve [destruct A0 as [Ha [Hb|Hb]]; [lia|assumption| |]; try discriminate;
                  try congruence;
                  solve [ specialize (Hfw ltac:(lia) Hb); apply Nat.eqb_eq in Ewr; lia
                        | specialize (Hfr ltac:(lia) Ha); apply Nat.eqb_eq in Erd; lia ]].
  all: try solve [split; [reflexivity | right; reflexivity]].
  all: try solve [unfold plog in *; simpl; first [apply A0 | apply He]; lia].
  all: try solve [destruct A0 as [Ha Hb]; [lia | assumption | ];
                  rewrite ?Hs2 in *; simpl in *; try discriminate;
                  try (specialize (Hfr ltac:(lia) Ha)); try lia;
                  destruct Hb as [Hb|Hb]; try discriminate;
                  try (specialize (Hfw ltac:(lia) Hb)); try lia;
                  split; auto].
  all: solve [unfold plog; simpl; apply (@fs_pending _ A); [lia | assumption]].
Qed.
End First.

(** * Steps of runs in which nothing goes wrong *)

Lemma clean_no_drop c : clean c = true -> drop_pc c = false.
Proof. destruct c; simpl; congruence. Qed.

Section Clean.
Variable hi : Z.
Variable cap : nat.

Lemma clean_ok_boot argc argv : clean_ok hi (boot argc argv).
Proof.
  constructor; simpl; intros; try lia; try reflexivity.
  - unfold upd. destruct (Nat.eqb k 0); reflexivity.
  - apply flow_ok_boot.
Qed.

(** While nothing has gone wrong, a process that still holds the write end
    of its pipe finds a reader on the other end. *)
Lemma clean_reader st k :
  chain_ok st -> clean_ok hi st -> S k < nproc st ->
  1 <= holds_w (procs st k) k -> 1 <= rd (pipes st k).
Proof.
  intros C L Hk Hw.
  pose proof (held_r_le st (S k) k C Hk) as Hr.
  pose proof (held_w_le st k k C (Nat.lt_succ_l _ _ Hk)) as Hw'.
  pose proof (ck_shape C Hk) as Hs.
  pose proof (cl_pcs L (S k)) as Hc.
  pose proof (@cl_drained _ _ L k Hk) as Hd.
  destruct (procs st (S k)); simpl in *; try discriminate; try contradiction;
    split_hyps; succ_inj; unfold eqn in *; rewrite ?Nat.eqb_refl in *; try lia.
  all: destruct (Hd eq_refl); lia.
Qed.

Lemma clean_step st k f st' :
  chain_ok st -> clean_ok hi st -> f = false ->
  step hi cap st k f = Some st' -> clean_ok hi st'.
Proof.
  intros C L Hf H.
  pose proof (cl_pcs L k) as Hcl.
  pose proof (fun Hs => clean_reader st k C L Hs) as Hrd.
  pose proof (fun j => held_w_le st k j C (step_lt _ _ _ _ _ _ C H)) as Hwe.
  (* no process gets onto an error path *)
  assert (forall k0, clean (procs st' k0) = true) as Hpcs.
  { pose proof H as H'. step_start C H'.
    all: try discriminate Hf; try discriminate Hcl.
    all: split_hyps.
    all: simpl in Hrd; unfold eqn in Hrd; rewrite ?Nat.eqb_refl in Hrd.
    all: try (specialize (Hrd (Hchild eq_refl) (Nat.le_refl _));
              apply Nat.eqb_eq in Erd; lia).
    all: intros k0; pose proof (cl_pcs L k0) as Hc0;
         eqn_cases; subst; simpl; rewrite ?Hs2 in *; simpl in *;
         solve [assumption | reflexivity]. }
  (* so nothing is given up *)
  assert (flow_ok hi eq st') as F'.
  { apply (flow_step hi cap eq eq_refl) with (st := st) (k := k) (f := f);
      try assumption.
    - intros a b x ->. reflexivity.
    - apply (cl_flow L).
    - right. apply clean_no_drop. apply Hpcs. }
  revert Hpcs F'.
  step_start C H.
  all: try discriminate Hf; try discriminate Hcl.
  all: split_hyps.
  all: intros Hpcs F'; constructor; fields; try assumption; try apply (cl_errs L).
  all: intros j Hj Hp; pose proof (@cl_drained _ _ L j) as D0;
       pose proof (Hwe j) as Hwk;
       pose proof (ck_npipe C) as Hnp;
       try (destruct (Hfork eq_refl)); try (destruct (Hlast eq_refl)).
  all: rewrite ?Epc in *; simpl in Hwk.
  all: eqn_cases; subst; succ_inj; cbn [taken buf rd wr] in *; try lia.
  all: rewrite ?Epc, ?Hs2 in *; simpl in Hp; try discriminate Hp.
  all: try (rewrite (ck_unused C) in Hp by lia; discriminate Hp).
  all: try solve [apply D0; [lia|assumption]].
  all: try solve [apply D0; [lia|reflexivity]].
  all: try solve [split; assumption].
  all: try solve [destruct D0 as [D1 D2]; [lia|first [assumption|reflexivity]|];
                  split; [lia | first [assumption|congruence]]].
  all: solve [exfalso; destruct D0 as [D1 D2]; [lia|assumption|lia]].
Qed.
End Clean.

(** * What the invariants say about the numbers in the pipes *)

Lemma feed_prefix hi st :
  chain_ok st -> flow_ok hi subseq st ->
  exists rest, plog (pipes st 0) ++ rest = zrange 2 hi.
Proof.
  intros C F. pose proof (fl_feed F) as H.
  pose proof (ck_shape C (ck_nproc C)) as Hs.
  destruct (procs st 0); simpl in *; try contradiction; split_hyps; try lia;
    try discriminate; eauto.
  all: try solve [exists (zrange 2 hi); rewrite H; reflexivity].
  all: try solve [exists []; rewrite app_nil_r; assumption].
  all: solve [destruct H as [H1 H2]; eauto].
Qed.

(** What a process has passed on is part of what it took, its prime and
    the multiples of its prime left out. *)
Lemma log_filtered hi st j p t :
  flow_ok hi subseq st -> taken (pipes st j) = p :: t ->
  subseq (plog (pipes st (S j))) (filter (nondiv p) t).
Proof.
  intros F E. pose proof (fl_at F j) as H. unfold flow_at in H. rewrite E in H.
  destruct H as (H & _). eapply subseq_trans; [|exact H]. apply subseq_app_l.
Qed.

Lemma log_empty hi st j :
  flow_ok hi subseq st -> taken (pipes st j) = [] -> plog (pipes st (S j)) = [].
Proof.
  intros F E. pose proof (fl_at F j) as H. unfold flow_at in H. rewrite E in H.
  tauto.
Qed.

Lemma log_step hi st j :
  flow_ok hi subseq st -> subseq (plog (pipes st (S j))) (tl (taken (pipes st j))).
Proof.
  intros F. destruct (taken (pipes st j)) as [|p t] eqn:E.
  - rewrite (log_empty hi st j F E). constructor.
  - simpl. eapply subseq_trans; [eapply log_filtered; eassumption|apply subseq_filter].
Qed.

Lemma subseq_tl l : subseq (tl l) l.
Proof. destruct l; simpl; [constructor|apply subseq_skip, subseq_refl]. Qed.

Lemma taken_log q : subseq (taken q) (plog q).
Proof. apply subseq_app_l. Qed.

Lemma log_down hi st j : flow_ok hi subseq st -> subseq (plog (pipes st (S j))) (plog (pipes st j)).
Proof.
  intros F. eapply subseq_trans; [apply (log_step hi st j F)|].
  eapply subseq_trans; [apply subseq_tl|apply taken_log].
Qed.

(** Every pipe carries part of 2..hi, in increasing order. *)
Lemma log_range hi st j :
  chain_ok st -> flow_ok hi subseq st -> subseq (plog (pipes st j)) (zrange 2 hi).
Proof.
  intros C F. induction j as [|j IH].
  - destruct (feed_prefix hi st C F) as [rest <-]. apply subseq_app_l.
  - eapply subseq_trans; [apply (log_down hi st j F)|exact IH].
Qed.

Lemma log_increasing hi st j :
  chain_ok st -> flow_ok hi subseq st -> increasing (plog (pipes st j)).
Proof.
  intros C F. eapply subseq_increasing; [apply (log_range hi st j C F)|apply zrange_increasing].
Qed.

(** What arrives [d] pipes further down was taken here after the prime, and
    is no multiple of it. *)
Lemma log_sieved hi st i p t d v :
  flow_ok hi subseq st -> taken (pipes st i) = p :: t ->
  In v (plog (pipes st (S i + d))) -> In v t /\ nondiv p v = true.
Proof.
  intros F E. induction d as [|d IH]; intros Hv.
  - rewrite Nat.add_0_r in Hv.
    pose proof (subseq_In _ _ v (log_filtered hi st i p t F E) Hv) as Hf.
    apply filter_In in Hf. exact Hf.
  - apply IH. replace (S i + S d) with (S (S i + d)) in Hv by lia.
    eapply subseq_In; [apply (log_down hi st (S i + d) F)|exact Hv].
Qed.

Lemma increasing_head p t x : increasing (p :: t) -> In x t -> (p < x)%Z.
Proof.
  intros H Hx. inversion H as [|? ? _ Hall]; subst.
  rewrite Forall_forall in Hall. auto.
Qed.

Lemma increasing_app_l a b : increasing (a ++ b) -> increasing a.
Proof. apply subseq_increasing, subseq_app_l. Qed.

Lemma designated_some st i p :
  designated st i = Some p -> exists t, taken (pipes st i) = p :: t.
Proof.
  unfold designated. destruct (taken (pipes st i)); simpl; [discriminate|].
  intros [= ->]. eauto.
Qed.

(** The primes of the stages increase along the chain. *)
Lemma designated_increasing hi st i i' p p' :
  chain_ok st -> flow_ok hi subseq st -> i < i' ->
  designated st i = Some p -> designated st i' = Some p' -> (p < p')%Z.
Proof.
  intros C F Hlt Hp Hp'.
  destruct (designated_some st i p Hp) as [t Ht].
  destruct (designated_some st i' p' Hp') as [t' Ht'].
  assert (In p' (plog (pipes st (S i + (i' - S i))))) as Hin.
  { replace (S i + (i' - S i)) with i' by lia. unfold plog. rewrite Ht'. simpl. auto. }
  destruct (log_sieved hi st i p t _ p' F Ht Hin) as [Hin' _].
  apply (increasing_head p t); [|assumption].
  pose proof (log_increasing hi st i C F) as Hinc. unfold plog in Hinc. rewrite Ht in Hinc.
  apply (increasing_app_l _ _ Hinc).
Qed.

(** No number in the pipe of a stage is a multiple of the prime of an
    earlier stage. *)
Lemma log_nondiv hi st i j p v :
  flow_ok hi subseq st -> i < j -> designated st i = Some p ->
  In v (plog (pipes st j)) -> Z.rem v p <> 0%Z.
Proof.
  intros F Hlt Hp Hv. destruct (designated_some st i p Hp) as [t Ht].
  replace j with (S i + (j - S i)) in Hv by lia.
  destruct (log_sieved hi st i p t _ v F Ht Hv) as [_ Hn].
  unfold nondiv in Hn. apply negb_true_iff in Hn. apply Z.eqb_neq in Hn. exact Hn.
Qed.

(** * Invariants along a run *)

Section Runs.
Variable hi : Z.
Variable cap : nat.

Lemma run_app st sc1 sc2 :
  run hi cap st (sc1 ++ sc2) =
  match run hi cap st sc1 with Some st1 => run hi cap st1 sc2 | None => None end.
Proof.
  revert st. induction sc1 as [|[k f] sc1 IH]; intros st; simpl; [reflexivity|].
  destruct (step hi cap st k f); [apply IH|reflexivity].
Qed.

(** A property that every step keeps holds at the end of every run. *)
Lemma run_keeps (P : state -> Prop) :
  (forall st k f st', P st -> step hi cap st k f = Some st' -> P st') ->
  forall sc st st', P st -> run hi cap st sc = Some st' -> P st'.
Proof.
  intros Hstep sc. induction sc as [|[k f] sc IH]; intros st st' HP H; simpl in H.
  - injection H; clear H; intros <-. exact HP.
  - destruct (step hi cap st k f) as [st1|] eqn:E; [|discriminate].
    eapply IH; [|exact H]. eapply Hstep; eassumption.
Qed.

Lemma invariant_boot argc argv : invariant hi (boot argc argv).
Proof.
  constructor.
  - apply chain_ok_boot.
  - apply flow_ok_boot.
  - apply printed_ok_boot.
  - apply wait_ok_boot.
Qed.

Lemma invariant_step st k f st' :
  invariant hi st -> step hi cap st k f = Some st' -> invariant hi st'.
Proof.
  intros [C F P W] H. constructor.
  - eapply chain_ok_step; eassumption.
  - eapply (flow_step hi cap subseq subseq_nil subseq_snoc); try eassumption.
    left. intros a v b. apply subseq_drop_last.
  - eapply printed_step; eassumption.
  - eapply wait_step; eassumption.
Qed.

Lemma invariant_run sc st :
  run hi cap init sc = Some st -> invariant hi st.
Proof.
  apply (run_keeps (invariant hi) invariant_step). apply invariant_boot.
Qed.

Lemma first_run sc st :
  (2 <= hi)%Z -> run hi cap init sc = Some st -> first_ok st.
Proof.
  intros Hhi H.
  assert (invariant hi st /\ first_ok st) as [_ A]; [|exact A].
  revert H.
  apply (run_keeps (fun st => invariant hi st /\ first_ok st)).
  - intros s k f s' [I A] Hs. split; [eapply invariant_step; eassumption|].
    apply (first_step hi cap subseq Hhi s k f s' (inv_chain I) (inv_flow I) A Hs).
  - split; [apply invariant_boot|apply first_ok_boot].
Qed.

Lemma clean_run sc st :
  fault_free sc -> run hi cap init sc = Some st -> clean_ok hi st.
Proof.
  intros Hff H.
  assert (forall s, invariant hi s /\ clean_ok hi s -> run hi cap s sc = Some st ->
                    invariant hi st /\ clean_ok hi st) as Hgen.
  2:{ apply (Hgen init); [|exact H]. split; [apply invariant_boot|apply clean_ok_boot]. }
  clear H. unfold fault_free in Hff.
  induction sc as [|[k f] sc IH]; intros s [I L] H; simpl in H.
  - injection H; clear H; intros <-. split; assumption.
  - simpl in Hff. apply andb_prop in Hff. destruct Hff as [Hf Hff].
    apply negb_true_iff in Hf.
    destruct (step hi cap s k f) as [s1|] eqn:E; [|discriminate].
    apply (IH Hff s1); [|exact H]. split.
    + eapply invariant_step; eassumption.
    + apply (clean_step hi cap s k f s1 (inv_chain I) L Hf E).
Qed.

End Runs.

(** * The output of a run in which nothing goes wrong *)

Lemma filter_length_le (f : Z -> bool) l : List.length (filter f l) <= List.length l.
Proof. induction l as [|x l IH]; simpl; [lia|]. destruct (f x); simpl; lia. Qed.

(** More fuel than the length of the list changes nothing. *)
Lemma sieve_list_fuel fuel l :
  List.length l <= fuel -> sieve_list fuel l = primes_of l.
Proof.
  unfold primes_of. remember (List.length l) as n eqn:En.
  revert l fuel En. induction n as [n IH] using lt_wf_ind. intros l fuel En Hle.
  destruct l as [|p t]; simpl in *.
  - subst n. destruct fuel; reflexivity.
  - subst n. destruct fuel as [|fuel]; [lia|]. simpl. f_equal.
    pose proof (filter_length_le (nondiv p) t) as Hf.
    rewrite (IH (List.length (filter (nondiv p) t)) ltac:(lia) _ fuel eq_refl ltac:(lia)).
    rewrite (IH (List.length (filter (nondiv p) t)) ltac:(lia) _ (List.length t) eq_refl ltac:(lia)).
    reflexivity.
Qed.

(** A chain of lists, each the previous one without its head and the
    multiples of its head, ending in the empty list: the heads are what the
    sieve yields on the first list. *)
Lemma sieve_chain (L : nat -> list Z) m : forall j pr fuel,
  List.length pr = m ->
  (forall i, i < m -> exists t, L (j + i) = nth i pr 0%Z :: t /\
                                L (S (j + i)) = filter (nondiv (nth i pr 0%Z)) t) ->
  L (j + m) = [] -> m <= fuel ->
  sieve_list fuel (L j) = pr.
Proof.
  induction m as [|m IH]; intros j pr fuel Hlen Hch Hend Hfuel.
  - destruct pr; [|discriminate]. rewrite Nat.add_0_r in Hend. rewrite Hend.
    destruct fuel; reflexivity.
  - destruct pr as [|p pr]; [discriminate|]. simpl in Hlen.
    destruct fuel as [|fuel]; [lia|].
    destruct (Hch 0 ltac:(lia)) as (t & Ht & Hn). rewrite Nat.add_0_r in Ht, Hn. simpl in Ht, Hn.
    rewrite Ht. simpl. f_equal. rewrite <- Hn.
    apply (IH (S j) pr fuel); [lia| |rewrite <- Hend; f_equal; lia|lia].
    intros i Hi. destruct (Hch (S i) ltac:(lia)) as (t' & Ht' & Hn').
    simpl in Ht', Hn'. exists t'. split.
    + rewrite <- Ht'. f_equal. lia.
    + rewrite <- Hn'. f_equal. lia.
Qed.

Lemma exited_facts c :
  exited c = true ->
  pend c = [] /\ past_input c = true /\ reads_first c = false /\
  (forall l p, c <> S_print l p).
Proof. destruct c; simpl; try discriminate; intros _; repeat split; congruence. Qed.

Section Output.
Variable hi : Z.

(** When every process has exited and nothing went wrong, what was printed
    is the sieve of what [main] fed. *)
Lemma clean_output st :
  invariant hi st -> clean_ok hi st -> all_exited st ->
  printed st = primes_of (zrange 2 hi).
Proof.
  intros [C F P W] L Hex. pose proof (ck_nproc C) as Hn.
  set (m := List.length (printed st)).
  (* every pipe that has a reader is empty *)
  assert (forall j, S j < nproc st -> plog (pipes st j) = taken (pipes st j)) as Hdr.
  { intros j Hj. destruct (exited_facts _ (Hex _ Hj)) as (_ & Hp & _).
    destruct (@cl_drained _ _ L j Hj Hp) as [_ Hb]. unfold plog. rewrite Hb. apply app_nil_r. }
  (* the other pipes have seen nothing *)
  assert (forall j, nproc st <= S j -> plog (pipes st j) = [] /\ taken (pipes st j) = []) as Hno.
  { intros j Hj. pose proof (@fl_empty _ _ _ F j Hj) as He. split; [exact He|].
    unfold plog in He. destruct (taken (pipes st j)); [reflexivity|discriminate]. }
  assert (forall j, plog (pipes st j) = taken (pipes st j)) as Hall.
  { intros j. destruct (Nat.lt_ge_cases (S j) (nproc st)) as [Hj|Hj]; [auto|].
    destruct (Hno j Hj) as [-> ->]. reflexivity. }
  (* main fed everything *)
  assert (taken (pipes st 0) = zrange 2 hi) as H0.
  { rewrite <- Hall. pose proof (fl_feed F) as Hf.
    pose proof (cl_pcs L 0) as Hc. pose proof (Hex 0 ltac:(lia)) as He.
    pose proof (ck_shape C (ck_nproc C)) as Hs.
    destruct (procs st 0); simpl in *; try discriminate; try lia.
    apply Z.eqb_eq in Hc. destruct Hf as [_ Hf]. auto. }
  rewrite <- H0.
  rewrite <- (sieve_list_fuel (m + List.length (taken (pipes st 0)))) by lia.
  symmetry. apply (sieve_chain (fun j => taken (pipes st j)) m 0); try reflexivity; try lia.
  - intros i Hi. simpl.
    destruct (@pr_done _ P i Hi) as [t Ht]. exists t. split; [exact Ht|].
    pose proof (fl_at (cl_flow L) i) as Hfl. unfold flow_at in Hfl. rewrite Ht in Hfl.
    destruct Hfl as (Heq & _ & _ & Hlt).
    destruct (exited_facts _ (Hex _ Hlt)) as (Hp & _).
    rewrite Hp, app_nil_r, Hall in Heq. exact Heq.
  - simpl. destruct (@pr_todo _ P m (Nat.le_refl _)) as [Ht|[_ (l & p & Hp)]]; [exact Ht|].
    exfalso. destruct (Nat.lt_ge_cases (S m) (nproc st)) as [Hj|Hj].
    + destruct (exited_facts _ (Hex _ Hj)) as (_ & _ & _ & Hnp). exact (Hnp l p Hp).
    + rewrite (ck_unused C Hj) in Hp. discriminate.
Qed.

End Output.

(** * Every step decreases the measure *)

Lemma sumz_ext n f g : (forall i, i < n -> f i = g i) -> sumz n f = sumz n g.
Proof.
  induction n as [|n IH]; simpl; intros H; [reflexivity|].
  rewrite IH, H; auto.
Qed.

Lemma sumz_upd (A : Type) (F : A -> Z) (f : nat -> A) k v n :
  sumz n (fun i => F (upd f k v i)) =
  (sumz n (fun i => F (f i)) + (if Nat.ltb k n then F v - F (f k) else 0))%Z.
Proof.
  induction n as [|n IH]; simpl; [reflexivity|]. rewrite IH.
  unfold upd.
  destruct (Nat.ltb_spec k n), (Nat.ltb_spec k (S n)), (Nat.eqb_spec n k); subst; lia.
Qed.

Lemma sumz_bound n f b : (forall i, i < n -> (f i <= b)%Z) -> (sumz n f <= Z.of_nat n * b)%Z.
Proof.
  induction n as [|n IH]; intros H; simpl sumz; [lia|].
  specialize (IH (fun i Hi => H i (Nat.lt_lt_succ_r _ _ Hi))).
  specialize (H n (Nat.lt_succ_diag_r n)). lia.
Qed.

Lemma sumz_nonneg n f : (forall i, i < n -> (0 <= f i)%Z) -> (0 <= sumz n f)%Z.
Proof.
  induction n as [|n IH]; intros H; simpl sumz; [lia|].
  specialize (IH (fun i Hi => H i (Nat.lt_lt_succ_r _ _ Hi))).
  specialize (H n (Nat.lt_succ_diag_r n)). lia.
Qed.

Section Measure.
Variable hi : Z.
Variable cap : nat.

Lemma measure_step st k f st' :
  chain_ok st -> step hi cap st k f = Some st' -> (measure st' + 1 <= measure st)%Z.
Proof.
  intros C H.
  pose proof (fun j => held_lt st k j C (step_lt _ _ _ _ _ _ C H)) as Hlt.
  pose proof (ck_npipe C) as Hnp.
  step_start C H.
  all: simpl in Hlt; unfold eqn in Hlt.
  all: unfold measure; fields; cbn [sumz].
  all: rewrite ?sumz_upd; rewrite ?upd_same; rewrite ?Epc, ?Hs2.
  all: try (pose proof (Hlt leftfd) as Hl1; rewrite ?Nat.eqb_refl in Hl1).
  all: try (pose proof (Hlt next) as Hl2; rewrite ?Nat.eqb_refl in Hl2).
  all: try (pose proof (Hlt wfd) as Hl3; rewrite ?Nat.eqb_refl in Hl3).
  all: try (pose proof (Hlt p) as Hl4; rewrite ?Nat.eqb_refl in Hl4).
  all: try (destruct (Hfork eq_refl)); try (destruct (Hlast eq_refl)).
  all: unfold traffic, plog, upd; cbn [taken buf rd wr weight];
       rewrite ?Nat.eqb_refl; cbn [taken buf rd wr];
       rewrite ?length_app; simpl List.length.
  all: repeat match goal with
       | |- context [Nat.ltb ?a ?b] => destruct (Nat.ltb_spec a b)
       | |- context [Nat.eqb ?a ?b] => destruct (Nat.eqb_spec a b)
       end; cbn [taken buf rd wr]; try lia.
  all: rewrite ?Epc, ?Hs2; cbn [weight]; rewrite ?length_app; try lia.
  all: rewrite ?Ebuf; simpl List.length; lia.
Qed.

Lemma run_measure sc : forall st st',
  invariant hi st -> run hi cap st sc = Some st' ->
  (measure st' + Z.of_nat (List.length sc) <= measure st)%Z.
Proof.
  induction sc as [|[k f] sc IH]; intros st st' I H; simpl in H.
  - injection H; clear H; intros <-. simpl. lia.
  - destruct (step hi cap st k f) as [st1|] eqn:E; [|discriminate].
    pose proof (measure_step st k f st1 (inv_chain I) E).
    pose proof (IH st1 st' (invariant_step hi cap st k f st1 I E) H).
    simpl List.length. lia.
Qed.

Lemma weight_nonneg c : (0 <= weight c)%Z.
Proof. destruct c; simpl; lia. Qed.

(** The primes printed are distinct numbers of 2..hi. *)
Lemma printed_bound st :
  invariant hi st -> List.length (printed st) <= List.length (zrange 2 hi).
Proof.
  intros [C F P W]. apply NoDup_incl_length.
  - apply (NoDup_nth (printed st) 0%Z). intros i j Hi Hj E.
    destruct (@pr_done _ P i Hi) as [ti Hti]. destruct (@pr_done _ P j Hj) as [tj Htj].
    assert (designated st i = Some (nth i (printed st) 0%Z)) as Di
      by (unfold designated; rewrite Hti; reflexivity).
    assert (designated st j = Some (nth j (printed st) 0%Z)) as Dj
      by (unfold designated; rewrite Htj; reflexivity).
    destruct (Nat.lt_trichotomy i j) as [Hlt|[Heq|Hgt]]; [|assumption|].
    + pose proof (designated_increasing hi st i j _ _ C F Hlt Di Dj). lia.
    + pose proof (designated_increasing hi st j i _ _ C F Hgt Dj Di). lia.
  - intros x Hx. destruct (In_nth _ _ 0%Z Hx) as (i & Hi & <-).
    destruct (@pr_done _ P i Hi) as [ti Hti].
    apply (subseq_In _ _ _ (log_range hi st i C F)).
    unfold plog. rewrite Hti. simpl. auto.
Qed.

Lemma measure_lower st :
  invariant hi st ->
  (let n := Z.of_nat (List.length (zrange 2 hi)) in
   - (4 * n * n + 38 * n + 60) <= measure st)%Z.
Proof.
  intros I. pose proof (printed_bound st I) as Hp. destruct I as [C F P W].
  pose proof (pr_count P) as Hc. pose proof (ck_npipe C) as Hnp.
  set (n := Z.of_nat (List.length (zrange 2 hi))). cbv zeta. unfold measure.
  assert (0 <= sumz (nproc st) (fun k => weight (procs st k)))%Z as H1.
  { apply sumz_nonneg. intros. apply weight_nonneg. }
  assert (sumz (npipe st) (fun j => traffic (pipes st j)) <= Z.of_nat (npipe st) * (2 * n))%Z as H2.
  { apply sumz_bound. intros j _. unfold traffic.
    pose proof (subseq_length _ _ (log_range hi st j C F)) as Hl.
    pose proof (subseq_length _ _ (taken_log (pipes st j))) as Ht.
    unfold n. lia. }
  assert (Z.of_nat (nproc st) <= n + 2)%Z as H3 by (unfold n; lia).
  assert (0 <= n)%Z as H4 by (unfold n; lia).
  nia.
Qed.

(** No run is longer than [step_bound]. *)
Lemma run_bounded sc st :
  run hi cap init sc = Some st -> (Z.of_nat (List.length sc) <= step_bound hi)%Z.
Proof.
  intros H.
  pose proof (run_measure sc init st (invariant_boot hi 1 ["primes"%string]) H) as Hm.
  pose proof (measure_lower st (invariant_run hi cap sc st H)) as Hl. cbv zeta in Hl.
  rewrite zrange_length in Hl.
  assert (measure init = -23)%Z as Hi by reflexivity.
  unfold step_bound. cbv zeta.
  replace (Z.of_nat (Z.to_nat (hi - 2 + 1))) with (Z.max 0 (hi - 1)) in Hl by lia.
  lia.
Qed.

End Measure.

(** * Some process can always run *)

Lemma sumn_pos n f : 0 < sumn n f -> exists i, i < n /\ 0 < f i.
Proof.
  induction n as [|n IH]; simpl; intros H; [lia|].
  destruct (Nat.eq_dec (f n) 0) as [E|E].
  - destruct IH as (i & Hi & Hf); [lia|]. exists i. split; [lia|assumption].
  - exists n. split; lia.
Qed.

(** Who can hold an end of pipe [j]: its writer [j], its reader [j+1], and
    for the read end the child of the reader until it has closed it. *)
Lemma holder_r st i j :
  chain_ok st -> i < nproc st -> 0 < holds_r (procs st i) j -> j <= i.
Proof.
  intros C Hi H. pose proof (ck_shape C Hi) as Hs.
  destruct (procs st i); simpl in *; try lia; split_hyps; unfold eqn in *;
    repeat match goal with
    | H : context [Nat.eqb ?a ?b] |- _ => destruct (Nat.eqb_spec a b)
    end; lia.
Qed.

Lemma holder_w st i j :
  chain_ok st -> i < nproc st -> 0 < holds_w (procs st i) j -> j = i \/ S j = i.
Proof.
  intros C Hi H. pose proof (ck_shape C Hi) as Hs.
  destruct (procs st i); simpl in *; try lia; split_hyps; unfold eqn in *;
    repeat match goal with
    | H : context [Nat.eqb ?a ?b] |- _ => destruct (Nat.eqb_spec a b)
    end; lia.
Qed.

Section Progress.
Variable hi : Z.
Variable cap : nat.
Hypothesis cap_pos : 1 <= cap.

Lemma runnable_step st k f st' : step hi cap st k f = Some st' -> runnable hi cap st k.
Proof.
  unfold runnable, step. destruct (procs st k); try discriminate;
    repeat match goal with
    | |- context [sys_read ?s ?l] => destruct (sys_read s l)
    | |- context [sys_write ?c ?s ?l ?v] => destruct (sys_write c s l v)
    | |- context [sys_wait ?s ?l] => destruct (sys_wait s l)
    | |- context [if f then _ else _] => destruct f
    end; try discriminate; intros _; discriminate.
Qed.

(** A process that sleeps in [read] waits for a process before it in the
    chain, and that one can run or waits in turn. *)
Lemma reader_progress st : chain_ok st ->
  forall k, k < nproc st -> reading (procs st k) = true ->
  exists i, runnable hi cap st i.
Proof.
  intros C k. induction k as [k IH] using lt_wf_ind. intros Hk Hr.
  pose proof (ck_shape C Hk) as Hs.
  assert (exists l, S l = k /\ holds_w (procs st k) l = 0 /\
          (sys_read st l = RBlock \/ runnable hi cap st k)) as (l & Hl & Hw0 & Hb).
  { unfold runnable, step.
    destruct (procs st k); simpl in *; try discriminate; split_hyps;
      match goal with |- context [sys_read ?s ?l] => exists l end;
      (split; [reflexivity|]); unfold eqn;
      (split; [try reflexivity;
               repeat match goal with
               | |- context [Nat.eqb ?a ?b] => destruct (Nat.eqb_spec a b)
               end; lia|]);
      destruct (sys_read st leftfd); auto; right; discriminate. }
  destruct Hb as [Hb|Hb]; [|eauto].
  unfold sys_read in Hb. destruct (buf (pipes st l)) eqn:Eb; [|discriminate].
  destruct (Nat.eqb_spec (wr (pipes st l)) 0) as [|Hwr]; [discriminate|].
  rewrite (ck_wr C l) in Hwr.
  destruct (sumn_pos (nproc st) (fun i => holds_w (procs st i) l)) as (i & Hi & Hh); [lia|].
  destruct (holder_w st i l C Hi Hh) as [<-|Hil]; [|subst; lia].
  pose proof (ck_shape C Hi) as Hsl.
  destruct (procs st l) eqn:El; simpl in Hh; try lia.
  all: try solve [exists l; unfold runnable, step; rewrite El; try destruct f; discriminate].
  all: split_hyps; unfold eqn in Hh;
       repeat match goal with
       | H : context [Nat.eqb ?a ?b] |- _ => destruct (Nat.eqb_spec a b)
       end; try lia; subst.
  all: try solve [exists l; unfold runnable, step; rewrite El; discriminate].
  all: try solve [exists l; unfold runnable, step; rewrite El; unfold sys_write;
                  rewrite Eb; simpl;
                  destruct (Nat.eqb (rd (pipes st l)) 0); [discriminate|];
                  destruct (Nat.ltb_spec 0 cap); [discriminate|lia]].
  all: solve [apply (IH l); [lia|lia|rewrite El; reflexivity]].
Qed.

Lemma exited_holds c j : exited c = true -> holds_r c j = 0 /\ holds_w c j = 0.
Proof. destruct c; simpl; try discriminate; auto. Qed.

(** The last process of the chain that has not exited can run, or it
    sleeps in [read]. *)
Lemma last_live_progress st k :
  chain_ok st -> k < nproc st -> exited (procs st k) = false ->
  (forall i, k < i -> i < nproc st -> exited (procs st i) = true) ->
  exists i, runnable hi cap st i.
Proof.
  intros C Hk Hlive Habove.
  destruct (reading (procs st k)) eqn:Hr; [eapply reader_progress; eassumption|].
  exists k. pose proof (ck_shape C Hk) as Hs.
  unfold runnable, step.
  destruct (procs st k) eqn:Ek; simpl in *; try discriminate; try contradiction;
    try (destruct f; discriminate).
  - (* feed_numbers: write *)
    unfold sys_write. destruct (Nat.eqb (rd (pipes st wfd)) 0) eqn:E; [discriminate|].
    exfalso. apply Nat.eqb_neq in E. apply E. rewrite (ck_rd C wfd).
    apply sumn_zero. intros q Hq. split_hyps.
    destruct (Nat.eq_dec q 0) as [->|Hne]; [rewrite Ek; reflexivity|].
    apply exited_holds. apply Habove; lia.
  - (* wait *)
    unfold sys_wait.
    destruct (first_that (fun c => child_of st k c && is_zombie (procs st c)) (nproc st));
      [discriminate|].
    destruct (first_that (fun c => child_of st k c && is_live (procs st c)) (nproc st))
      as [c|] eqn:E; [|discriminate].
    exfalso. apply first_that_some in E. destruct E as [Hc Hz].
    apply andb_prop in Hz. destruct Hz as [Hp Hz].
    unfold child_of in Hp. destruct c as [|c].
    + rewrite (ck_root C) in Hp. discriminate.
    + rewrite (ck_parent C) in Hp by assumption. apply Nat.eqb_eq in Hp. subst c.
      specialize (Habove (S k) ltac:(lia) Hc).
      destruct (procs st (S k)); simpl in *; discriminate.
  - (* sieve: first write *)
    unfold sys_write. destruct (Nat.eqb (rd (pipes st next)) 0) eqn:E; [discriminate|].
    exfalso. apply Nat.eqb_neq in E. apply E. rewrite (ck_rd C next).
    apply sumn_zero. intros q Hq. split_hyps.
    destruct (Nat.lt_trichotomy q (S leftfd)) as [Hlt|[->|Hgt]].
    + destruct (Nat.eq_dec (holds_r (procs st q) (S leftfd)) 0) as [|Hne]; [assumption|].
      pose proof (holder_r st q (S leftfd) C Hq ltac:(lia)). lia.
    + rewrite Ek. simpl. unfold eqn. destruct (Nat.eqb_spec leftfd (S leftfd)); lia.
    + apply exited_holds. apply Habove; lia.
  - (* sieve: write in the loop *)
    unfold sys_write. destruct (Nat.eqb (rd (pipes st next)) 0) eqn:E; [discriminate|].
    exfalso. apply Nat.eqb_neq in E. apply E. rewrite (ck_rd C next).
    apply sumn_zero. intros q Hq. split_hyps.
    destruct (Nat.lt_trichotomy q (S leftfd)) as [Hlt|[->|Hgt]].
    + destruct (Nat.eq_dec (holds_r (procs st q) (S leftfd)) 0) as [|Hne]; [assumption|].
      pose proof (holder_r st q (S leftfd) C Hq ltac:(lia)). lia.
    + rewrite Ek. simpl. unfold eqn. destruct (Nat.eqb_spec leftfd (S leftfd)); lia.
    + apply exited_holds. apply Habove; lia.
Qed.

(** Unless every process has exited, some process can run. *)
Lemma progress st :
  chain_ok st -> all_exited st \/ exists i, runnable hi cap st i.
Proof.
  intros C.
  assert (forall n, n <= nproc st ->
          (forall i, n <= i -> i < nproc st -> exited (procs st i) = true) ->
          all_exited st \/ exists i, runnable hi cap st i) as Hind.
  { induction n as [|n IH]; intros Hn Habove.
    - left. intros k Hk. apply Habove; lia.
    - destruct (exited (procs st n)) eqn:E.
      + apply IH; [lia|]. intros i Hi Hi'.
        destruct (Nat.eq_dec i n) as [->|Hne]; [assumption|apply Habove; lia].
      + right. apply (last_live_progress st n C); [lia|assumption|].
        intros i Hi Hi'. apply Habove; lia. }
  apply (Hind (nproc st)); [lia|]. intros i Hi Hi'. lia.
Qed.

End Progress.

(** * What the driver reports, and how a run ends *)

Lemma driver_errs_app st m :
  filter driver_msg (errs st ++ [m]) =
  driver_errs st ++ (if driver_msg m then [m] else []).
Proof. unfold driver_errs. rewrite filter_app. reflexivity. Qed.

Section Ending.
Variable hi : Z.
Variable cap : nat.

Lemma driver_ok_boot argc argv : driver_ok (boot argc argv).
Proof. reflexivity. Qed.

Lemma driver_step st k f st' :
  chain_ok st -> driver_ok st -> step hi cap st k f = Some st' -> driver_ok st'.
Proof.
  intros C D H. unfold driver_ok in *.
  step_start C H.
  all: split_hyps.
  all: unfold driver_errs in *; fields; rewrite ?driver_errs_app; simpl;
       unfold driver_errs; rewrite ?app_nil_r.
  all: eqn_cases; subst; try lia; rewrite ?Epc in *; simpl in *.
  all: try assumption.
  all: try solve [rewrite D; simpl; auto].
  all: try solve [left; split; [reflexivity|assumption]].
  all: try solve [right; split; [reflexivity|rewrite D; discriminate]].
  all: solve [destruct D as [[? D]|[? D]]; [left|right]; (split; [assumption|]);
              rewrite D; try reflexivity; discriminate].
Qed.

(** What was printed stays printed. *)
Lemma printed_grows st k f st' :
  step hi cap st k f = Some st' -> exists more, printed st' = printed st ++ more.
Proof.
  intros H. step_inv H; fields;
    try match goal with
        | Ew : sys_wait ?s ?i = Some ?s1 |- _ =>
            unfold sys_wait, reap in Ew;
            repeat match type of Ew with
            | context [match ?x with _ => _ end] => destruct x
            end; try discriminate Ew; injection Ew; clear Ew; intros <-; fields
        end;
    first [exists []; rewrite app_nil_r; reflexivity | eexists; reflexivity].
Qed.

Lemma printed_grows_run sc : forall st st',
  run hi cap st sc = Some st' -> exists more, printed st' = printed st ++ more.
Proof.
  induction sc as [|[k f] sc IH]; intros st st' H; simpl in H.
  - injection H; clear H; intros <-. exists []. now rewrite app_nil_r.
  - destruct (step hi cap st k f) as [st1|] eqn:E; [|discriminate].
    destruct (printed_grows st k f st1 E) as [m1 H1].
    destruct (IH st1 st' H) as [m2 H2].
    exists (m1 ++ m2). rewrite H2, H1, app_assoc. reflexivity.
Qed.

Lemma driver_run sc st : run hi cap init sc = Some st -> driver_ok st.
Proof.
  intros H.
  assert (invariant hi st /\ driver_ok st) as [_ A]; [|exact A].
  revert H. apply (run_keeps hi cap (fun st => invariant hi st /\ driver_ok st)).
  - intros s k f s' [I A] Hs. split; [eapply invariant_step; eassumption|].
    apply (driver_step s k f s' (inv_chain I) A Hs).
  - split; [apply invariant_boot|apply driver_ok_boot].
Qed.

Hypothesis cap_pos : 1 <= cap.

(** Every run can be carried on until every process has exited. *)
Lemma completes_within n : forall sc st,
  run hi cap init sc = Some st ->
  (step_bound hi - Z.of_nat (List.length sc) <= Z.of_nat n)%Z ->
  exists sc' st', fault_free sc' /\ run hi cap st sc' = Some st' /\ all_exited st'.
Proof.
  induction n as [|n IH]; intros sc st H Hb.
  - destruct (progress hi cap cap_pos st (inv_chain (invariant_run hi cap sc st H)))
      as [Hex|[i Hi]].
    + exists [], st. split; [reflexivity|]. split; [reflexivity|assumption].
    + exfalso. unfold runnable in Hi.
      destruct (step hi cap st i false) as [st1|] eqn:E; [|congruence].
      assert (run hi cap init (sc ++ [(i, false)]) = Some st1) as H1.
      { rewrite run_app, H. simpl. rewrite E. reflexivity. }
      pose proof (run_bounded hi cap _ _ H1) as Hb1. rewrite length_app in Hb1.
      simpl in Hb1. lia.
  - destruct (progress hi cap cap_pos st (inv_chain (invariant_run hi cap sc st H)))
      as [Hex|[i Hi]].
    + exists [], st. split; [reflexivity|]. split; [reflexivity|assumption].
    + unfold runnable in Hi.
      destruct (step hi cap st i false) as [st1|] eqn:E; [|congruence].
      assert (run hi cap init (sc ++ [(i, false)]) = Some st1) as H1.
      { rewrite run_app, H. simpl. rewrite E. reflexivity. }
      destruct (IH _ _ H1) as (sc' & st' & Hff & Hr & Hex).
      { rewrite length_app. simpl. lia. }
      exists ((i, false) :: sc'), st'. split; [exact Hff|]. split; [|assumption].
      simpl. rewrite E. exact Hr.
Qed.

Lemma completes sc st :
  run hi cap init sc = Some st ->
  exists sc' st', fault_free sc' /\ run hi cap st sc' = Some st' /\ all_exited st'.
Proof.
  intros H.
  apply (completes_within (Z.to_nat (step_bound hi - Z.of_nat (List.length sc))) sc st H).
  lia.
Qed.

End Ending.

(** * Exit statuses, and the paths of a single process *)

Lemma completed_all_exited st : completed st = true -> all_exited st.
Proof.
  unfold completed, all_exited. rewrite forallb_forall. intros H k Hk.
  apply H. apply in_seq. lia.
Qed.

(** Once the driver has come back from [wait], the whole chain has been
    waited for. *)
Lemma driver_joined st :
  chain_ok st -> wait_ok st -> joined_pc 0 (procs st 0) = true ->
  forall k, 1 <= k -> k < nproc st -> exists s, procs st k = Reaped s.
Proof.
  intros C W H0 k. induction k as [|k IH]; intros H1 Hk; [lia|].
  apply (W k Hk). destruct k as [|k]; [assumption|].
  destruct IH as [s Hs]; [lia|lia|]. rewrite Hs. reflexivity.
Qed.

Lemma exit_status_exited st k s : exit_status st k = Some s -> exited (procs st k) = true.
Proof. unfold exit_status. destruct (procs st k); simpl; congruence. Qed.

Lemma driver_status st s :
  chain_ok st -> exit_status st 0 = Some s -> procs st 0 = Zombie s.
Proof.
  intros C H. pose proof (ck_shape C (ck_nproc C)) as Hs. unfold exit_status in H.
  destruct (procs st 0); simpl in *; try discriminate; try lia; congruence.
Qed.


(** Reading a field of the state after one of the calls. *)
Lemma nproc_set_pc st k c : nproc (set_pc st k c) = nproc st.
Proof. reflexivity. Qed.

Lemma npipe_set_pc st k c : npipe (set_pc st k c) = npipe st.
Proof. reflexivity. Qed.

Lemma pipes_set_pc st k c : pipes (set_pc st k c) = pipes st.
Proof. reflexivity. Qed.

Lemma printed_set_pc st k c : printed (set_pc st k c) = printed st.
Proof. reflexivity. Qed.

Lemma errs_set_pc st k c : errs (set_pc st k c) = errs st.
Proof. reflexivity. Qed.

Lemma nproc_sys_fprintf2 st m : nproc (sys_fprintf2 st m) = nproc st.
Proof. reflexivity. Qed.

Lemma procs_sys_fprintf2 st m : procs (sys_fprintf2 st m) = procs st.
Proof. reflexivity. Qed.

Lemma npipe_sys_fprintf2 st m : npipe (sys_fprintf2 st m) = npipe st.
Proof. reflexivity. Qed.

Lemma pipes_sys_fprintf2 st m : pipes (sys_fprintf2 st m) = pipes st.
Proof. reflexivity. Qed.

Lemma printed_sys_fprintf2 st m : printed (sys_fprintf2 st m) = printed st.
Proof. reflexivity. Qed.

Lemma nproc_close_r st j : nproc (close_r st j) = nproc st.
Proof. reflexivity. Qed.

Lemma procs_close_r st j : procs (close_r st j) = procs st.
Proof. reflexivity. Qed.

Lemma npipe_close_r st j : npipe (close_r st j) = npipe st.
Proof. reflexivity. Qed.

Lemma printed_close_r st j : printed (close_r st j) = printed st.
Proof. reflexivity. Qed.

Lemma errs_close_r st j : errs (close_r st j) = errs st.
Proof. reflexivity. Qed.

Lemma nproc_close_w st j : nproc (close_w st j) = nproc st.
Proof. reflexivity. Qed.

Lemma procs_close_w st j : procs (close_w st j) = procs st.
Proof. reflexivity. Qed.

Lemma npipe_close_w st j : npipe (close_w st j) = npipe st.
Proof. reflexivity. Qed.

Lemma printed_close_w st j : printed (close_w st j) = printed st.
Proof. reflexivity. Qed.

Lemma errs_close_w st j : errs (close_w st j) = errs st.
Proof. reflexivity. Qed.

Lemma procs_set_pc_at st k c i : procs (set_pc st k c) i = upd (procs st) k c i.
Proof. reflexivity. Qed.

Lemma errs_sys_fprintf2 st m : errs (sys_fprintf2 st m) = errs st ++ [m].
Proof. reflexivity. Qed.

Lemma pipes_close_r st j i :
  pipes (close_r st j) i =
  upd (pipes st) j (mkPipe (taken (pipes st j)) (buf (pipes st j))
                           (Nat.pred (rd (pipes st j))) (wr (pipes st j))) i.
Proof. reflexivity. Qed.

Lemma pipes_close_w st j i :
  pipes (close_w st j) i =
  upd (pipes st) j (mkPipe (taken (pipes st j)) (buf (pipes st j))
                           (rd (pipes st j)) (Nat.pred (wr (pipes st j)))) i.
Proof. reflexivity. Qed.

Create Rewrite HintDb state_proj.
#[local] Hint Rewrite
  nproc_set_pc npipe_set_pc pipes_set_pc printed_set_pc errs_set_pc
  nproc_sys_fprintf2 procs_sys_fprintf2 npipe_sys_fprintf2 pipes_sys_fprintf2
  printed_sys_fprintf2 nproc_close_r procs_close_r npipe_close_r
  printed_close_r errs_close_r nproc_close_w procs_close_w npipe_close_w
  printed_close_w errs_close_w procs_set_pc_at errs_sys_fprintf2
  pipes_close_r pipes_close_w
  : state_proj.

Ltac proj :=
  repeat first
    [ progress (autorewrite with state_proj)
    | rewrite upd_same
    | rewrite upd_other by (assumption || congruence)
    | progress (cbn [taken buf rd wr]) ].

(** The paths of one process that no other process can hold up, run from
    any state. *)
Section Paths.
Variable hi : Z.
Variable cap : nat.

Lemma procs_set_pc st k c : procs (set_pc st k c) k = c.
Proof. apply upd_same. Qed.

Lemma step_pipe_refused st k l p x :
  procs st k = S_pipe l p x -> step hi cap st k true = Some (set_pc st k (S_pipe_err l)).
Proof. intros E. unfold step. rewrite E. reflexivity. Qed.

Lemma step_pipe_err st k l f :
  procs st k = S_pipe_err l ->
  step hi cap st k f = Some (set_pc (sys_fprintf2 st "pipe failed") k (S_close_exit l 1)).
Proof. intros E. unfold step. rewrite E. reflexivity. Qed.

Lemma step_close_exit st k l s f :
  procs st k = S_close_exit l s ->
  step hi cap st k f = Some (set_pc (close_r st l) k (X_exit s)).
Proof. intros E. unfold step. rewrite E. reflexivity. Qed.

Lemma step_exit st k s f :
  procs st k = X_exit s -> step hi cap st k f = Some (set_pc st k (Zombie s)).
Proof. intros E. unfold step. rewrite E. reflexivity. Qed.

Lemma step_fork_refused st k l p x n :
  procs st k = S_fork l p x n -> step hi cap st k true = Some (set_pc st k (S_fork_err l n)).
Proof. intros E. unfold step. rewrite E. reflexivity. Qed.

Lemma step_fork_err st k l n f :
  procs st k = S_fork_err l n ->
  step hi cap st k f = Some (set_pc (sys_fprintf2 st "fork failed") k (S_fork_closeL l n)).
Proof. intros E. unfold step. rewrite E. reflexivity. Qed.

Lemma step_fork_closeL st k l n f :
  procs st k = S_fork_closeL l n ->
  step hi cap st k f = Some (set_pc (close_r st l) k (S_fork_closeR n)).
Proof. intros E. unfold step. rewrite E. reflexivity. Qed.

Lemma step_fork_closeR st k n f :
  procs st k = S_fork_closeR n ->
  step hi cap st k f = Some (set_pc (close_r st n) k (S_fork_closeW n)).
Proof. intros E. unfold step. rewrite E. reflexivity. Qed.

Lemma step_fork_closeW st k n f :
  procs st k = S_fork_closeW n ->
  step hi cap st k f = Some (set_pc (close_w st n) k (X_exit 1)).
Proof. intros E. unfold step. rewrite E. reflexivity. Qed.


Lemma step_feed_fails st k w i f :
  procs st k = F_write w i -> rd (pipes st w) = 0 ->
  step hi cap st k f = Some (set_pc st k (F_err w)).
Proof. intros E Er. unfold step. rewrite E. unfold sys_write. rewrite Er. reflexivity. Qed.

Lemma step_feed_err st k w f :
  procs st k = F_err w ->
  step hi cap st k f = Some (set_pc (sys_fprintf2 st "writer: write error") k (F_exit w)).
Proof. intros E. unfold step. rewrite E. reflexivity. Qed.

Lemma step_feed_exit st k w f :
  procs st k = F_exit w -> step hi cap st k f = Some (set_pc (close_w st w) k (Zombie 1)).
Proof. intros E. unfold step. rewrite E. reflexivity. Qed.

Lemma pipe_refused_path st k l p x f1 f2 f3 :
  procs st k = S_pipe l p x ->
  exists st', run hi cap st [(k, true); (k, f1); (k, f2); (k, f3)] = Some st' /\
    procs st' k = Zombie 1 /\ errs st' = errs st ++ ["pipe failed"%string] /\
    printed st' = printed st /\ nproc st' = nproc st /\ npipe st' = npipe st /\
    rd (pipes st' l) = Nat.pred (rd (pipes st l)) /\ wr (pipes st' l) = wr (pipes st l) /\
    (forall j, j <> l -> pipes st' j = pipes st j) /\
    (forall i, i <> k -> procs st' i = procs st i).
Proof.
  intros E. eexists. split.
  - cbn [run]. rewrite (step_pipe_refused _ _ _ _ _ E).
    rewrite (step_pipe_err _ k l) by apply procs_set_pc.
    rewrite (step_close_exit _ k l 1) by apply procs_set_pc.
    rewrite (step_exit _ k 1) by apply procs_set_pc. reflexivity.
  - proj. repeat split; try reflexivity.
    + intros j Hj. proj. reflexivity.
    + intros i Hi. proj. reflexivity.
Qed.

Lemma fork_refused_path st k l p x n f1 f2 f3 f4 f5 :
  procs st k = S_fork l p x n -> l <> n ->
  exists st', run hi cap st [(k, true); (k, f1); (k, f2); (k, f3); (k, f4); (k, f5)]
              = Some st' /\
    procs st' k = Zombie 1 /\ errs st' = errs st ++ ["fork failed"%string] /\
    printed st' = printed st /\ nproc st' = nproc st /\ npipe st' = npipe st /\
    rd (pipes st' l) = Nat.pred (rd (pipes st l)) /\ wr (pipes st' l) = wr (pipes st l) /\
    rd (pipes st' n) = Nat.pred (rd (pipes st n)) /\
    wr (pipes st' n) = Nat.pred (wr (pipes st n)) /\
    (forall j, j <> l -> j <> n -> pipes st' j = pipes st j) /\
    (forall i, i <> k -> procs st' i = procs st i).
Proof.
  intros E Hln. eexists. split.
  - cbn [run]. rewrite (step_fork_refused _ _ _ _ _ _ E).
    rewrite (step_fork_err _ k l n) by apply procs_set_pc.
    rewrite (step_fork_closeL _ k l n) by apply procs_set_pc.
    rewrite (step_fork_closeR _ k n) by apply procs_set_pc.
    rewrite (step_fork_closeW _ k n) by apply procs_set_pc.
    rewrite (step_exit _ k 1) by apply procs_set_pc. reflexivity.
  - proj. repeat split; try reflexivity.
    + intros j Hj Hj'. proj. reflexivity.
    + intros i Hi. proj. reflexivity.
Qed.


Lemma feeder_fail_path st k w i f1 f2 f3 :
  procs st k = F_write w i -> rd (pipes st w) = 0 ->
  exists st', run hi cap st [(k, f1); (k, f2); (k, f3)] = Some st' /\
    procs st' k = Zombie 1 /\ errs st' = errs st ++ ["writer: write error"%string] /\
    printed st' = printed st /\ nproc st' = nproc st /\
    plog (pipes st' w) = plog (pipes st w) /\
    wr (pipes st' w) = Nat.pred (wr (pipes st w)) /\
    (forall i, i <> k -> procs st' i = procs st i).
Proof.
  intros E Er. eexists. split.
  - cbn [run]. rewrite (step_feed_fails _ _ _ _ _ E Er).
    rewrite (step_feed_err _ k w) by apply procs_set_pc.
    rewrite (step_feed_exit _ k w) by apply procs_set_pc. reflexivity.
  - proj. repeat split; try reflexivity.
    intros j Hj. proj. reflexivity.
Qed.

End Paths.

(** * Statements about whole runs *)

Lemma outcome_run hi cap sc :
  can_run hi cap sc = true -> run hi cap init sc = Some (outcome hi cap sc).
Proof.
  unfold can_run, outcome. destruct (run hi cap init sc); [reflexivity|discriminate].
Qed.

Ltac by_run := first [apply outcome_run; vm_compute; reflexivity | vm_compute; reflexivity].

(** When nothing was refused and [main] has exited, it has exited with
    status 0 and so has every sieve process, which has been waited for. *)
Lemma driver_done_clean hi cap sc st :
  fault_free sc -> run hi cap init sc = Some st -> exited (procs st 0) = true ->
  procs st 0 = Zombie 0 /\ (forall k, 1 <= k -> k < nproc st -> procs st k = Reaped 0).
Proof.
  intros Hff H Hex.
  pose proof (invariant_run hi cap sc st H) as I.
  pose proof (clean_run hi cap sc st Hff H) as L.
  pose proof (ck_shape (inv_chain I) (ck_nproc (inv_chain I))) as Hs.
  pose proof (cl_pcs L 0) as Hc.
  assert (procs st 0 = Zombie 0) as E0.
  { destruct (procs st 0); simpl in *; try discriminate; try lia.
    apply Z.eqb_eq in Hc. congruence. }
  split; [exact E0|]. intros k H1 Hk.
  destruct (driver_joined st (inv_chain I) (inv_wait I)) with (k := k) as [s Hr];
    [rewrite E0; reflexivity|assumption|assumption|].
  pose proof (cl_pcs L k) as Hck. rewrite Hr in Hck. simpl in Hck.
  apply Z.eqb_eq in Hck. subst s. exact Hr.
Qed.

Lemma driver_done_all hi cap sc st :
  fault_free sc -> run hi cap init sc = Some st -> exited (procs st 0) = true ->
  all_exited st.
Proof.
  intros Hff H Hex k Hk.
  destruct (driver_done_clean hi cap sc st Hff H Hex) as [E0 Ek].
  destruct k as [|k]; [assumption|]. rewrite Ek by lia. reflexivity.
Qed.

(** At the end of a run that fed at least one number, every sieve process
    has printed. *)
Lemma stages_printed hi cap sc st :
  (2 <= hi)%Z -> run hi cap init sc = Some st -> all_exited st ->
  nproc st = S (List.length (printed st)).
Proof.
  intros Hhi H Hex.
  pose proof (invariant_run hi cap sc st H) as I.
  pose proof (first_run hi cap sc st Hhi H) as A.
  pose proof (inv_printed I) as P.
  destruct (@pr_count st P) as [Hlo Hup].
  destruct (Nat.eq_dec (nproc st) (S (S (List.length (printed st))))) as [E|]; [|lia].
  exfalso.
  assert (S (List.length (printed st)) < nproc st) as Hlt by lia.
  pose proof (Hex _ Hlt) as Hx.
  destruct (@pr_todo st P (List.length (printed st)) (le_n _)) as [Ht|[_ (l & p & Hp)]].
  - destruct (@fs_unread st A _ Hlt Ht) as [Hr _].
    destruct (exited_facts _ Hx) as (_ & _ & Hrf & _). congruence.
  - rewrite Hp in Hx. discriminate.
Qed.

(** A sieve process with a child has read its prime and then a number that
    is not a multiple of it. *)
Lemma child_after_survivor hi cap sc st j :
  (2 <= hi)%Z -> run hi cap init sc = Some st -> S (S j) < nproc st ->
  exists p t x, taken (pipes st j) = p :: t /\ In x t /\ nondiv p x = true.
Proof.
  intros Hhi H Hj.
  pose proof (invariant_run hi cap sc st H) as I.
  pose proof (first_run hi cap sc st Hhi H) as A.
  pose proof (inv_chain I) as C. pose proof (inv_flow I) as F.
  assert (S j < nproc st) as Hj1 by lia.
  destruct (taken (pipes st j)) as [|p t] eqn:Et.
  - exfalso. destruct (@fs_unread st A j Hj1 Et) as [Hr _].
    assert (childless (procs st (S j)) = true) as Hc
      by (destruct (procs st (S j)); simpl in *; congruence).
    pose proof (ck_alone C Hj1 Hc). lia.
  - pose proof (fl_at F j) as Fa. unfold flow_at in Fa. rewrite Et in Fa.
    destruct Fa as (Hsub & _).
    assert (plog (pipes st (S j)) ++ pend (procs st (S j)) <> []) as Hne.
    { destruct (taken (pipes st (S j))) as [|q u] eqn:Et1.
      - destruct (@fs_unread st A (S j) Hj Et1) as [_ [Hb|Hp]].
        + unfold plog. rewrite Et1. simpl.
          destruct (buf (pipes st (S j))); [congruence|discriminate].
        + pose proof (ck_shape C Hj1) as Hs.
          destruct (procs st (S j)); simpl in *; try discriminate; try lia;
            apply app_one_not_nil.
      - unfold plog. rewrite Et1. discriminate. }
    destruct (plog (pipes st (S j)) ++ pend (procs st (S j))) as [|x r] eqn:Ex;
      [congruence|].
    assert (In x (filter (nondiv p) t)) as Hin
      by (eapply subseq_In; [exact Hsub|left; reflexivity]).
    apply filter_In in Hin. destruct Hin as [Hin Hnd].
    exists p, t, x. repeat split; assumption.
Qed.

(** What a run in which nothing is refused has printed when [main] has
    exited. *)
Lemma printed_35 cap sc st :
  fault_free sc -> run LIMIT cap init sc = Some st -> exited (procs st 0) = true ->
  printed st = [2; 3; 5; 7; 11; 13; 17; 19; 23; 29; 31]%Z.
Proof.
  intros Hff H Hex.
  pose proof (invariant_run LIMIT cap sc st H) as I.
  pose proof (clean_run LIMIT cap sc st Hff H) as L.
  rewrite (clean_output LIMIT st I L (driver_done_all LIMIT cap sc st Hff H Hex)).
  vm_compute. reflexivity.
Qed.

(** * The claims *)

(** C2, as stated, fails: [pipe] is refused to the first sieve process,
    which reports it and exits with status 1; [main] still exits with
    status 0. *)
Lemma stage_failure_unseen :
  exists st, run LIMIT PIPESIZE init pipe_refused_1 = Some st /\
    completed st = true /\ errs st = ["pipe failed"%string] /\
    exit_status st 1 = Some 1%Z /\ exit_status st 0 = Some 0%Z.
Proof.
  exists (outcome LIMIT PIPESIZE pipe_refused_1). split; [by_run|].
  vm_compute. repeat split.
Qed.

(** C2, amended.  The exit status of [main] is 0 or 1; it is 0 exactly when
    [main] and [feed_numbers] themselves have reported nothing (none of
    "pipe() failed", "fork() failed", "writer: write error"), whatever the
    sieve processes reported; it is 0 when no [pipe] or [fork] was
    refused. *)
Theorem driver_status_own hi cap sc st s :
  run hi cap init sc = Some st -> exit_status st 0 = Some s ->
  (s = 0 \/ s = 1)%Z /\ (s = 0%Z <-> driver_errs st = []) /\
  (fault_free sc -> s = 0%Z).
Proof.
  intros H Hs.
  pose proof (invariant_run hi cap sc st H) as I.
  pose proof (driver_run hi cap sc st H) as D.
  pose proof (driver_status st s (inv_chain I) Hs) as E.
  unfold driver_ok in D. rewrite E in D. split; [|split].
  - destruct D as [[-> _]|[-> _]]; [left|right]; reflexivity.
  - destruct D as [[-> D]|[-> D]]; split; intros H0; try assumption;
      try reflexivity; try discriminate. contradiction.
  - intros Hff.
    destruct (driver_done_clean hi cap sc st Hff H (exit_status_exited st 0 s Hs))
      as [E0 _].
    congruence.
Qed.

Lemma driver_status_own_demo :
  exit_status (outcome LIMIT PIPESIZE early_pipe_refusal) 0 = Some 1%Z /\
  (1 = 0 \/ 1 = 1)%Z /\
  (1%Z = 0%Z <-> driver_errs (outcome LIMIT PIPESIZE early_pipe_refusal) = []) /\
  (fault_free early_pipe_refusal -> 1%Z = 0%Z).
Proof.
  split; [by_run|].
  exact (driver_status_own LIMIT PIPESIZE early_pipe_refusal
           (outcome LIMIT PIPESIZE early_pipe_refusal) 1
           (outcome_run LIMIT PIPESIZE early_pipe_refusal eq_refl) eq_refl).
Defined.

(** C3, as stated, fails: in the run in which nothing is refused, 11 primes
    are printed and 11 sieve processes were created, not 12. *)
Lemma stages_are_primes_demo :
  exists st, run LIMIT PIPESIZE init demo = Some st /\ completed st = true /\
    List.length (printed st) = 11 /\ stages st = 11 /\
    stages st <> List.length (printed st) + 1.
Proof.
  exists (outcome LIMIT PIPESIZE demo). split; [by_run|].
  vm_compute. repeat split. discriminate.
Qed.

(** C3, amended.  For a bound of at least 2 (35 in the program): when every
    process has exited, the number of sieve processes created equals the
    number of primes printed (with [main], one process more); a sieve
    process has a child only after it has read its prime and then a number
    that neither its prime nor the prime of a process before it divides;
    and a process has at most one child. *)
Theorem stages_lazy hi cap sc st :
  (2 <= hi)%Z -> run hi cap init sc = Some st ->
  (all_exited st ->
   stages st = List.length (printed st) /\ nproc st = List.length (printed st) + 1) /\
  (forall j, S (S j) < nproc st ->
   exists p t x, taken (pipes st j) = p :: t /\ In x t /\ Z.rem x p <> 0%Z /\
     forall i q, i < j -> designated st i = Some q -> Z.rem x q <> 0%Z) /\
  (forall k c, c < nproc st -> parent st c = Some k -> c = S k).
Proof.
  intros Hhi H.
  pose proof (invariant_run hi cap sc st H) as I.
  split; [|split].
  - intros Hex. pose proof (stages_printed hi cap sc st Hhi H Hex) as E.
    unfold stages. lia.
  - intros j Hj.
    destruct (child_after_survivor hi cap sc st j Hhi H Hj) as (p & t & x & Et & Hin & Hnd).
    exists p, t, x. split; [exact Et|]. split; [exact Hin|]. split.
    + unfold nondiv in Hnd. apply negb_true_iff in Hnd. apply Z.eqb_neq in Hnd. exact Hnd.
    + intros i q Hi Hq.
      apply (log_nondiv hi st i j q x (inv_flow I) Hi Hq).
      unfold plog. rewrite Et. apply in_or_app. left. right. exact Hin.
  - intros k c Hc Hp. destruct c as [|c].
    + rewrite (ck_root (inv_chain I)) in Hp. discriminate.
    + rewrite (ck_parent (inv_chain I) Hc) in Hp. congruence.
Qed.

Lemma stages_lazy_demo :
  (2 <= LIMIT)%Z /\ completed (outcome LIMIT PIPESIZE demo) = true /\
  stages (outcome LIMIT PIPESIZE demo) = List.length (printed (outcome LIMIT PIPESIZE demo)).
Proof.
  split; [vm_compute; discriminate|]. split; [by_run|].
  assert (2 <= LIMIT)%Z as Hhi by (vm_compute; discriminate).
  destruct (stages_lazy LIMIT PIPESIZE demo (outcome LIMIT PIPESIZE demo) Hhi) as [Hc _];
    [by_run|].
  destruct Hc as [Hc _]; [apply completed_all_exited; by_run|exact Hc].
Defined.

(** C4.  At every point of every run, the designated primes of the sieve
    processes increase strictly along the chain, and no number ever written
    into the input pipe of a process is a multiple of the designated prime
    of a process before it. *)
Theorem chain_filters hi cap sc st :
  run hi cap init sc = Some st ->
  (forall i i' p p', i < i' -> designated st i = Some p -> designated st i' = Some p' ->
                     (p < p')%Z) /\
  (forall i j p v, i < j -> designated st i = Some p -> In v (plog (pipes st j)) ->
                   Z.rem v p <> 0%Z).
Proof.
  intros H. pose proof (invariant_run hi cap sc st H) as I. split.
  - intros i i' p p'. apply (designated_increasing hi st i i' p p' (inv_chain I) (inv_flow I)).
  - intros i j p v. apply (log_nondiv hi st i j p v (inv_flow I)).
Qed.

Lemma chain_filters_demo :
  designated (outcome LIMIT PIPESIZE demo) 1 = Some 3%Z /\
  designated (outcome LIMIT PIPESIZE demo) 4 = Some 11%Z /\ (3 < 11)%Z.
Proof.
  split; [by_run|]. split; [by_run|].
  destruct (chain_filters LIMIT PIPESIZE demo (outcome LIMIT PIPESIZE demo)) as [Hi _];
    [by_run|].
  apply (Hi 1 4 3%Z 11%Z); [repeat constructor|by_run|by_run].
Defined.




(** C6.  For every bound of the feeder and every pipe that buffers at least
    one int: a run has at most [step_bound hi] steps, so none goes on for
    ever; at every point of it either every process has exited or some
    process can take a step, so none is stuck; and it can always be carried
    on until every process, [main] included, has exited. *)
Theorem pipeline_terminates hi cap sc st :
  1 <= cap -> run hi cap init sc = Some st ->
  (Z.of_nat (List.length sc) <= step_bound hi)%Z /\
  (all_exited st \/ exists k, runnable hi cap st k) /\
  (exists sc' st', fault_free sc' /\ run hi cap st sc' = Some st' /\
                   all_exited st' /\ exited (procs st' 0) = true).
Proof.
  intros Hcap H. split; [|split].
  - apply (run_bounded hi cap sc st H).
  - apply (progress hi cap Hcap st (inv_chain (invariant_run hi cap sc st H))).
  - destruct (completes hi cap Hcap sc st H) as (sc' & st' & Hff & Hr & Hex).
    exists sc', st'. repeat split; try assumption.
    assert (run hi cap init (sc ++ sc') = Some st') as H' by (rewrite run_app, H; exact Hr).
    apply Hex. apply (ck_nproc (inv_chain (invariant_run hi cap (sc ++ sc') st' H'))).
Qed.

Lemma pipeline_terminates_demo :
  1 <= PIPESIZE /\
  (Z.of_nat (List.length early_fork_refusal) <= step_bound LIMIT)%Z /\
  (all_exited (outcome LIMIT PIPESIZE early_fork_refusal) \/
   exists k, runnable LIMIT PIPESIZE (outcome LIMIT PIPESIZE early_fork_refusal) k).
Proof.
  assert (1 <= PIPESIZE) as Hcap by (vm_compute; repeat constructor).
  split; [exact Hcap|].
  destruct (pipeline_terminates LIMIT PIPESIZE early_fork_refusal
              (outcome LIMIT PIPESIZE early_fork_refusal) Hcap) as (Hb & Hp & _);
    [by_run|].
  split; assumption.
Defined.

(** [main] at the [close] of line 153. *)
Lemma driver_close hi cap st w :
  chain_ok st -> flow_ok hi subseq st -> procs st 0 = M_closeW w ->
  w = 0 /\ 1 <= wr (pipes st 0) /\
  exists st', run hi cap st [(0, false)] = Some st' /\
    procs st' 0 = P_wait /\
    wr (pipes st' 0) = Nat.pred (wr (pipes st 0)) /\
    plog (pipes st' 0) = zrange 2 hi /\ errs st' = errs st.
Proof.
  intros C F E.
  pose proof (ck_shape C (ck_nproc C)) as Hs. rewrite E in Hs. simpl in Hs.
  destruct Hs as [_ ->]. split; [reflexivity|].
  pose proof (fl_feed F) as Hf. rewrite E in Hf.
  split.
  - rewrite (ck_wr C 0).
    apply (Nat.le_trans _ (holds_w (procs st 0) 0)); [rewrite E; exact (le_n 1)|].
    apply (sumn_ge (nproc st) (fun k => holds_w (procs st k) 0) 0 (ck_nproc C)).
  - exists (set_pc (close_w st 0) 0 P_wait). split.
    + simpl. unfold step. rewrite E. reflexivity.
    + split; [|split; [|split]].
      * reflexivity.
      * reflexivity.
      * exact Hf.
      * reflexivity.
Qed.

(** Who can hold the write end of the first pipe. *)
Lemma driver_closed st :
  chain_ok st -> procs st 0 = P_wait \/ exit_status st 0 = Some 0%Z ->
  procs st 1 <> M_child_closeW 0 -> wr (pipes st 0) = 0.
Proof.
  intros C Hm Hc. rewrite (ck_wr C 0). apply sumn_zero. intros k Hk.
  pose proof (ck_shape C Hk) as Hs.
  destruct k as [|k].
  - destruct Hm as [E|E]; [rewrite E; reflexivity|].
    unfold exit_status in E. destruct (procs st 0); try discriminate; reflexivity.
  - destruct (procs st (S k)) eqn:E; simpl in Hs |- *; try reflexivity;
      unfold eqn;
      try (destruct Hs as [Hs1 Hs2]); try lia;
      try (match goal with |- (if Nat.eqb ?a 0 then 1 else 0) = 0 =>
             destruct (Nat.eqb_spec a 0) as [Ea|Ea]; [|reflexivity] end);
      try lia.
    all: try (exfalso; apply Hc;
              assert (k = 0) by lia; subst; rewrite E; f_equal; lia).
Qed.

Lemma feeder_failure_fatal st :
  driver_ok st -> In "writer: write error"%string (errs st) ->
  (exists w, procs st 0 = F_exit w) \/ procs st 0 = Zombie 1.
Proof.
  intros D Hin.
  assert (In "writer: write error"%string (driver_errs st)) as Hd
    by (unfold driver_errs; apply filter_In; split; [exact Hin|reflexivity]).
  unfold driver_ok in D.
  destruct (procs st 0) eqn:E;
    try (rewrite D in Hd; simpl in Hd; intuition discriminate).
  - left. eexists. reflexivity.
  - destruct D as [[_ D]|[_ D]]; rewrite D in Hd; simpl in Hd; intuition discriminate.
  - destruct D as [[_ D]|[-> _]]; [|right; reflexivity].
    rewrite D in Hd. destruct Hd.
Qed.

(** C7, as stated, fails: the first sieve process closes its input after
    reading 2 and 3, the write of 4 fails, and [main] exits with status 1:
    the failure ends the driver, and 4..35 are never written. *)
Lemma feeder_failure_ends_driver :
  exists st, run LIMIT PIPESIZE init feeder_write_fails = Some st /\
    errs st = ["fork failed"; "writer: write error"]%string /\
    plog (pipes st 0) = [2; 3]%Z /\ exit_status st 0 = Some 1%Z /\
    exited (procs st 1) = false.
Proof.
  exists (outcome LIMIT PIPESIZE feeder_write_fails). split; [by_run|].
  vm_compute. repeat split.
Qed.

(** C7, amended.  What [feed_numbers] has written is, at every point, an
    initial part of 2..[hi] in ascending order, and all of it once the loop
    is over ([main] is about to close the write end, waits, or has exited
    with status 0).  After the last number [main] closes the write end: it
    stands at the [close] of line 153 with all of 2..[hi] written, its next
    step releases its descriptor on the write end of the pipe and takes it
    to its [wait], and once it waits or has exited with status 0 no write
    end of the pipe is open any more, unless its child has not yet closed
    the copy it inherited.  A failed write is reported and ends the driver:
    after "writer: write error" the process is at its [exit(1)] or has
    exited with status 1; when the pipe has no reader the process goes from
    the [write] to that exit in three steps of its own, which write nothing
    more and release the write end. *)
Theorem feeder_writes hi cap sc st :
  run hi cap init sc = Some st ->
  (exists rest, plog (pipes st 0) ++ rest = zrange 2 hi) /\
  increasing (plog (pipes st 0)) /\
  ((exists w, procs st 0 = M_closeW w) \/ procs st 0 = P_wait \/
   exit_status st 0 = Some 0%Z -> plog (pipes st 0) = zrange 2 hi) /\
  (In "writer: write error"%string (errs st) ->
   (exists w, procs st 0 = F_exit w) \/ procs st 0 = Zombie 1) /\
  (forall w i, procs st 0 = F_write w i -> rd (pipes st w) = 0 ->
   exists st', run hi cap st [(0, false); (0, false); (0, false)] = Some st' /\
     procs st' 0 = Zombie 1 /\
     errs st' = errs st ++ ["writer: write error"%string] /\
     plog (pipes st' w) = plog (pipes st w) /\
     wr (pipes st' w) = Nat.pred (wr (pipes st w))) /\
  (forall w, procs st 0 = M_closeW w ->
   w = 0 /\ 1 <= wr (pipes st 0) /\
   exists st', run hi cap st [(0, false)] = Some st' /\
     procs st' 0 = P_wait /\
     wr (pipes st' 0) = Nat.pred (wr (pipes st 0)) /\
     plog (pipes st' 0) = zrange 2 hi /\ errs st' = errs st) /\
  (procs st 0 = P_wait \/ exit_status st 0 = Some 0%Z ->
   procs st 1 <> M_child_closeW 0 -> wr (pipes st 0) = 0).
Proof.
  intros H. pose proof (invariant_run hi cap sc st H) as I.
  pose proof (inv_chain I) as C. pose proof (inv_flow I) as F.
  split; [|split; [|split; [|split; [|split; [|split]]]]].
  - apply (feed_prefix hi st C F).
  - apply (log_increasing hi st 0 C F).
  - pose proof (fl_feed F) as Hf. intros [[w E]|[E|E]].
    + rewrite E in Hf. exact Hf.
    + rewrite E in Hf. exact Hf.
    + rewrite (driver_status st 0 C E) in Hf. apply Hf. reflexivity.
  - apply feeder_failure_fatal. apply (driver_run hi cap sc st H).
  - intros w i E Hr.
    destruct (feeder_fail_path hi cap st 0 w i false false false E Hr)
      as (st' & Hrun & Hz & He & _ & _ & Hl & Hw & _).
    exists st'. repeat split; assumption.
  - intros w E. apply (driver_close hi cap st w C F E).
  - intros Hm Hc. apply (driver_closed st C Hm Hc).
Qed.

Lemma feeder_writes_demo :
  exists rest, plog (pipes (outcome LIMIT PIPESIZE feeder_write_fails) 0) ++ rest
               = zrange 2 LIMIT.
Proof.
  destruct (feeder_writes LIMIT PIPESIZE feeder_write_fails
              (outcome LIMIT PIPESIZE feeder_write_fails)) as (Hp & _); [by_run|].
  exact Hp.
Defined.

(** A sieve process to which [pipe] or [fork] is refused. *)
Lemma refused_path hi cap st k :
  chain_ok st -> k < nproc st -> at_pipe (procs st k) || at_spawn (procs st k) = true ->
  exists sc1 st1,
    run hi cap st ((k, true) :: sc1) = Some st1 /\
    (forall x, In x sc1 -> fst x = k) /\
    procs st1 k = Zombie 1 /\
    (errs st1 = errs st ++ ["pipe failed"%string] \/
     errs st1 = errs st ++ ["fork failed"%string]) /\
    printed st1 = printed st /\
    (forall j, rd (pipes st1 j) = rd (pipes st j) - holds_r (procs st k) j /\
               wr (pipes st1 j) = wr (pipes st j) - holds_w (procs st k) j).
Proof.
  intros C Hk Hat. pose proof (ck_shape C Hk) as Hs.
  destruct (procs st k) eqn:E; try discriminate Hat.
  - rename leftfd into l, first into x.
    destruct (pipe_refused_path hi cap st k l p x false false false E)
      as (st1 & Hr & Hz & He & Hp & _ & _ & Hrd & Hwr & Hj & _).
    exists [(k, false); (k, false); (k, false)], st1.
    split; [exact Hr|]. split.
    { intros y Hy. simpl in Hy. intuition (subst; reflexivity). }
    split; [exact Hz|]. split; [left; exact He|]. split; [exact Hp|].
    intros j. simpl. unfold eqn. destruct (Nat.eqb_spec l j) as [Elj|Elj].
    + subst j. rewrite Hrd, Hwr. lia.
    + rewrite Hj by congruence. lia.
  - rename leftfd into l, first into x, next into n.
    simpl in Hs. destruct Hs as [Hl Hn].
    assert (l <> n) as Hln by lia.
    destruct (fork_refused_path hi cap st k l p x n false false false false false E Hln)
      as (st1 & Hr & Hz & He & Hp & _ & _ & Hrl & Hwl & Hrn & Hwn & Hj & _).
    exists [(k, false); (k, false); (k, false); (k, false); (k, false)], st1.
    split; [exact Hr|]. split.
    { intros y Hy. simpl in Hy. intuition (subst; reflexivity). }
    split; [exact Hz|]. split; [right; exact He|]. split; [exact Hp|].
    intros j. simpl. unfold eqn.
    destruct (Nat.eqb_spec l j) as [Elj|Elj]; destruct (Nat.eqb_spec n j) as [Enj|Enj].
    + lia.
    + subst j. rewrite Hrl, Hwl. lia.
    + subst j. rewrite Hrn, Hwn. lia.
    + rewrite Hj by congruence. lia.
Qed.

(** The exit status of [main] and what [main] itself has reported. *)
Lemma status_own hi cap sc st s :
  run hi cap init sc = Some st -> exit_status st 0 = Some s ->
  (s = 0 \/ s = 1)%Z /\ (s = 0%Z <-> driver_errs st = []).
Proof.
  intros H Hs.
  pose proof (invariant_run hi cap sc st H) as I.
  pose proof (driver_run hi cap sc st H) as D.
  pose proof (driver_status st s (inv_chain I) Hs) as E.
  unfold driver_ok in D. rewrite E in D. split.
  - destruct D as [[-> _]|[-> _]]; [left|right]; reflexivity.
  - destruct D as [[-> D]|[-> D]]; split; intros H0; try assumption;
      try reflexivity; try discriminate. contradiction.
Qed.

(** C8, as stated, fails: [fork] is refused to the third sieve process when
    it is to create the fourth; 2, 3 and 5 are printed, that process exits
    with status 1, every process exits, and the exit status of [main], the
    status of the program, is 0. *)
Lemma spawn_failure_status_zero :
  exists st, run LIMIT PIPESIZE init fork_refused_3 = Some st /\
    completed st = true /\ printed st = [2; 3; 5]%Z /\
    errs st = ["fork failed"%string] /\
    exit_status st 3 = Some 1%Z /\ exit_status st 0 = Some 0%Z.
Proof.
  exists (outcome LIMIT PIPESIZE fork_refused_3). split; [by_run|].
  vm_compute. repeat split.
Qed.

(** C8, amended.  A sieve process to which [pipe] or [fork] is refused
    goes on by itself, whatever the other processes do, to report it
    ("pipe failed" or "fork failed"), close every descriptor it holds and
    exit with status 1; what was printed stays printed, there and in
    whatever follows; and whatever follows can be carried on until every
    process has exited.  The status 1 is that of the sieve process, and
    [wait(0)] discards it: the report is none of those of [main], and in
    whatever follows the exit status of [main], the status of the program,
    is 0 or 1, and 0 exactly when [main] and [feed_numbers] themselves have
    reported nothing. *)
Theorem spawn_refused hi cap sc st k :
  1 <= cap -> run hi cap init sc = Some st ->
  at_pipe (procs st k) || at_spawn (procs st k) = true ->
  exists sc1 st1,
    run hi cap st ((k, true) :: sc1) = Some st1 /\
    (forall x, In x sc1 -> fst x = k) /\
    exit_status st1 k = Some 1%Z /\
    (errs st1 = errs st ++ ["pipe failed"%string] \/
     errs st1 = errs st ++ ["fork failed"%string]) /\
    printed st1 = printed st /\
    (forall j, rd (pipes st1 j) = rd (pipes st j) - holds_r (procs st k) j /\
               wr (pipes st1 j) = wr (pipes st j) - holds_w (procs st k) j) /\
    driver_errs st1 = driver_errs st /\
    (forall sc2 st2, run hi cap st1 sc2 = Some st2 ->
       (exists more, printed st2 = printed st ++ more) /\
       (exists sc3 st3, fault_free sc3 /\ run hi cap st2 sc3 = Some st3 /\ all_exited st3) /\
       (forall s, exit_status st2 0 = Some s ->
          (s = 0 \/ s = 1)%Z /\ (s = 0%Z <-> driver_errs st2 = []))).
Proof.
  intros Hcap H Hat.
  pose proof (inv_chain (invariant_run hi cap sc st H)) as C.
  assert (k < nproc st) as Hk.
  { destruct (Nat.lt_ge_cases k (nproc st)) as [Hlt|Hge]; [exact Hlt|].
    rewrite (ck_unused C Hge) in Hat. discriminate. }
  destruct (refused_path hi cap st k C Hk Hat)
    as (sc1 & st1 & Hr & Honly & Hz & He & Hp & Hfd).
  exists sc1, st1. split; [exact Hr|]. split; [exact Honly|].
  split; [unfold exit_status; rewrite Hz; reflexivity|].
  split; [exact He|]. split; [exact Hp|]. split; [exact Hfd|].
  split.
  { unfold driver_errs. destruct He as [-> | ->]; rewrite filter_app;
      simpl; apply app_nil_r. }
  intros sc2 st2 H2.
  assert (run hi cap init (sc ++ ((k, true) :: sc1) ++ sc2) = Some st2) as Hall
    by (rewrite run_app, H, run_app, Hr; exact H2).
  split; [|split].
  - rewrite <- Hp. apply (printed_grows_run hi cap sc2 st1 st2 H2).
  - apply (completes hi cap Hcap (sc ++ ((k, true) :: sc1) ++ sc2) st2). exact Hall.
  - intros s Hs. apply (status_own hi cap _ st2 s Hall Hs).
Qed.

Lemma spawn_refused_demo :
  procs (outcome LIMIT PIPESIZE (before_refusal fork_refused_3)) 3 = S_fork 2 5 7 3 /\
  exists sc1 st1,
    run LIMIT PIPESIZE (outcome LIMIT PIPESIZE (before_refusal fork_refused_3))
        ((3, true) :: sc1) = Some st1 /\
    exit_status st1 3 = Some 1%Z /\
    printed st1 = printed (outcome LIMIT PIPESIZE (before_refusal fork_refused_3)).
Proof.
  split; [by_run|].
  assert (1 <= PIPESIZE) as Hcap by (vm_compute; repeat constructor).
  destruct (spawn_refused LIMIT PIPESIZE (before_refusal fork_refused_3)
              (outcome LIMIT PIPESIZE (before_refusal fork_refused_3)) 3 Hcap)
    as (sc1 & st1 & Hr & _ & Hz & _ & Hp & _); [by_run|by_run|].
  exists sc1, st1. repeat split; assumption.
Defined.





(** * Further properties of primes.c *)

(** ** Descriptors *)

(** X1.  When every process has exited, no end of any pipe is open. *)
Theorem no_descriptor_left hi cap sc st :
  run hi cap init sc = Some st -> all_exited st ->
  forall j, rd (pipes st j) = 0 /\ wr (pipes st j) = 0.
Proof.
  intros H Hex j. pose proof (inv_chain (invariant_run hi cap sc st H)) as C.
  rewrite (ck_rd C j), (ck_wr C j).
  split; apply sumn_zero; intros i Hi; apply exited_holds; apply Hex; exact Hi.
Qed.

Lemma no_descriptor_left_demo :
  completed (outcome LIMIT PIPESIZE fork_refused_3) = true /\
  rd (pipes (outcome LIMIT PIPESIZE fork_refused_3) 2) = 0 /\
  wr (pipes (outcome LIMIT PIPESIZE fork_refused_3) 2) = 0.
Proof.
  split; [by_run|].
  apply (no_descriptor_left LIMIT PIPESIZE fork_refused_3
           (outcome LIMIT PIPESIZE fork_refused_3)).
  - by_run.
  - apply completed_all_exited. by_run.
Defined.

(** ** The writes *)

(** The pipe into which a sieve process writes its first number has a
    reader: the child has not read anything yet, so it has not closed its
    input. *)
Lemma first_write_has_reader hi cap sc st k l p f n :
  run hi cap init sc = Some st -> procs st k = S_write_first l p f n ->
  rd (pipes st n) <> 0.
Proof.
  intros H E. pose proof (invariant_run hi cap sc st H) as I.
  pose proof (inv_chain I) as C. pose proof (inv_flow I) as F.
  assert (k < nproc st) as Hk.
  { destruct (Nat.lt_ge_cases k (nproc st)) as [Hlt|Hge]; [exact Hlt|].
    rewrite (ck_unused C Hge) in E. discriminate. }
  pose proof (ck_shape C Hk) as Hs. rewrite E in Hs. simpl in Hs.
  destruct Hs as [Hl Hn]. subst n.
  destruct (Z_lt_le_dec hi 2) as [Hlo|Hhi].
  - exfalso. subst k.
    destruct (flow_prime hi subseq st l p F) as [t Ht]; [rewrite E; reflexivity|].
    pose proof (log_range hi st l C F) as Hr. rewrite (zrange_nil 2 hi Hlo) in Hr.
    unfold plog in Hr. rewrite Ht in Hr. inversion Hr.
  - pose proof (first_run hi cap sc st Hhi H) as A.
    assert (S k < nproc st) as Hc by (apply (ck_child C Hk); rewrite E; reflexivity).
    assert (plog (pipes st k) = []) as Hp
      by (apply (@fs_pending st A k Hk); rewrite E; reflexivity).
    assert (taken (pipes st k) = []) as Ht
      by (unfold plog in Hp; apply app_eq_nil in Hp; apply Hp).
    destruct (@fs_unread st A k Hc Ht) as [Hr _].
    pose proof (reads_first_holds st k C Hc Hr). lia.
Qed.

Lemma reachable_step hi cap st k f st' :
  reachable hi cap st -> step hi cap st k f = Some st' -> reachable hi cap st'.
Proof.
  intros [sc H] Hs. exists (sc ++ [(k, f)]). rewrite run_app, H. simpl.
  rewrite Hs. reflexivity.
Qed.

Lemma reachable_run hi cap sc st : run hi cap init sc = Some st -> reachable hi cap st.
Proof. intros H. exists sc. exact H. Qed.

Lemma never_first_err_step hi cap st k f st' :
  reachable hi cap st ->
  (forall i l p n, procs st i <> S_write_first_err l p n) ->
  step hi cap st k f = Some st' ->
  forall i l p n, procs st' i <> S_write_first_err l p n.
Proof.
  intros [sc Hr] Hno H.
  pose proof (inv_chain (invariant_run hi cap sc st Hr)) as C.
  pose proof (fun l p x n => first_write_has_reader hi cap sc st k l p x n Hr) as Hfw.
  step_start C H.
  all: intros i' l0 p0 n0; specialize (Hno i' l0 p0 n0).
  all: try (specialize (Hfw _ _ _ _ eq_refl)).
  all: unfold upd; repeat match goal with
       | |- context [Nat.eqb ?a ?b] => destruct (Nat.eqb a b)
       end; try discriminate; try assumption.
  all: apply Nat.eqb_eq in Erd; contradiction.
Qed.

(** X2.  The first number a sieve process hands to its new child is never
    lost: the [write] of line 84 always finds the read end open, and no
    process ever stands at line 85. *)
Theorem first_write_succeeds hi cap sc st :
  run hi cap init sc = Some st ->
  (forall k l p f n, procs st k = S_write_first l p f n -> sys_write cap st n f <> WErr) /\
  (forall k l p n, procs st k <> S_write_first_err l p n).
Proof.
  intros H. split.
  - intros k l p f n E. pose proof (first_write_has_reader hi cap sc st k l p f n H E) as Hr.
    unfold sys_write. apply Nat.eqb_neq in Hr. rewrite Hr.
    destruct (Nat.ltb _ cap); discriminate.
  - assert (reachable hi cap st /\
            forall i l p n, procs st i <> S_write_first_err l p n) as [_ A]; [|exact A].
    revert H. apply (run_keeps hi cap (fun st => reachable hi cap st /\
            forall i l p n, procs st i <> S_write_first_err l p n)).
    + intros s k f s' [Hr Hno] Hs. split; [eapply reachable_step; eassumption|].
      eapply never_first_err_step; eassumption.
    + split; [exists []; reflexivity|]. intros i l p n. simpl. unfold upd.
      destruct (Nat.eqb i 0); discriminate.
Qed.

Lemma subseq_app_length a b x : subseq (a ++ [x]) b -> List.length a < List.length b.
Proof.
  intros H. apply subseq_length in H. rewrite length_app in H. simpl in H. lia.
Qed.

(** A writer finds room in its pipe when the pipe holds all of 2..[hi]
    but one. *)
Lemma write_has_room hi cap sc st k :
  (hi - 1 <= Z.of_nat cap)%Z -> run hi cap init sc = Some st ->
  writing (procs st k) = true ->
  forall w, 0 < holds_w (procs st k) w -> List.length (buf (pipes st w)) < cap.
Proof.
  intros Hcap H Hw w Hh. pose proof (invariant_run hi cap sc st H) as I.
  pose proof (inv_chain I) as C. pose proof (inv_flow I) as F.
  assert (k < nproc st) as Hk.
  { destruct (Nat.lt_ge_cases k (nproc st)) as [Hlt|Hge]; [exact Hlt|].
    rewrite (ck_unused C Hge) in Hw. discriminate. }
  pose proof (ck_shape C Hk) as Hs.
  assert (List.length (buf (pipes st w)) <= List.length (plog (pipes st w))) as Hb
    by (unfold plog; rewrite length_app; lia).
  assert (forall j, List.length (plog (pipes st j)) <= Z.to_nat (hi - 1)) as Hlen.
  { intros j. pose proof (subseq_length _ _ (log_range hi st j C F)) as Hl.
    rewrite zrange_length in Hl. replace (hi - 2 + 1)%Z with (hi - 1)%Z in Hl by lia.
    exact Hl. }
  destruct (procs st k) eqn:E; try discriminate Hw; simpl in Hs, Hh; unfold eqn in Hh.
  - (* feed_numbers *)
    destruct Hs as [-> ->].
    destruct (Nat.eq_dec 0 w) as [<-|Hw0];
      [|apply Nat.eqb_neq in Hw0; rewrite Hw0 in Hh; lia].
    pose proof (fl_feed F) as Hf. rewrite E in Hf. simpl in Hf. destruct Hf as [Hf Hi].
    apply (f_equal (@List.length Z)) in Hf. rewrite length_app, !zrange_length in Hf.
    lia.
  - (* the first number *)
    destruct Hs as [Hl ->].
    destruct (Nat.eq_dec k w) as [<-|Hw0];
      [|apply Nat.eqb_neq in Hw0; rewrite Hw0 in Hh; lia].
    subst k.
    destruct (flow_prime hi subseq st leftfd p F) as [t Ht]; [rewrite E; reflexivity|].
    pose proof (fl_at F leftfd) as Fa. unfold flow_at in Fa. rewrite Ht, E in Fa.
    simpl in Fa. destruct Fa as (Hsub & _).
    apply subseq_app_length in Hsub.
    pose proof (filter_length_le (nondiv p) t) as Hfl.
    pose proof (Hlen leftfd) as Hl0. unfold plog in Hl0. rewrite Ht, length_app in Hl0.
    simpl in Hl0. lia.
  - (* the following ones *)
    destruct Hs as [Hl ->].
    destruct (Nat.eq_dec k w) as [<-|Hw0];
      [|apply Nat.eqb_neq in Hw0; rewrite Hw0 in Hh; lia].
    subst k.
    destruct (flow_prime hi subseq st leftfd p F) as [t Ht]; [rewrite E; reflexivity|].
    pose proof (fl_at F leftfd) as Fa. unfold flow_at in Fa. rewrite Ht, E in Fa.
    simpl in Fa. destruct Fa as (Hsub & _).
    apply subseq_app_length in Hsub.
    pose proof (filter_length_le (nondiv p) t) as Hfl.
    pose proof (Hlen leftfd) as Hl0. unfold plog in Hl0. rewrite Ht, length_app in Hl0.
    simpl in Hl0. lia.
Qed.

(** X3.  When a pipe buffers at least [hi - 1] ints (128 against 34 in
    xv6), no [write] of the program ever has to wait: a process that stands
    at a [write] can take its step. *)
Theorem writes_never_block hi cap sc st k :
  (hi - 1 <= Z.of_nat cap)%Z -> run hi cap init sc = Some st ->
  writing (procs st k) = true -> runnable hi cap st k.
Proof.
  intros Hcap H Hw.
  pose proof (write_has_room hi cap sc st k Hcap H Hw) as Hroom.
  unfold runnable, step.
  destruct (procs st k) eqn:E; try discriminate Hw; unfold sys_write.
  - specialize (Hroom wfd). simpl in Hroom. unfold eqn in Hroom.
    rewrite Nat.eqb_refl in Hroom. specialize (Hroom (Nat.lt_0_succ 0)).
    apply Nat.ltb_lt in Hroom. rewrite Hroom.
    destruct (Nat.eqb (rd (pipes st wfd)) 0); discriminate.
  - specialize (Hroom next). simpl in Hroom. unfold eqn in Hroom.
    rewrite Nat.eqb_refl in Hroom. specialize (Hroom (Nat.lt_0_succ 0)).
    apply Nat.ltb_lt in Hroom. rewrite Hroom.
    destruct (Nat.eqb (rd (pipes st next)) 0); discriminate.
  - specialize (Hroom next). simpl in Hroom. unfold eqn in Hroom.
    rewrite Nat.eqb_refl in Hroom. specialize (Hroom (Nat.lt_0_succ 0)).
    apply Nat.ltb_lt in Hroom. rewrite Hroom.
    destruct (Nat.eqb (rd (pipes st next)) 0); discriminate.
Qed.

Lemma first_write_succeeds_demo :
  procs (outcome LIMIT PIPESIZE (firstn 45 demo)) 1 = S_write_first 0 2 3 1 /\
  sys_write PIPESIZE (outcome LIMIT PIPESIZE (firstn 45 demo)) 1 3 <> WErr.
Proof.
  split; [by_run|].
  destruct (first_write_succeeds LIMIT PIPESIZE (firstn 45 demo)
              (outcome LIMIT PIPESIZE (firstn 45 demo))) as [Hw _]; [by_run|].
  apply (Hw 1 0 2%Z 3%Z 1). by_run.
Defined.

Lemma writes_never_block_demo :
  (LIMIT - 1 <= Z.of_nat PIPESIZE)%Z /\
  writing (procs (outcome LIMIT PIPESIZE (firstn 45 demo)) 1) = true /\
  runnable LIMIT PIPESIZE (outcome LIMIT PIPESIZE (firstn 45 demo)) 1.
Proof.
  assert (LIMIT - 1 <= Z.of_nat PIPESIZE)%Z as Hcap by (vm_compute; discriminate).
  split; [exact Hcap|]. split; [by_run|].
  apply (writes_never_block LIMIT PIPESIZE (firstn 45 demo)
           (outcome LIMIT PIPESIZE (firstn 45 demo)) 1 Hcap); by_run.
Defined.

(** ** The end of a run in which nothing is refused *)

(** X4.  When nothing is refused and [main] has exited, every process has
    exited with status 0, every pipe is empty, the first sieve process has
    read all of 2..[hi], and every further one has read exactly the numbers
    that the process before it read after its prime and that its prime
    does not divide. *)
Theorem clean_end hi cap sc st :
  fault_free sc -> run hi cap init sc = Some st -> exited (procs st 0) = true ->
  (forall k, k < nproc st -> exit_status st k = Some 0%Z) /\
  (forall j, buf (pipes st j) = []) /\
  taken (pipes st 0) = zrange 2 hi /\
  (forall j p t, taken (pipes st j) = p :: t ->
                 taken (pipes st (S j)) = filter (nondiv p) t).
Proof.
  intros Hff H Hex.
  pose proof (invariant_run hi cap sc st H) as I.
  pose proof (clean_run hi cap sc st Hff H) as L.
  pose proof (driver_done_all hi cap sc st Hff H Hex) as Hall.
  destruct (driver_done_clean hi cap sc st Hff H Hex) as [E0 Ek].
  assert (forall j, buf (pipes st j) = []) as Hbuf.
  { intros j. destruct (Nat.lt_ge_cases (S j) (nproc st)) as [Hlt|Hge].
    - apply (@cl_drained hi st L j Hlt).
      destruct (exited_facts _ (Hall _ Hlt)) as (_ & Hp & _). exact Hp.
    - pose proof (@fl_empty hi subseq st (inv_flow I) j Hge) as He.
      unfold plog in He. apply app_eq_nil in He. apply He. }
  split; [|split; [exact Hbuf|split]].
  - intros k Hk. unfold exit_status. destruct k as [|k].
    + rewrite E0. reflexivity.
    + rewrite Ek by lia. reflexivity.
  - pose proof (fl_feed (cl_flow L)) as Hf. rewrite E0 in Hf. simpl in Hf.
    destruct Hf as [_ Hf]. specialize (Hf eq_refl). unfold plog in Hf.
    rewrite Hbuf, app_nil_r in Hf. exact Hf.
  - intros j p t Ht. pose proof (fl_at (cl_flow L) j) as Fa. unfold flow_at in Fa.
    rewrite Ht in Fa. destruct Fa as (Heq & _ & _ & Hlt).
    destruct (exited_facts _ (Hall _ Hlt)) as (Hp & _).
    rewrite Hp, app_nil_r in Heq. unfold plog in Heq.
    rewrite Hbuf, app_nil_r in Heq. exact Heq.
Qed.

Lemma clean_end_demo :
  fault_free demo /\
  taken (pipes (outcome LIMIT PIPESIZE demo) 0) = zrange 2 LIMIT /\
  taken (pipes (outcome LIMIT PIPESIZE demo) 1) = filter (nondiv 2) (zrange 3 LIMIT).
Proof.
  split; [by_run|].
  destruct (clean_end LIMIT PIPESIZE demo (outcome LIMIT PIPESIZE demo))
    as (_ & _ & H0 & Hn); [by_run|by_run|by_run|].
  split; [exact H0|]. apply (Hn 0 2%Z (zrange 3 LIMIT)). exact H0.
Defined.

(** ** [main] is refused its pipe or its child *)

(** X5.  When [pipe] is refused to [main], the only process there is
    reports "pipe() failed" and exits with status 1 after two more steps,
    without creating a pipe or a process and without printing. *)
Theorem main_pipe_refused hi cap sc st :
  run hi cap init ((0, true) :: sc) = Some st ->
  nproc st = 1 /\ npipe st = 0 /\ printed st = [] /\ List.length sc <= 2 /\
  (forall x, In x sc -> fst x = 0) /\
  (List.length sc = 2 ->
   exit_status st 0 = Some 1%Z /\ errs st = ["pipe() failed"%string]).
Proof.
  intros H. simpl in H.
  destruct sc as [|[[|k] f1] sc]; simpl in H; try discriminate H.
  { injection H as <-. repeat split; simpl; try lia; try discriminate; intros x []. }
  destruct sc as [|[[|k] f2] sc]; simpl in H; try discriminate H.
  { injection H as <-. repeat split; simpl; try lia; try discriminate.
    intros x [<-|[]]. reflexivity. }
  destruct sc as [|[[|k] f3] sc]; simpl in H; try discriminate H.
  injection H as <-. repeat split; simpl; try lia.
  intros x [<-|[<-|[]]]; reflexivity.
Qed.

Lemma main_pipe_refused_demo :
  exit_status (outcome LIMIT PIPESIZE [(0, true); (0, false); (0, false)]) 0 = Some 1%Z /\
  errs (outcome LIMIT PIPESIZE [(0, true); (0, false); (0, false)]) =
    ["pipe() failed"%string].
Proof.
  destruct (main_pipe_refused LIMIT PIPESIZE [(0, false); (0, false)]
              (outcome LIMIT PIPESIZE [(0, true); (0, false); (0, false)]))
    as (_ & _ & _ & _ & _ & He); [by_run|].
  apply He. reflexivity.
Defined.

(** X6.  When [fork] is refused to [main], it reports "fork() failed" and
    exits with status 1 after two more steps, which closes both ends of the
    pipe; no process was created and nothing is printed. *)
Theorem main_fork_refused hi cap sc st :
  run hi cap init ((0, false) :: (0, true) :: sc) = Some st ->
  nproc st = 1 /\ npipe st = 1 /\ printed st = [] /\ List.length sc <= 2 /\
  (forall x, In x sc -> fst x = 0) /\
  (List.length sc = 2 ->
   exit_status st 0 = Some 1%Z /\ errs st = ["fork() failed"%string] /\
   rd (pipes st 0) = 0 /\ wr (pipes st 0) = 0).
Proof.
  intros H. simpl in H.
  destruct sc as [|[[|k] f1] sc]; simpl in H; try discriminate H.
  { injection H as <-. repeat split; simpl; try lia; try discriminate; intros x []. }
  destruct sc as [|[[|k] f2] sc]; simpl in H; try discriminate H.
  { injection H as <-. repeat split; simpl; try lia; try discriminate.
    intros x [<-|[]]. reflexivity. }
  destruct sc as [|[[|k] f3] sc]; simpl in H; try discriminate H.
  injection H as <-. repeat split; simpl; try lia.
  intros x [<-|[<-|[]]]; reflexivity.
Qed.

Lemma main_fork_refused_demo :
  exit_status (outcome LIMIT PIPESIZE [(0, false); (0, true); (0, false); (0, false)]) 0
    = Some 1%Z /\
  errs (outcome LIMIT PIPESIZE [(0, false); (0, true); (0, false); (0, false)]) =
    ["fork() failed"%string].
Proof.
  destruct (main_fork_refused LIMIT PIPESIZE [(0, false); (0, false)]
              (outcome LIMIT PIPESIZE [(0, false); (0, true); (0, false); (0, false)]))
    as (_ & _ & _ & _ & _ & He); [by_run|].
  destruct He as (H1 & H2 & _); [reflexivity|]. split; assumption.
Defined.

(** * What is printed is right in every run *)

(** ** The sieve yields the primes *)

Lemma primes_of_cons p t : primes_of (p :: t) = p :: primes_of (filter (nondiv p) t).
Proof.
  unfold primes_of at 1. simpl. f_equal. apply sieve_list_fuel. apply filter_length_le.
Qed.

Lemma zrange_snoc lo hi : (lo <= hi)%Z -> zrange lo hi = zrange lo (hi - 1) ++ [hi].
Proof.
  intros H. unfold zrange.
  replace (Z.to_nat (hi - lo + 1)) with (S (Z.to_nat (hi - 1 - lo + 1))) by lia.
  remember (Z.to_nat (hi - 1 - lo + 1)) as n eqn:En.
  assert (hi = lo + Z.of_nat n)%Z as -> by lia. clear En H.
  revert lo. induction n as [|n IH]; intros lo.
  - simpl. f_equal. lia.
  - change (zcount lo (S (S n))) with (lo :: zcount (lo + 1) (S n)).
    replace (lo + Z.of_nat (S n))%Z with (lo + 1 + Z.of_nat n)%Z by lia.
    rewrite IH. reflexivity.
Qed.

Lemma roughb_succ m v : (2 <= m)%Z -> roughb (m + 1) v = roughb m v && nondiv m v.
Proof.
  intros Hm. unfold roughb. replace (m + 1 - 1)%Z with m by lia.
  rewrite (zrange_snoc 2 m Hm), forallb_app. simpl. rewrite andb_true_r. reflexivity.
Qed.

Lemma roughb_false m v :
  roughb m v = false -> exists d, (2 <= d < m)%Z /\ Z.rem v d = 0%Z.
Proof.
  unfold roughb. intros H.
  destruct (forallb (fun d => nondiv d v) (zrange 2 (m - 1))) eqn:E; [discriminate|].
  clear H. assert (exists d, In d (zrange 2 (m - 1)) /\ nondiv d v = false) as (d & Hin & Hd).
  { induction (zrange 2 (m - 1)) as [|a l IH]; simpl in E; [discriminate|].
    destruct (nondiv a v) eqn:Ea.
    - destruct (IH E) as (d & Hin & Hd). exists d. split; [right; exact Hin|exact Hd].
    - exists a. split; [left; reflexivity|exact Ea]. }
  exists d. apply zrange_In in Hin. split; [lia|].
  unfold nondiv in Hd. apply negb_false_iff in Hd. apply Z.eqb_eq in Hd. exact Hd.
Qed.

Lemma roughb_true m v d :
  roughb m v = true -> (2 <= d < m)%Z -> Z.rem v d <> 0%Z.
Proof.
  unfold roughb. intros H Hd. rewrite forallb_forall in H.
  specialize (H d). unfold nondiv in H.
  assert (In d (zrange 2 (m - 1))) as Hin by (apply zrange_In; lia).
  specialize (H Hin). apply negb_true_iff in H. apply Z.eqb_neq in H. exact H.
Qed.

(** A number without divisors below a composite [m] is not a multiple of
    [m] either. *)
Lemma rough_skips_composite m v :
  (2 <= m)%Z -> roughb m m = false -> roughb m v = true -> nondiv m v = true.
Proof.
  intros Hm Hc Hv. destruct (roughb_false m m Hc) as (d & Hd & Hdm).
  unfold nondiv. apply negb_true_iff. apply Z.eqb_neq. intros Hvm.
  apply (roughb_true m v d Hv Hd).
  apply Z.rem_divide in Hdm; [|lia]. apply Z.rem_divide in Hvm; [|lia].
  apply Z.rem_divide; [lia|]. eapply Z.divide_trans; eassumption.
Qed.

Lemma is_prime_rough m : (2 <= m)%Z -> is_prime m = roughb m m.
Proof.
  intros Hm. unfold is_prime, roughb. apply Z.leb_le in Hm. rewrite Hm. reflexivity.
Qed.

Lemma filter_both (f g : Z -> bool) l :
  filter f (filter g l) = filter (fun x => g x && f x) l.
Proof.
  induction l as [|a l IH]; [reflexivity|]. simpl.
  destruct (g a); simpl; [destruct (f a)|]; rewrite IH; reflexivity.
Qed.

(** Sieving the numbers from [m] on that have no divisor below [m] yields
    the primes from [m] on. *)
Lemma sieve_rough hi n : forall m,
  (2 <= m)%Z -> Z.to_nat (hi - m + 1) = n ->
  primes_of (filter (roughb m) (zrange m hi)) = filter is_prime (zrange m hi).
Proof.
  induction n as [|n IH]; intros m Hm Hn.
  - rewrite zrange_nil by lia. reflexivity.
  - rewrite zrange_cons by lia. simpl. rewrite (is_prime_rough m Hm).
    assert (Z.to_nat (hi - (m + 1) + 1) = n) as Hn' by lia.
    destruct (roughb m m) eqn:Em.
    + rewrite primes_of_cons. f_equal. rewrite <- (IH (m + 1)%Z ltac:(lia) Hn').
      f_equal. rewrite filter_both. apply filter_ext. intros v.
      rewrite (roughb_succ m v Hm). reflexivity.
    + rewrite <- (IH (m + 1)%Z ltac:(lia) Hn'). f_equal. apply filter_ext. intros v.
      rewrite (roughb_succ m v Hm). destruct (roughb m v) eqn:Ev; [|reflexivity].
      rewrite (rough_skips_composite m v Hm Em Ev). reflexivity.
Qed.

Lemma sieve_primes hi : primes_of (zrange 2 hi) = filter is_prime (zrange 2 hi).
Proof.
  rewrite <- (sieve_rough hi (Z.to_nat (hi - 2 + 1)) 2 ltac:(lia) eq_refl). f_equal.
  induction (zrange 2 hi) as [|a l IH]; [reflexivity|].
  simpl. rewrite <- IH. reflexivity.
Qed.

(** X7.  For every bound of the feeder: when nothing is refused and
    [main] has exited, what was printed is exactly the list of the primes
    of 2..[hi], in ascending order. *)
Theorem primes_printed_any_bound hi cap sc st :
  fault_free sc -> run hi cap init sc = Some st -> exited (procs st 0) = true ->
  printed st = filter is_prime (zrange 2 hi).
Proof.
  intros Hff H Hex. rewrite <- sieve_primes.
  apply (clean_output hi st (invariant_run hi cap sc st H) (clean_run hi cap sc st Hff H)).
  apply (driver_done_all hi cap sc st Hff H Hex).
Qed.

Lemma primes_printed_any_bound_demo :
  fault_free (plan_schedule 10 PIPESIZE (fun _ _ => false) 1000 init) /\
  printed (outcome 10 PIPESIZE (plan_schedule 10 PIPESIZE (fun _ _ => false) 1000 init))
  = [2; 3; 5; 7]%Z.
Proof.
  split; [by_run|].
  rewrite (primes_printed_any_bound 10 PIPESIZE
             (plan_schedule 10 PIPESIZE (fun _ _ => false) 1000 init)
             (outcome 10 PIPESIZE (plan_schedule 10 PIPESIZE (fun _ _ => false) 1000 init)));
    by_run.
Defined.

(** ** What a sieve process has passed on *)

Lemma passed_step hi cap st k f st' :
  chain_ok st -> flow_ok hi subseq st ->
  (forall k l p x n, procs st k = S_write_first l p x n -> rd (pipes st n) <> 0) ->
  passed st -> step hi cap st k f = Some st' -> passed st'.
Proof.
  intros C F Hfw P H.
  step_start C H.
  all: split_hyps; use_prime F; use_unread F.
  all: intros j; pose proof (P j) as Pj; pose proof (fl_at F j) as Fj;
       unfold passed_at, flow_at in *; fields.
  all: try (pose proof (Hchild eq_refl)).
  all: eqn_cases; subst; try lia; cbn [taken buf rd wr] in *.
  all: succ_inj.
  all: rewrite ?plog_counts, ?plog_write in *; try (erewrite plog_read in * by eassumption).
  all: try assumption.
  all: rewrite ?Epc in *; try rewrite Hs2 in *.
  all: try (destruct (Hlast eq_refl) as [Hl1 Hl2]; rewrite <- ?Hl2 in *;
            rewrite ?(@ck_nopipe _ C (npipe st) (Nat.le_refl _)) in *; rewrite ?Hl2 in *).
  all: try (rewrite (ck_unused C) in * by lia).
  all: simpl in *.
  all: try assumption.
  all: try (rewrite Ht in * ).
  all: try (rewrite Hu in * ).
  all: simpl in *.
  all: try assumption.
  all: try exact I.
  all: repeat match goal with
       | |- context [taken (pipes ?s ?x)] => destruct (taken (pipes s x)) eqn:?
       | H : context [match taken (pipes ?s ?x) with _ => _ end] |- _ =>
           destruct (taken (pipes s x)) eqn:?
       end.
  all: simpl in *; try exact I; try assumption; try discriminate.
  all: repeat match goal with
       | H : _ /\ _ |- _ => destruct H
       | H : forall q, Some ?p = Some q -> q = _ |- _ => specialize (H p eq_refl); subst
       end.
  all: rewrite ?filter_app, ?app_nil_r in *; simpl;
       try match goal with H : (Z.rem ?x ?p =? 0)%Z = ?b |- _ =>
         let E := fresh in
         assert (nondiv p x = negb b) as E by (unfold nondiv; rewrite H; reflexivity);
         rewrite E; simpl end;
       rewrite ?app_nil_r.
  all: try (split; [|intros; discriminate]).
  all: try assumption; try congruence.
  all: try solve [eexists; eassumption].
  all: try solve [exists []; rewrite app_nil_r; assumption].
  all: try solve [exists []; rewrite app_nil_r; congruence].
  all: try solve [exfalso; eapply Hfw; eassumption].
  all: try solve [unfold prefix, plog, no_pipe; simpl; eexists; reflexivity].
  all: match goal with H : [] = filter _ _ |- _ => rewrite <- H; reflexivity end.
Qed.

Lemma passed_boot argc argv : passed (boot argc argv).
Proof. intros j. unfold passed_at. simpl. exact I. Qed.

Lemma passed_run hi cap sc st : run hi cap init sc = Some st -> passed st.
Proof.
  intros H.
  assert (reachable hi cap st /\ passed st) as [_ A]; [|exact A].
  revert H. apply (run_keeps hi cap (fun st => reachable hi cap st /\ passed st)).
  - intros s k f s' [[sc0 Hr] P] Hs. split.
    + eapply reachable_step; [exists sc0; exact Hr|exact Hs].
    + pose proof (invariant_run hi cap sc0 s Hr) as I.
      apply (passed_step hi cap s k f s' (inv_chain I) (inv_flow I)); try assumption.
      intros k0 l p x n. apply (first_write_has_reader hi cap sc0 s k0 l p x n Hr).
  - split; [exists []; reflexivity|apply passed_boot].
Qed.

(** ** Initial parts *)

Lemma prefix_nil l : prefix [] l.
Proof. exists l. reflexivity. Qed.

Lemma prefix_trans a b c : prefix a b -> prefix b c -> prefix a c.
Proof. intros [r <-] [r' <-]. exists (r ++ r'). apply app_assoc. Qed.

Lemma prefix_filter f a b : prefix a b -> prefix (filter f a) (filter f b).
Proof. intros [r <-]. exists (filter f r). symmetry. apply filter_app. Qed.

Lemma prefix_app a r : prefix a (a ++ r).
Proof. exists r. reflexivity. Qed.

(** What a process has taken from its pipe is an initial part of the list
    that the sieve has at its place. *)
Lemma taken_ideal hi cap sc st :
  run hi cap init sc = Some st -> forall j, prefix (taken (pipes st j)) (ideal hi j).
Proof.
  intros H. pose proof (invariant_run hi cap sc st H) as I.
  pose proof (passed_run hi cap sc st H) as P.
  induction j as [|j IH].
  - destruct (feed_prefix hi st (inv_chain I) (inv_flow I)) as [rest Hr].
    simpl. rewrite <- Hr. unfold plog. rewrite <- app_assoc. apply prefix_app.
  - assert (prefix (taken (pipes st (S j))) (plog (pipes st (S j)))) as Ht
      by apply prefix_app.
    destruct (taken (pipes st j)) as [|p t] eqn:Et.
    + rewrite (log_empty hi st j (inv_flow I) Et) in Ht. destruct Ht as [r Hr].
      apply app_eq_nil in Hr. destruct Hr as [-> _]. apply prefix_nil.
    + destruct IH as [r Hr]. simpl. rewrite <- Hr. simpl.
      apply (prefix_trans _ _ _ Ht). rewrite filter_app.
      apply (prefix_trans _ (filter (nondiv p) t)); [|apply prefix_app].
      pose proof (P j) as Pj. unfold passed_at in Pj. rewrite Et in Pj.
      destruct (stopped (procs st (S j))); [exact Pj|].
      destruct Pj as [<- _]. apply prefix_app.
Qed.

Lemma primes_of_ideal hi j p t :
  ideal hi j = p :: t -> primes_of (ideal hi j) = p :: primes_of (ideal hi (S j)).
Proof. intros E. simpl. rewrite E. apply primes_of_cons. Qed.

Lemma sieve_heads hi pr : forall j,
  (forall i, i < List.length pr -> exists t, ideal hi (j + i) = nth i pr 0%Z :: t) ->
  primes_of (ideal hi j) = pr ++ primes_of (ideal hi (j + List.length pr)).
Proof.
  induction pr as [|a pr IH]; intros j Hh.
  - simpl. rewrite Nat.add_0_r. reflexivity.
  - destruct (Hh 0 ltac:(simpl; lia)) as [t Ht]. rewrite Nat.add_0_r in Ht. simpl in Ht.
    rewrite (primes_of_ideal hi j a t Ht). rewrite <- app_comm_cons. f_equal.
    replace (j + List.length (a :: pr)) with (S j + List.length pr) by (simpl; lia).
    apply IH. intros i Hi. destruct (Hh (S i) ltac:(simpl; lia)) as [t' Ht'].
    exists t'. replace (S j + i) with (j + S i) by lia. exact Ht'.
Qed.

(** The numbers printed head the lists of the sieve. *)
Lemma printed_ideal hi cap sc st :
  run hi cap init sc = Some st ->
  primes_of (zrange 2 hi) =
  printed st ++ primes_of (ideal hi (List.length (printed st))).
Proof.
  intros H. pose proof (invariant_run hi cap sc st H) as I.
  apply (sieve_heads hi (printed st) 0). intros i Hi. simpl.
  destruct (@pr_done st (inv_printed I) i Hi) as [t Ht].
  destruct (taken_ideal hi cap sc st H i) as [r Hr]. rewrite Ht in Hr.
  exists (t ++ r). rewrite <- Hr. reflexivity.
Qed.

(** X8.  In every run, whatever is refused and however the processes are
    scheduled, what has been printed so far is an initial part of the list
    of the primes of 2..[hi]: partial output is never wrong. *)
Theorem printed_always_primes hi cap sc st :
  run hi cap init sc = Some st ->
  exists rest, printed st ++ rest = filter is_prime (zrange 2 hi).
Proof.
  intros H. rewrite <- sieve_primes, (printed_ideal hi cap sc st H).
  eexists. reflexivity.
Qed.

Lemma printed_always_primes_demo :
  printed (outcome LIMIT PIPESIZE fork_refused_3) = [2; 3; 5]%Z /\
  exists rest, printed (outcome LIMIT PIPESIZE fork_refused_3) ++ rest
               = filter is_prime (zrange 2 LIMIT).
Proof.
  split; [by_run|].
  apply (printed_always_primes LIMIT PIPESIZE fork_refused_3). by_run.
Defined.

(** ** How many processes there are *)

Lemma ideal_next_nonempty hi cap sc st :
  (2 <= hi)%Z -> run hi cap init sc = Some st ->
  nproc st = S (S (List.length (printed st))) ->
  ideal hi (List.length (printed st)) <> [].
Proof.
  intros Hhi H Hn. destruct (List.length (printed st)) as [|m] eqn:En.
  - simpl. rewrite zrange_cons by lia. discriminate.
  - destruct (child_after_survivor hi cap sc st m Hhi H ltac:(lia))
      as (p & t & x & Et & Hin & Hnd).
    destruct (taken_ideal hi cap sc st H m) as [r Hr]. rewrite Et in Hr.
    simpl. rewrite <- Hr. simpl. rewrite filter_app.
    assert (In x (filter (nondiv p) t)) as Hx by (apply filter_In; split; assumption).
    destruct (filter (nondiv p) t); [destruct Hx|discriminate].
Qed.

(** X9.  With a bound of at least 2, a run never has more processes than
    [main] and one sieve process for each prime of 2..[hi]: with the 35 of
    the program, at most 12 processes. *)
Theorem process_bound hi cap sc st :
  (2 <= hi)%Z -> run hi cap init sc = Some st ->
  nproc st <= S (List.length (filter is_prime (zrange 2 hi))) /\
  (hi = LIMIT -> nproc st <= 12).
Proof.
  intros Hhi H.
  assert (nproc st <= S (List.length (filter is_prime (zrange 2 hi)))) as Hb.
  { rewrite <- sieve_primes, (printed_ideal hi cap sc st H), length_app.
    pose proof (pr_count (inv_printed (invariant_run hi cap sc st H))) as [_ Hc].
    destruct (Nat.eq_dec (nproc st) (S (S (List.length (printed st))))) as [E|]; [|lia].
    pose proof (ideal_next_nonempty hi cap sc st Hhi H E) as Hne.
    destruct (ideal hi (List.length (printed st))) as [|p t] eqn:Ei; [congruence|].
    rewrite primes_of_cons. simpl. lia. }
  split; [exact Hb|]. intros ->. exact Hb.
Qed.

Lemma process_bound_demo :
  (2 <= LIMIT)%Z /\ nproc (outcome LIMIT PIPESIZE demo) <= 12.
Proof.
  assert (2 <= LIMIT)%Z as Hhi by (vm_compute; discriminate).
  split; [exact Hhi|].
  destruct (process_bound LIMIT PIPESIZE demo (outcome LIMIT PIPESIZE demo) Hhi)
    as [_ Hb]; [by_run|].
  apply Hb. reflexivity.
Defined.

(** * xargs.c *)

Lemma firstn_snoc_cap (A : Type) n (l : list A) c :
  firstn n (l ++ [c]) =
  if Nat.ltb (List.length (firstn n l)) n then firstn n l ++ [c] else firstn n l.
Proof.
  revert n. induction l as [|a l IH]; intros n.
  - destruct n; simpl; [reflexivity|]. rewrite firstn_nil. reflexivity.
  - destruct n as [|n]; [reflexivity|]. simpl. rewrite IH.
    change (S (List.length (firstn n l)) <? S n) with (List.length (firstn n l) <? n).
    destruct (List.length (firstn n l) <? n); reflexivity.
Qed.

Lemma firstn_nil_iff (A : Type) n (l : list A) :
  0 < n -> (Nat.ltb 0 (List.length (firstn n l)) = negb (match l with [] => true | _ => false end)).
Proof. intros Hn. destruct l; destruct n; simpl; try lia; reflexivity. Qed.

Lemma plain_cons c l :
  Xargs.plain (c :: l) = true ->
  Xargs.is_quote c = false /\ Ascii.eqb c Xargs.backslash = false /\
  Ascii.eqb c Xargs.NUL = false /\ Xargs.plain l = true.
Proof.
  unfold Xargs.plain. simpl. intros H. apply andb_prop in H. destruct H as [Hc Hl].
  apply negb_true_iff in Hc. apply orb_false_elim in Hc. destruct Hc as [Hc Hn].
  apply orb_false_elim in Hc. destruct Hc as [Hq Hb]. auto.
Qed.

Lemma plain_app a b : Xargs.plain (a ++ b) = Xargs.plain a && Xargs.plain b.
Proof. unfold Xargs.plain. apply forallb_app. Qed.

Lemma cstr_plain l : Xargs.plain l = true -> Xargs.cstr l = string_of_list_ascii l.
Proof.
  induction l as [|c l IH]; intros H; [reflexivity|].
  destruct (plain_cons c l H) as (_ & _ & Hn & Hl). simpl. rewrite Hn, IH by assumption.
  reflexivity.
Qed.

Lemma plain_firstn n l : Xargs.plain l = true -> Xargs.plain (firstn n l) = true.
Proof.
  intros H. rewrite <- (firstn_skipn n l), plain_app in H. apply andb_prop in H. apply H.
Qed.

(** The words of a plain text are plain. *)
Lemma split_blank_plain input : forall cur w,
  Xargs.plain cur = true -> Xargs.plain input = true ->
  In w (Xargs.split_blank cur input) -> Xargs.plain w = true.
Proof.
  induction input as [|c rest IH]; intros cur w Hc Hi Hw; simpl in Hw.
  - destruct cur; [destruct Hw|]. destruct Hw as [<-|[]]. exact Hc.
  - destruct (plain_cons c rest Hi) as (Hq & Hb & Hn & Hr).
    destruct (Xargs.is_blank c).
    + destruct cur as [|a cur].
      * apply (IH [] w); auto.
      * destruct Hw as [<-|Hw]; [exact Hc|]. apply (IH [] w); auto.
    + apply (IH (cur ++ [c]) w); auto. rewrite plain_app, Hc. unfold Xargs.plain. simpl.
      rewrite Hq, Hb, Hn. reflexivity.
Qed.

Lemma out_push c s : Xargs.out (Xargs.push c s) = Xargs.out s.
Proof. unfold Xargs.push. destruct (_ <? _); reflexivity. Qed.

Lemma words_push c s : Xargs.words (Xargs.push c s) = Xargs.words s.
Proof. unfold Xargs.push. destruct (_ <? _); reflexivity. Qed.

Lemma forks_push c s : Xargs.forks (Xargs.push c s) = Xargs.forks s.
Proof. unfold Xargs.push. destruct (_ <? _); reflexivity. Qed.

Lemma mallocs_push c s : Xargs.mallocs (Xargs.push c s) = Xargs.mallocs s.
Proof. unfold Xargs.push. destruct (_ <? _); reflexivity. Qed.

Section PerToken.
Variable MAXARG : nat.
Variable e : Xargs.env.
Variable fixed : list string.
Variable cap : nat.
Hypothesis cap_def : Xargs.TOKSZ - 1 = cap.
Hypothesis cap_pos : 0 < cap.
Hypothesis forks_ok : forall n, Xargs.fork_ok e n = true.

Lemma push_firstn c cur s :
  Xargs.tok s = firstn cap cur ->
  Xargs.tok (Xargs.push c s) = firstn cap (cur ++ [c]).
Proof.
  intros Ht. unfold Xargs.push. rewrite cap_def, firstn_snoc_cap, Ht.
  destruct (List.length (firstn cap cur) <? cap);
    cbn [Xargs.tok Xargs.set_tok]; rewrite ?Ht; reflexivity.
Qed.

(** What the loop and the end of [main] do with a plain text in the mode
    of [-n 1]: one child for each word, in order. *)
Lemma per_token_run input : forall cur s,
  Xargs.plain input = true -> Xargs.tok s = firstn cap cur ->
  exists s',
    Xargs.andthen (Xargs.loop MAXARG e fixed true input s) (Xargs.at_eof MAXARG e fixed true)
    = Xargs.Exit 0 s' /\
    Xargs.out s' = Xargs.out s ++
      map (fun w => Xargs.child e (fixed ++ [Xargs.cstr (firstn cap w)]))
          (Xargs.split_blank cur input).
Proof.
  induction input as [|c rest IH]; intros cur s Hp Ht.
  - cbn [Xargs.loop Xargs.andthen Xargs.split_blank]. unfold Xargs.at_eof.
    rewrite Ht, (firstn_nil_iff _ cap cur cap_pos).
    destruct cur as [|a cur]; cbn [negb Xargs.andthen andb map].
    + eexists. split; [reflexivity|]. rewrite app_nil_r. reflexivity.
    + unfold Xargs.end_token, Xargs.run_with_token, Xargs.fork_exec. rewrite forks_ok.
      cbn [Xargs.andthen negb andb]. eexists. split; [reflexivity|].
      cbn [Xargs.out Xargs.emit Xargs.count_fork Xargs.tok]. rewrite Ht. reflexivity.
  - destruct (plain_cons c rest Hp) as (Hq & Hb & Hn & Hr).
    cbn [Xargs.loop Xargs.split_blank]. rewrite Hq, Hb.
    destruct (Xargs.is_blank c) eqn:Ebl.
    + rewrite Ht, (firstn_nil_iff _ cap cur cap_pos).
      destruct cur as [|a cur]; cbn [negb].
      * apply (IH [] s Hr). rewrite Ht. reflexivity.
      * unfold Xargs.end_token, Xargs.run_with_token, Xargs.fork_exec. rewrite forks_ok.
        cbn [Xargs.andthen].
        destruct (IH [] (Xargs.set_tok (Xargs.emit (Xargs.count_fork s)
                     (Xargs.child e (fixed ++ [Xargs.cstr (Xargs.tok s)]))) []))
          as (s' & Hs' & Ho); [exact Hr|destruct cap; reflexivity|].
        exists s'. split; [exact Hs'|]. rewrite Ho.
        cbn [Xargs.out Xargs.emit Xargs.count_fork Xargs.tok Xargs.set_tok map].
        rewrite Ht, <- app_assoc. reflexivity.
    + destruct (IH (cur ++ [c]) (Xargs.push c s) Hr (push_firstn c cur s Ht))
        as (s' & Hs' & Ho).
      exists s'. split; [exact Hs'|]. rewrite Ho, out_push. reflexivity.
Qed.

End PerToken.

(** X10.  With [-n 1], a command, and a text without quotes, backslashes
    and zero bytes on standard input: when no [fork] fails, xargs runs the
    command once for each word of the text, in order, with the word (its
    first 127 characters) after the fixed arguments, and exits with status
    0, whether the [exec]s succeed or not. *)
Theorem xargs_per_token MAXARG e prog cmd args input :
  (forall n, Xargs.fork_ok e n = true) -> Xargs.plain input = true ->
  Xargs.main MAXARG e (prog :: "-n"%string :: "1"%string :: cmd :: args) input =
  (0%Z, map (fun w => Xargs.child e
                        (cmd :: args ++ [string_of_list_ascii (firstn (Xargs.TOKSZ - 1) w)]))
            (Xargs.words_of input)).
Proof.
  intros Hf Hp. unfold Xargs.main, Xargs.first_arg, Xargs.has_n.
  cbn [List.length Nat.leb String.eqb Ascii.eqb Bool.eqb nth andb negb skipn].
  destruct (per_token_run MAXARG e (cmd :: args) (Xargs.TOKSZ - 1) eq_refl
              ltac:(unfold Xargs.TOKSZ; simpl; lia) Hf input [] Xargs.start Hp)
    as (s' & Hs' & Ho); [rewrite firstn_nil; reflexivity|].
  rewrite Hs', Ho. cbn [Xargs.out Xargs.start app]. f_equal. apply map_ext_in. intros w Hw.
  rewrite cstr_plain; [reflexivity|]. apply plain_firstn.
  apply (split_blank_plain input [] w eq_refl Hp Hw).
Qed.

Lemma xargs_per_token_demo :
  Xargs.plain (list_ascii_of_string "a bb  c") = true /\
  Xargs.main 32 Xargs.kind ["xargs"; "-n"; "1"; "echo"; "hi"]%string
             (list_ascii_of_string "a bb  c") =
  (0%Z, [Xargs.Ran ["echo"; "hi"; "a"]%string; Xargs.Ran ["echo"; "hi"; "bb"]%string;
         Xargs.Ran ["echo"; "hi"; "c"]%string]).
Proof.
  split; [reflexivity|].
  rewrite (xargs_per_token 32 Xargs.kind "xargs" "echo" ["hi"%string]
             (list_ascii_of_string "a bb  c")); [reflexivity|reflexivity|reflexivity].
Defined.

(** ** Without [-n 1] *)

Lemma chunks_fuel_enough n : forall fuel l,
  1 <= n -> List.length l <= fuel -> Xargs.chunks_fuel fuel n l = Xargs.chunks n l.
Proof.
  unfold Xargs.chunks. intros fuel l Hn. remember (List.length l) as m eqn:Em.
  revert l fuel Em. induction m as [m IH] using lt_wf_ind. intros l fuel Em Hle.
  destruct l as [|a l]; simpl in Em; subst m.
  - destruct fuel; reflexivity.
  - destruct fuel as [|fuel]; [lia|]. cbn [Xargs.chunks_fuel]. f_equal.
    assert (List.length (skipn n (a :: l)) < S (List.length l)) as Hs
      by (rewrite length_skipn; cbn [List.length]; lia).
    rewrite (IH _ Hs (skipn n (a :: l)) fuel eq_refl ltac:(simpl in Hle; lia)).
    rewrite (IH _ Hs (skipn n (a :: l)) (List.length l) eq_refl ltac:(lia)).
    reflexivity.
Qed.

Lemma chunks_nil n : Xargs.chunks n [] = [].
Proof. reflexivity. Qed.

Lemma chunks_cons n a l :
  1 <= n -> Xargs.chunks n (a :: l) = firstn n (a :: l) :: Xargs.chunks n (skipn n (a :: l)).
Proof.
  intros Hn. unfold Xargs.chunks at 1. cbn [List.length Xargs.chunks_fuel]. f_equal.
  apply chunks_fuel_enough; [exact Hn|]. rewrite length_skipn. cbn [List.length]. lia.
Qed.

(** A full piece in front. *)
Lemma chunks_full n a b :
  1 <= n -> List.length a = n -> Xargs.chunks n (a ++ b) = a :: Xargs.chunks n b.
Proof.
  intros Hn Ha. destruct a as [|x a]; [simpl in Ha; lia|]. subst n.
  rewrite <- app_comm_cons, chunks_cons by exact Hn. rewrite app_comm_cons.
  rewrite firstn_app, skipn_app, Nat.sub_diag, firstn_all, skipn_all.
  rewrite firstn_O, skipn_O, app_nil_r. reflexivity.
Qed.

(** Few words make one piece. *)
Lemma chunks_short n a l :
  1 <= n -> List.length (a :: l) <= n -> Xargs.chunks n (a :: l) = [a :: l].
Proof.
  intros Hn Hl. rewrite chunks_cons by exact Hn.
  rewrite firstn_all2 by exact Hl. rewrite skipn_all2 by exact Hl. reflexivity.
Qed.

Lemma snoc_not_nil (A : Type) (l : list A) x : l ++ [x] <> [].
Proof. destruct l; discriminate. Qed.

Lemma chunks_one n l :
  1 <= n -> l <> [] -> List.length l <= n -> Xargs.chunks n l = [l].
Proof. intros Hn Hl Hle. destruct l; [congruence|]. apply chunks_short; assumption. Qed.

Section Batch.
Variable MAXARG : nat.
Variable e : Xargs.env.
Variable fixed : list string.
Variable cap : nat.
Hypothesis cap_def : Xargs.TOKSZ - 1 = cap.
Hypothesis cap_pos : 0 < cap.
Hypothesis forks_ok : forall n, Xargs.fork_ok e n = true.
Hypothesis mallocs_ok : forall n, Xargs.malloc_ok e n = true.
Hypothesis room : List.length fixed + 2 <= MAXARG.

(** The number of words that go into one command. *)
Variable c : nat.
Hypothesis c_def : c = MAXARG - 1 - List.length fixed.

(** The end of a token when words are collected. *)
Lemma end_token_batch s :
  List.length (Xargs.words s) <= c ->
  exists s1,
    Xargs.end_token MAXARG e fixed false true s = Xargs.Go s1 /\
    Xargs.tok s1 = Xargs.tok s /\
    ((List.length (Xargs.words s) = c /\
      Xargs.words s1 = [Xargs.cstr (Xargs.tok s)] /\
      Xargs.out s1 = Xargs.out s ++ [Xargs.child e (fixed ++ Xargs.words s)]) \/
     (List.length (Xargs.words s) < c /\
      Xargs.words s1 = Xargs.words s ++ [Xargs.cstr (Xargs.tok s)] /\
      Xargs.out s1 = Xargs.out s)).
Proof.
  intros Hle. unfold Xargs.end_token, Xargs.flush_if_full, Xargs.run_with_tokens,
    Xargs.fork_exec.
  destruct (Nat.leb_spec MAXARG (List.length fixed + List.length (Xargs.words s) + 1))
    as [Hfull|Hfree].
  - rewrite forks_ok. cbn [Xargs.andthen]. rewrite mallocs_ok. eexists.
    split; [reflexivity|]. split; [reflexivity|]. left.
    split; [lia|]. split; reflexivity.
  - cbn [Xargs.andthen]. rewrite mallocs_ok. eexists.
    split; [reflexivity|]. split; [reflexivity|]. right.
    split; [lia|]. split; reflexivity.
Qed.

Lemma batch_run input : forall cur s,
  Xargs.plain input = true -> Xargs.tok s = firstn cap cur ->
  List.length (Xargs.words s) <= c ->
  exists s',
    Xargs.andthen (Xargs.loop MAXARG e fixed false input s)
                  (Xargs.at_eof MAXARG e fixed false)
    = Xargs.Exit 0 s' /\
    Xargs.out s' = Xargs.out s ++
      map (fun b => Xargs.child e (fixed ++ b))
          (Xargs.chunks c (Xargs.words s ++
                           map (fun w => Xargs.cstr (firstn cap w))
                               (Xargs.split_blank cur input))).
Proof.
  assert (1 <= c) as Hc by lia.
  induction input as [|ch rest IH]; intros cur s Hp Ht Hle.
  - cbn [Xargs.loop Xargs.andthen Xargs.split_blank]. unfold Xargs.at_eof.
    rewrite Ht, (firstn_nil_iff _ cap cur cap_pos).
    destruct cur as [|a cur]; cbn [negb Xargs.andthen andb map].
    + rewrite app_nil_r. destruct (Xargs.words s) as [|w ws] eqn:Ew.
      * cbn [List.length Nat.ltb Nat.leb Xargs.andthen]. eexists. split; [reflexivity|].
        rewrite chunks_nil, app_nil_r. reflexivity.
      * cbn [List.length Nat.ltb Nat.leb Xargs.andthen].
        unfold Xargs.run_with_tokens, Xargs.fork_exec. rewrite forks_ok.
        cbn [Xargs.andthen]. eexists. split; [reflexivity|].
        rewrite chunks_one by (try discriminate; assumption). reflexivity.
    + destruct (end_token_batch s Hle) as (s1 & He & Ht1 & Hcase). rewrite He.
      cbn [Xargs.andthen].
      assert (Xargs.words s1 <> []) as Hne.
      { destruct Hcase as [(_ & Hw & _)|(_ & Hw & _)]; rewrite Hw;
          [discriminate|apply snoc_not_nil]. }
      assert (Nat.ltb 0 (List.length (Xargs.words s1)) = true) as Hpos
        by (destruct (Xargs.words s1); [congruence|reflexivity]).
      rewrite Hpos. cbn [Xargs.andthen].
      unfold Xargs.run_with_tokens, Xargs.fork_exec. rewrite forks_ok.
      cbn [Xargs.andthen]. eexists. split; [reflexivity|].
      cbn [Xargs.out Xargs.emit Xargs.count_fork Xargs.set_words]. rewrite <- Ht.
      destruct Hcase as [(Hl & Hw & Ho)|(Hl & Hw & Ho)]; rewrite Ho, Hw.
      * rewrite (chunks_full c _ _ Hc Hl), chunks_one by (try discriminate; simpl; lia).
        cbn [map]. rewrite <- app_assoc. reflexivity.
      * rewrite chunks_one; [reflexivity|exact Hc|apply snoc_not_nil|].
        rewrite length_app. simpl. lia.
  - destruct (plain_cons ch rest Hp) as (Hq & Hb & Hn & Hr).
    cbn [Xargs.loop Xargs.split_blank]. rewrite Hq, Hb.
    destruct (Xargs.is_blank ch) eqn:Ebl.
    + rewrite Ht, (firstn_nil_iff _ cap cur cap_pos).
      destruct cur as [|a cur]; cbn [negb].
      * apply (IH [] s Hr); [rewrite Ht; reflexivity|exact Hle].
      * destruct (end_token_batch s Hle) as (s1 & He & Ht1 & Hcase). rewrite He.
        cbn [Xargs.andthen].
        destruct (IH [] (Xargs.set_tok s1 []) Hr) as (s' & Hs' & Ho').
        { destruct cap; reflexivity. }
        { cbn [Xargs.words Xargs.set_tok].
          destruct Hcase as [(Hl & Hw & Ho)|(Hl & Hw & Ho)]; rewrite Hw;
            [simpl; lia|rewrite length_app; simpl; lia]. }
        exists s'. split; [exact Hs'|]. rewrite Ho'.
        cbn [Xargs.out Xargs.words Xargs.set_tok map]. rewrite <- Ht.
        destruct Hcase as [(Hl & Hw & Ho)|(Hl & Hw & Ho)]; rewrite Ho, Hw.
        -- rewrite (chunks_full c _ _ Hc Hl). cbn [map app].
           rewrite <- app_assoc. reflexivity.
        -- rewrite <- app_assoc. reflexivity.
    + destruct (IH (cur ++ [ch]) (Xargs.push ch s) Hr (push_firstn cap cap_def ch cur s Ht))
        as (s' & Hs' & Ho); [rewrite words_push; exact Hle|].
      exists s'. split; [exact Hs'|]. rewrite Ho, out_push, words_push. reflexivity.
Qed.

End Batch.

(** X11.  Without [-n 1], with a command that leaves room for one more
    argument, and a text without quotes, backslashes and zero bytes: when
    no [fork] and no [malloc] fails, xargs hands the words of the text to
    the command in order, [MAXARG - 1 -] (number of fixed arguments) at a
    time, and exits with status 0; so all of them to one command when they
    fit, and it runs nothing when the text has no word. *)
Theorem xargs_batch MAXARG e prog cmd args input :
  (forall n, Xargs.fork_ok e n = true) -> (forall n, Xargs.malloc_ok e n = true) ->
  Xargs.plain input = true -> cmd <> "-n"%string ->
  List.length (cmd :: args) + 2 <= MAXARG ->
  let ws := map (fun w => string_of_list_ascii (firstn (Xargs.TOKSZ - 1) w))
                (Xargs.words_of input) in
  Xargs.main MAXARG e (prog :: cmd :: args) input =
  (0%Z, map (fun b => Xargs.child e (cmd :: args ++ b))
            (Xargs.chunks (MAXARG - 1 - List.length (cmd :: args)) ws)) /\
  (ws = [] -> Xargs.main MAXARG e (prog :: cmd :: args) input = (0%Z, [])) /\
  (ws <> [] -> List.length (cmd :: args) + List.length ws < MAXARG ->
   Xargs.main MAXARG e (prog :: cmd :: args) input =
   (0%Z, [Xargs.child e (cmd :: args ++ ws)])).
Proof.
  intros Hf Hm Hp Hcmd Hroom ws.
  assert (Xargs.main MAXARG e (prog :: cmd :: args) input =
          (0%Z, map (fun b => Xargs.child e (cmd :: args ++ b))
                    (Xargs.chunks (MAXARG - 1 - List.length (cmd :: args)) ws))) as Hmain.
  { unfold Xargs.main, Xargs.first_arg, Xargs.has_n. cbn [List.length nth Nat.leb].
    apply String.eqb_neq in Hcmd. rewrite Hcmd, andb_false_r. cbn [andb skipn].
    destruct (batch_run MAXARG e (cmd :: args) (Xargs.TOKSZ - 1) eq_refl
                ltac:(unfold Xargs.TOKSZ; simpl; lia) Hf Hm Hroom
                (MAXARG - 1 - List.length (cmd :: args)) eq_refl input [] Xargs.start Hp)
      as (s' & Hs' & Ho); [rewrite firstn_nil; reflexivity|simpl; lia|].
    rewrite Hs', Ho. cbn [Xargs.out Xargs.start Xargs.words app]. f_equal. f_equal.
    f_equal. apply map_ext_in. intros w Hw.
    rewrite cstr_plain; [reflexivity|]. apply plain_firstn.
    apply (split_blank_plain input [] w eq_refl Hp Hw). }
  split; [exact Hmain|]. split.
  - intros E. rewrite Hmain, E. reflexivity.
  - intros Hne Hfit. rewrite Hmain, chunks_one; [reflexivity| |exact Hne|].
    + cbn [List.length] in *. lia.
    + cbn [List.length] in *. lia.
Qed.

Lemma xargs_batch_demo :
  Xargs.main 32 Xargs.kind ["xargs"; "echo"; "hi"]%string (list_ascii_of_string "a bb  c") =
  (0%Z, [Xargs.Ran ["echo"; "hi"; "a"; "bb"; "c"]%string]).
Proof.
  destruct (xargs_batch 32 Xargs.kind "xargs" "echo" ["hi"%string]
              (list_ascii_of_string "a bb  c")) as (_ & _ & H);
    [reflexivity|reflexivity|reflexivity|discriminate|simpl; lia|].
  apply H; [discriminate|simpl; lia].
Defined.

(** * xargs.c on any input *)

Section LoopInvariant.
Variable MAXARG : nat.
Variable e : Xargs.env.
Variable fixed : list string.
Variable per_token : bool.

(** What holds of the state while the program runs, and of the exit
    status and the state when it exits. *)
Variable I : Xargs.state -> Prop.
Variable Q : Z -> Xargs.state -> Prop.

Lemma holds_andthen r k :
  Xargs.holds I Q r -> (forall s, I s -> Xargs.holds I Q (k s)) -> Xargs.holds I Q (Xargs.andthen r k).
Proof. destruct r; simpl; auto. Qed.

Hypothesis I_push : forall c s, I s -> I (Xargs.push c s).
Hypothesis I_clear : forall s, I s -> I (Xargs.set_tok s []).
Hypothesis I_end : forall keep s, I s ->
  Xargs.holds I Q (Xargs.end_token MAXARG e fixed per_token keep s).

Lemma loop_holds input : forall s,
  I s -> Xargs.holds I Q (Xargs.loop MAXARG e fixed per_token input s).
Proof.
  induction input as [input IH] using (induction_ltof1 _ (@List.length ascii)).
  unfold ltof in IH. intros s Hs.
  destruct input as [|ch rest]; [exact Hs|]. cbn [Xargs.loop].
  destruct (Xargs.is_quote ch); [apply IH; [simpl; lia|exact Hs]|].
  destruct (Ascii.eqb ch Xargs.backslash).
  - destruct rest as [|ch2 rest2]; [apply I_push; exact Hs|].
    destruct (Ascii.eqb ch2 "n").
    + destruct (Nat.ltb 0 (List.length (Xargs.tok s))).
      * apply holds_andthen; [apply I_end; exact Hs|].
        intros s' Hs'. apply IH; [simpl; lia|apply I_clear; exact Hs'].
      * apply IH; [simpl; lia|exact Hs].
    + apply IH; [simpl; lia|]. apply I_push, I_push. exact Hs.
  - destruct (Xargs.is_blank ch).
    + destruct (Nat.ltb 0 (List.length (Xargs.tok s))).
      * apply holds_andthen; [apply I_end; exact Hs|].
        intros s' Hs'. apply IH; [simpl; lia|apply I_clear; exact Hs'].
      * apply IH; [simpl; lia|exact Hs].
    + apply IH; [simpl; lia|]. apply I_push. exact Hs.
Qed.

End LoopInvariant.

(** ** The argument vectors fit *)

Lemma runs_fit_snoc MAXARG fixed evs ev :
  Xargs.runs_fit MAXARG fixed evs ->
  (forall a, ev = Xargs.Ran a -> (exists b, a = fixed ++ b) /\ List.length a < MAXARG) ->
  Xargs.runs_fit MAXARG fixed (evs ++ [ev]).
Proof.
  intros H Hev a Hin. apply in_app_or in Hin. destruct Hin as [Hin|[Hin|[]]].
  - apply H. exact Hin.
  - apply Hev. exact Hin.
Qed.

Section Bound.
Variable MAXARG : nat.
Variable e : Xargs.env.
Variable fixed : list string.
Variable per_token : bool.
Hypothesis room : List.length fixed + 2 <= MAXARG.

Lemma fork_exec_fits b s :
  Xargs.runs_fit MAXARG fixed (Xargs.out s) ->
  List.length fixed + List.length b < MAXARG ->
  Xargs.holds
    (fun s' => Xargs.words s' = Xargs.words s /\ Xargs.tok s' = Xargs.tok s /\
               Xargs.runs_fit MAXARG fixed (Xargs.out s'))
    (fun _ s' => Xargs.runs_fit MAXARG fixed (Xargs.out s'))
    (Xargs.fork_exec e (fixed ++ b) s).
Proof.
  intros Hs Hb. unfold Xargs.fork_exec. destruct (Xargs.fork_ok e (Xargs.forks s)).
  - cbn [Xargs.holds]. split; [reflexivity|]. split; [reflexivity|].
    cbn [Xargs.out Xargs.emit Xargs.count_fork]. apply runs_fit_snoc; [exact Hs|].
    intros a Ha. unfold Xargs.child in Ha.
    destruct (Xargs.exec_ok e (fixed ++ b)); [|discriminate].
    injection Ha as <-. split; [eexists; reflexivity|]. rewrite length_app. lia.
  - cbn [Xargs.holds Xargs.out Xargs.emit Xargs.count_fork].
    apply runs_fit_snoc; [exact Hs|]. intros a Ha. discriminate.
Qed.

Lemma end_token_fits keep s :
  Xargs.fits MAXARG fixed s ->
  Xargs.holds (Xargs.fits MAXARG fixed)
              (fun _ s' => Xargs.runs_fit MAXARG fixed (Xargs.out s'))
              (Xargs.end_token MAXARG e fixed per_token keep s).
Proof.
  intros [Hw Hr]. unfold Xargs.end_token. destruct per_token.
  - unfold Xargs.run_with_token.
    pose proof (fork_exec_fits [Xargs.cstr (Xargs.tok s)] s Hr ltac:(simpl; lia)) as H.
    destruct (Xargs.fork_exec e (fixed ++ [Xargs.cstr (Xargs.tok s)]) s); cbn [Xargs.holds] in *.
    + destruct H as (Hw' & _ & Hr'). split; [rewrite Hw'; exact Hw|exact Hr'].
    + exact H.
  - unfold Xargs.flush_if_full, Xargs.run_with_tokens.
    destruct (Nat.leb_spec MAXARG (List.length fixed + List.length (Xargs.words s) + 1))
      as [Hfull|Hfree].
    + pose proof (fork_exec_fits (Xargs.words s) s Hr Hw) as H.
      destruct (Xargs.fork_exec e (fixed ++ Xargs.words s) s) as [s1|c1 s1];
        cbn [Xargs.holds Xargs.andthen] in *; [|exact H].
      destruct H as (_ & _ & Hr1).
      destruct (Xargs.malloc_ok e (Xargs.mallocs (Xargs.set_words s1 [])));
        cbn [Xargs.holds].
      * split; [|exact Hr1]. cbn [Xargs.words Xargs.set_words Xargs.count_malloc].
        destruct keep; simpl; lia.
      * cbn [Xargs.out Xargs.emit Xargs.count_malloc Xargs.set_words].
        apply runs_fit_snoc; [exact Hr1|]. intros a Ha. discriminate.
    + cbn [Xargs.andthen]. destruct (Xargs.malloc_ok e (Xargs.mallocs s)); cbn [Xargs.holds].
      * split; [|exact Hr]. cbn [Xargs.words Xargs.set_words Xargs.count_malloc].
        destruct keep; [rewrite length_app; simpl; lia|lia].
      * cbn [Xargs.out Xargs.emit Xargs.count_malloc].
        apply runs_fit_snoc; [exact Hr|]. intros a Ha. discriminate.
Qed.

Lemma push_fits c s : Xargs.fits MAXARG fixed s -> Xargs.fits MAXARG fixed (Xargs.push c s).
Proof. unfold Xargs.fits. rewrite words_push, out_push. auto. Qed.

Lemma at_eof_fits s :
  Xargs.fits MAXARG fixed s ->
  Xargs.holds (fun _ => False) (fun _ s' => Xargs.runs_fit MAXARG fixed (Xargs.out s'))
              (Xargs.at_eof MAXARG e fixed per_token s).
Proof.
  intros Hs. unfold Xargs.at_eof.
  assert (Xargs.holds (Xargs.fits MAXARG fixed)
            (fun _ s' => Xargs.runs_fit MAXARG fixed (Xargs.out s'))
            (if Nat.ltb 0 (List.length (Xargs.tok s))
             then Xargs.end_token MAXARG e fixed per_token true s else Xargs.Go s)) as H1.
  { destruct (Nat.ltb 0 (List.length (Xargs.tok s))); [apply end_token_fits|]; exact Hs. }
  destruct (if Nat.ltb 0 (List.length (Xargs.tok s))
            then Xargs.end_token MAXARG e fixed per_token true s else Xargs.Go s)
    as [s1|c1 s1]; cbn [Xargs.holds Xargs.andthen] in *; [|exact H1].
  destruct H1 as [Hw1 Hr1].
  destruct (negb per_token && Nat.ltb 0 (List.length (Xargs.words s1)));
    cbn [Xargs.andthen Xargs.holds]; [|exact Hr1].
  unfold Xargs.run_with_tokens.
  pose proof (fork_exec_fits (Xargs.words s1) s1 Hr1 Hw1) as H.
  destruct (Xargs.fork_exec e (fixed ++ Xargs.words s1) s1) as [s2|c2 s2];
    cbn [Xargs.holds Xargs.andthen] in *; [|exact H].
  apply H.
Qed.

Lemma run_fits input :
  Xargs.holds (fun _ => False) (fun _ s' => Xargs.runs_fit MAXARG fixed (Xargs.out s'))
    (Xargs.andthen (Xargs.loop MAXARG e fixed per_token input Xargs.start)
                   (Xargs.at_eof MAXARG e fixed per_token)).
Proof.
  assert (Xargs.fits MAXARG fixed Xargs.start) as H0.
  { split; [simpl; lia|]. intros a []. }
  pose proof (loop_holds MAXARG e fixed per_token (Xargs.fits MAXARG fixed)
                (fun _ s' => Xargs.runs_fit MAXARG fixed (Xargs.out s'))
                push_fits (fun s H => H) end_token_fits input Xargs.start H0) as H.
  destruct (Xargs.loop MAXARG e fixed per_token input Xargs.start) as [s1|c1 s1];
    cbn [Xargs.holds Xargs.andthen] in *; [|exact H].
  apply at_eof_fits. exact H.
Qed.

End Bound.

(** X12.  Called with at most [MAXARG - 1] arguments, its own name
    included, xargs never runs a program with more than [MAXARG - 1]
    arguments, whatever the input and whatever fails: every argument vector
    fits the array [args[MAXARG]] with its terminator, and starts with the
    command and its fixed arguments. *)
Theorem xargs_args_fit MAXARG e argv input a :
  List.length argv + 1 <= MAXARG ->
  In (Xargs.Ran a) (snd (Xargs.main MAXARG e argv input)) ->
  List.length a < MAXARG /\ exists b, a = skipn (Xargs.first_arg argv) argv ++ b.
Proof.
  intros Hlen Hin. unfold Xargs.main in Hin.
  destruct (Xargs.has_n argv && negb (String.eqb (nth 2 argv EmptyString) "1")).
  { destruct Hin as [H|[]]. discriminate H. }
  destruct (Nat.leb_spec (List.length argv) (Xargs.first_arg argv)) as [Hle|Hgt].
  { destruct Hin as [H|[]]. discriminate H. }
  assert (List.length (skipn (Xargs.first_arg argv) argv) + 2 <= MAXARG) as Hroom.
  { rewrite length_skipn. unfold Xargs.first_arg in *. destruct (Xargs.has_n argv); lia. }
  pose proof (run_fits MAXARG e (skipn (Xargs.first_arg argv) argv) (Xargs.has_n argv)
                Hroom input) as H.
  destruct (Xargs.andthen _ _) as [s|c s]; cbn [Xargs.holds] in H; [destruct H|].
  destruct (H a Hin) as [Hb Hl]. split; assumption.
Qed.

Lemma xargs_args_fit_demo :
  In (Xargs.Ran ["echo"; "a"; "b"]%string)
     (snd (Xargs.main 4 Xargs.kind ["xargs"; "echo"]%string (list_ascii_of_string "a b c"))) /\
  List.length ["echo"; "a"; "b"]%string < 4.
Proof.
  assert (In (Xargs.Ran ["echo"; "a"; "b"]%string)
     (snd (Xargs.main 4 Xargs.kind ["xargs"; "echo"]%string (list_ascii_of_string "a b c"))))
    as Hin by (vm_compute; left; reflexivity).
  split; [exact Hin|].
  apply (xargs_args_fit 4 Xargs.kind ["xargs"; "echo"]%string
           (list_ascii_of_string "a b c") _ ltac:(simpl; lia) Hin).
Defined.

(** ** The exit status *)

Lemma quiet_snoc evs ev :
  Xargs.quiet evs -> (forall m, ev = Xargs.Stderr m -> ~ Xargs.failure m) ->
  Xargs.quiet (evs ++ [ev]).
Proof.
  intros H Hev m Hin. apply in_app_or in Hin. destruct Hin as [Hin|[Hin|[]]].
  - apply H. exact Hin.
  - apply Hev. exact Hin.
Qed.

Lemma child_quiet e args m : Xargs.child e args = Xargs.Stderr m -> ~ Xargs.failure m.
Proof.
  unfold Xargs.child. destruct (Xargs.exec_ok e args); [discriminate|].
  intros H. injection H as <-. intros [F|[F|[F|F]]]; simpl in F; discriminate F.
Qed.

Section Status.
Variable MAXARG : nat.
Variable e : Xargs.env.
Variable fixed : list string.
Variable per_token : bool.

Lemma fork_exec_ending args s :
  Xargs.quiet (Xargs.out s) ->
  Xargs.holds
    (fun s' => Xargs.words s' = Xargs.words s /\ Xargs.mallocs s' = Xargs.mallocs s /\
               Xargs.quiet (Xargs.out s') /\ Xargs.fork_ok e (Xargs.forks s) = true)
    (fun c s' => Xargs.ending c (Xargs.out s') /\ Xargs.fork_ok e (Xargs.forks s) = false)
    (Xargs.fork_exec e args s).
Proof.
  intros Hs. unfold Xargs.fork_exec. destruct (Xargs.fork_ok e (Xargs.forks s)).
  - cbn [Xargs.holds]. repeat split.
    cbn [Xargs.out Xargs.emit Xargs.count_fork]. apply quiet_snoc; [exact Hs|].
    intros m. apply child_quiet.
  - cbn [Xargs.holds Xargs.out Xargs.emit Xargs.count_fork]. split; [|reflexivity].
    right. split; [reflexivity|]. eexists. eexists. split; [reflexivity|].
    left. reflexivity.
Qed.

Lemma end_token_ending keep s :
  Xargs.quiet (Xargs.out s) ->
  Xargs.holds (fun s' => Xargs.quiet (Xargs.out s'))
              (fun c s' => Xargs.ending c (Xargs.out s') /\
                           ((exists n, Xargs.fork_ok e n = false) \/
                            (exists n, Xargs.malloc_ok e n = false)))
              (Xargs.end_token MAXARG e fixed per_token keep s).
Proof.
  intros Hs. unfold Xargs.end_token. destruct per_token.
  - unfold Xargs.run_with_token.
    pose proof (fork_exec_ending (fixed ++ [Xargs.cstr (Xargs.tok s)]) s Hs) as H.
    destruct (Xargs.fork_exec e (fixed ++ [Xargs.cstr (Xargs.tok s)]) s);
      cbn [Xargs.holds] in *.
    + apply H.
    + destruct H as [H1 H2]. split; [exact H1|]. left. eexists. exact H2.
  - assert (Xargs.holds
              (fun s' => Xargs.quiet (Xargs.out s'))
              (fun c s' => Xargs.ending c (Xargs.out s') /\
                           ((exists n, Xargs.fork_ok e n = false) \/
                            (exists n, Xargs.malloc_ok e n = false)))
              (Xargs.flush_if_full MAXARG e fixed s)) as H1.
    { unfold Xargs.flush_if_full, Xargs.run_with_tokens.
      destruct (Nat.leb MAXARG (List.length fixed + List.length (Xargs.words s) + 1));
        [|exact Hs].
      pose proof (fork_exec_ending (fixed ++ Xargs.words s) s Hs) as H.
      destruct (Xargs.fork_exec e (fixed ++ Xargs.words s) s);
        cbn [Xargs.holds Xargs.andthen] in *.
      - apply H.
      - destruct H as [H1 H2]. split; [exact H1|]. left. eexists. exact H2. }
    destruct (Xargs.flush_if_full MAXARG e fixed s) as [s1|c1 s1];
      cbn [Xargs.holds Xargs.andthen] in *; [|exact H1].
    destruct (Xargs.malloc_ok e (Xargs.mallocs s1)) eqn:Em; cbn [Xargs.holds].
    + exact H1.
    + cbn [Xargs.out Xargs.emit Xargs.count_malloc]. split.
      * right. split; [reflexivity|]. eexists. eexists. split; [reflexivity|].
        right. left. reflexivity.
      * right. eexists. exact Em.
Qed.

Lemma run_ending input :
  Xargs.holds (fun _ => False)
    (fun c s' => Xargs.ending c (Xargs.out s') /\
                 (c = 0%Z \/ (exists n, Xargs.fork_ok e n = false) \/
                  (exists n, Xargs.malloc_ok e n = false)))
    (Xargs.andthen (Xargs.loop MAXARG e fixed per_token input Xargs.start)
                   (Xargs.at_eof MAXARG e fixed per_token)).
Proof.
  assert (Xargs.quiet (Xargs.out Xargs.start)) as H0 by (intros m []).
  pose proof (loop_holds MAXARG e fixed per_token
                (fun s' => Xargs.quiet (Xargs.out s')) _
                (fun c s H => eq_ind_r Xargs.quiet H (out_push c s))
                (fun s H => H) end_token_ending input Xargs.start H0) as H.
  destruct (Xargs.loop MAXARG e fixed per_token input Xargs.start) as [s1|c1 s1];
    cbn [Xargs.holds Xargs.andthen] in *.
  2:{ destruct H as [H1 H2]. split; [exact H1|right; exact H2]. }
  unfold Xargs.at_eof.
  assert (Xargs.holds (fun s' => Xargs.quiet (Xargs.out s'))
            (fun c s' => Xargs.ending c (Xargs.out s') /\
                         ((exists n, Xargs.fork_ok e n = false) \/
                          (exists n, Xargs.malloc_ok e n = false)))
            (if Nat.ltb 0 (List.length (Xargs.tok s1))
             then Xargs.end_token MAXARG e fixed per_token true s1 else Xargs.Go s1)) as H1.
  { destruct (Nat.ltb 0 (List.length (Xargs.tok s1))); [apply end_token_ending|]; exact H. }
  destruct (if Nat.ltb 0 (List.length (Xargs.tok s1))
            then Xargs.end_token MAXARG e fixed per_token true s1 else Xargs.Go s1)
    as [s2|c2 s2]; cbn [Xargs.holds Xargs.andthen] in *.
  2:{ destruct H1 as [H1 H2]. split; [exact H1|right; exact H2]. }
  destruct (negb per_token && Nat.ltb 0 (List.length (Xargs.words s2)));
    cbn [Xargs.andthen Xargs.holds].
  2:{ split; [left; split; [reflexivity|exact H1]|left; reflexivity]. }
  unfold Xargs.run_with_tokens.
  pose proof (fork_exec_ending (fixed ++ Xargs.words s2) s2 H1) as H2.
  destruct (Xargs.fork_exec e (fixed ++ Xargs.words s2) s2) as [s3|c3 s3];
    cbn [Xargs.holds Xargs.andthen] in *.
  - split; [left; split; [reflexivity|apply H2]|left; reflexivity].
  - destruct H2 as [H2 H3]. split; [exact H2|]. right. left. eexists. exact H3.
Qed.

End Status.

(** X13.  Whatever its arguments and its input, xargs exits with status 0
    or 1: with 1 exactly when the last line it wrote is one of its own
    reports (usage, "only -n 1 supported", "fork failed", "malloc failed"),
    and with 0 otherwise, without any such line, even when every [exec]
    failed.  With a command and no failing [fork] or [malloc] the status is
    0. *)
Theorem xargs_status MAXARG e argv input :
  Xargs.ending (fst (Xargs.main MAXARG e argv input))
               (snd (Xargs.main MAXARG e argv input)) /\
  ((Xargs.has_n argv = false \/ nth 2 argv EmptyString = "1"%string) ->
   Xargs.first_arg argv < List.length argv ->
   (forall n, Xargs.fork_ok e n = true) -> (forall n, Xargs.malloc_ok e n = true) ->
   fst (Xargs.main MAXARG e argv input) = 0%Z).
Proof.
  unfold Xargs.main.
  destruct (Xargs.has_n argv && negb (String.eqb (nth 2 argv EmptyString) "1")) eqn:Eo.
  { split.
    - right. split; [reflexivity|]. exists [], "xargs: only -n 1 supported"%string.
      split; [reflexivity|]. right. right. right. reflexivity.
    - intros [Hn|H1] _ _ _; [rewrite Hn in Eo; discriminate Eo|].
      rewrite H1 in Eo. rewrite andb_false_r in Eo. discriminate Eo. }
  destruct (Nat.leb_spec (List.length argv) (Xargs.first_arg argv)) as [Hle|Hgt].
  { split.
    - right. split; [reflexivity|].
      exists [], "usage: xargs [-n 1] <cmd> [args...]"%string.
      split; [reflexivity|]. right. right. left. reflexivity.
    - intros _ Hlt. lia. }
  pose proof (run_ending MAXARG e (skipn (Xargs.first_arg argv) argv) (Xargs.has_n argv) input)
    as H.
  destruct (Xargs.andthen _ _) as [s|c s]; cbn [Xargs.holds fst snd] in *; [destruct H|].
  destruct H as [H1 H2]. split; [exact H1|]. intros _ _ Hf Hm.
  destruct H2 as [H2|[[n Hn]|[n Hn]]]; [exact H2| |].
  - rewrite Hf in Hn. discriminate Hn.
  - rewrite Hm in Hn. discriminate Hn.
Qed.

(** * xargs.c: quotes and escapes *)

Lemma andthen_ext r f g :
  (forall s, f s = g s) -> Xargs.andthen r f = Xargs.andthen r g.
Proof. intros H. destruct r; simpl; [apply H|reflexivity]. Qed.

(** Without a backslash in the text, the quotes could as well not be
    there. *)
Lemma loop_unquote MAXARG e fixed per_token input : forall s,
  forallb (fun c => negb (Ascii.eqb c Xargs.backslash)) input = true ->
  Xargs.loop MAXARG e fixed per_token input s =
  Xargs.loop MAXARG e fixed per_token (filter (fun c => negb (Xargs.is_quote c)) input) s.
Proof.
  induction input as [|ch rest IH]; intros s Hb; [reflexivity|].
  cbn [forallb] in Hb. apply andb_prop in Hb. destruct Hb as [Hc Hr].
  apply negb_true_iff in Hc. cbn [filter Xargs.loop].
  destruct (Xargs.is_quote ch) eqn:Eq; cbn [negb].
  - apply IH. exact Hr.
  - cbn [Xargs.loop]. rewrite Eq, Hc.
    destruct (Xargs.is_blank ch).
    + destruct (Nat.ltb 0 (List.length (Xargs.tok s))).
      * apply andthen_ext. intros s'. apply IH. exact Hr.
      * apply IH. exact Hr.
    + apply IH. exact Hr.
Qed.

(** X14.  Quotes are dropped: on a text without backslashes, xargs does
    what it does on the text with all single and double quotes removed. *)
Theorem xargs_quotes_dropped MAXARG e argv input :
  forallb (fun c => negb (Ascii.eqb c Xargs.backslash)) input = true ->
  Xargs.main MAXARG e argv input =
  Xargs.main MAXARG e argv (filter (fun c => negb (Xargs.is_quote c)) input).
Proof.
  intros Hb. unfold Xargs.main. rewrite <- loop_unquote by exact Hb. reflexivity.
Qed.

Lemma xargs_quotes_dropped_demo :
  Xargs.main 32 Xargs.kind ["xargs"; "echo"]%string
             ([Xargs.quote2] ++ list_ascii_of_string "a b" ++ [Xargs.quote2]
              ++ list_ascii_of_string " 'c'") =
  (0%Z, [Xargs.Ran ["echo"; "a"; "b"; "c"]%string]).
Proof.
  rewrite xargs_quotes_dropped; reflexivity.
Defined.

(** With [-n 1], a backslash followed by n ends a word as a newline does. *)
Lemma loop_unescape MAXARG e fixed input : forall s,
  Xargs.loop MAXARG e fixed true input s =
  Xargs.loop MAXARG e fixed true (Xargs.unescape input) s.
Proof.
  induction input as [input IH] using (induction_ltof1 _ (@List.length ascii)).
  unfold ltof in IH. intros s.
  destruct input as [|ch rest]; [reflexivity|]. cbn [Xargs.loop Xargs.unescape].
  destruct (Xargs.is_quote ch) eqn:Eq.
  { cbn [Xargs.loop]. rewrite Eq. apply IH. simpl. lia. }
  destruct (Ascii.eqb ch Xargs.backslash) eqn:Eb.
  - destruct rest as [|ch2 rest2].
    + cbn [Xargs.loop]. rewrite Eq, Eb. reflexivity.
    + destruct (Ascii.eqb ch2 "n") eqn:En.
      * cbn [Xargs.loop].
        change (Xargs.is_quote Xargs.newline) with false.
        change (Ascii.eqb Xargs.newline Xargs.backslash) with false.
        change (Xargs.is_blank Xargs.newline) with true. cbv iota.
        destruct (Nat.ltb 0 (List.length (Xargs.tok s))).
        -- unfold Xargs.end_token. apply andthen_ext. intros s'. apply IH. simpl. lia.
        -- apply IH. simpl. lia.
      * cbn [Xargs.loop]. rewrite Eq, Eb, En. apply IH. simpl. lia.
  - cbn [Xargs.loop]. rewrite Eq, Eb.
    destruct (Xargs.is_blank ch).
    + destruct (Nat.ltb 0 (List.length (Xargs.tok s))).
      * apply andthen_ext. intros s'. apply IH. simpl. lia.
      * apply IH. simpl. lia.
    + apply IH. simpl. lia.
Qed.

Lemma unescape_app a r :
  forallb (fun c => negb (Ascii.eqb c Xargs.backslash)) a = true ->
  Xargs.unescape (a ++ r) = a ++ Xargs.unescape r.
Proof.
  induction a as [|c a IH]; intros H; [reflexivity|].
  cbn [forallb] in H. apply andb_prop in H. destruct H as [Hc Ha].
  apply negb_true_iff in Hc.
  rewrite <- !app_comm_cons. cbn [Xargs.unescape]. rewrite Hc, (IH Ha).
  destruct (Xargs.is_quote c); reflexivity.
Qed.

(** X15.  With [-n 1], reading the input from left to right, a backslash
    takes the character after it with it, and a pair backslash, n formed
    in this way is read as a newline: xargs does on any input what it does
    on the input with these pairs replaced by newlines ([Xargs.unescape];
    a backslash taken by the backslash before it forms no pair).  In
    particular, after a text without backslashes, backslash, n and then
    any text is treated as the same with a newline for the pair. *)
Theorem xargs_escape_per_token MAXARG e prog cmd args :
  (forall input,
     Xargs.main MAXARG e (prog :: "-n"%string :: "1"%string :: cmd :: args) input =
     Xargs.main MAXARG e (prog :: "-n"%string :: "1"%string :: cmd :: args)
                (Xargs.unescape input)) /\
  (forall a b,
     forallb (fun c => negb (Ascii.eqb c Xargs.backslash)) a = true ->
     Xargs.main MAXARG e (prog :: "-n"%string :: "1"%string :: cmd :: args)
                (a ++ Xargs.backslash :: "n"%char :: b) =
     Xargs.main MAXARG e (prog :: "-n"%string :: "1"%string :: cmd :: args)
                (a ++ Xargs.newline :: b)) /\
  (forall a b,
     forallb (fun c => negb (Ascii.eqb c Xargs.backslash)) a = true ->
     Xargs.unescape (a ++ Xargs.backslash :: Xargs.backslash :: "n"%char :: b) =
     a ++ Xargs.backslash :: Xargs.backslash :: "n"%char :: Xargs.unescape b).
Proof.
  assert (forall input,
     Xargs.main MAXARG e (prog :: "-n"%string :: "1"%string :: cmd :: args) input =
     Xargs.main MAXARG e (prog :: "-n"%string :: "1"%string :: cmd :: args)
                (Xargs.unescape input)) as Hall.
  { intros input. unfold Xargs.main, Xargs.first_arg, Xargs.has_n.
    cbn [List.length Nat.leb String.eqb Ascii.eqb Bool.eqb nth andb negb skipn].
    rewrite <- loop_unescape. reflexivity. }
  split; [exact Hall|]. split.
  - intros a b Ha.
    rewrite (Hall (a ++ Xargs.backslash :: "n"%char :: b)), (Hall (a ++ Xargs.newline :: b)).
    rewrite !(unescape_app a _ Ha). reflexivity.
  - intros a b Ha. rewrite (unescape_app a _ Ha). reflexivity.
Qed.

Lemma xargs_escape_per_token_demo :
  Xargs.main 8 Xargs.kind ["xargs"; "-n"; "1"; "echo"]%string
             (list_ascii_of_string "x\ny") =
  Xargs.main 8 Xargs.kind ["xargs"; "-n"; "1"; "echo"]%string
             ("x"%char :: Xargs.newline :: ["y"%char]) /\
  snd (Xargs.main 8 Xargs.kind ["xargs"; "-n"; "1"; "echo"]%string
                  (list_ascii_of_string "x\ny")) =
  [Xargs.Ran ["echo"; "x"]%string; Xargs.Ran ["echo"; "y"]%string].
Proof.
  destruct (xargs_escape_per_token 8 Xargs.kind "xargs"%string "echo"%string [])
    as (_ & Hpair & _).
  split.
  - apply (Hpair ["x"%char] ["y"%char]). reflexivity.
  - vm_compute. reflexivity.
Defined.

(** ** A word before a backslash-n when words are collected *)

Lemma same_refl s : Xargs.same s s.
Proof. repeat split. Qed.

Lemma same_push c s t : Xargs.same s t -> Xargs.same (Xargs.push c s) (Xargs.push c t).
Proof.
  intros (Ht & Hw & Ho). unfold Xargs.push. rewrite Ht.
  destruct (Nat.ltb (List.length (Xargs.tok t)) (Xargs.TOKSZ - 1));
    repeat split; cbn [Xargs.tok Xargs.words Xargs.out Xargs.set_tok]; congruence.
Qed.

Lemma same_andthen r1 r2 k1 k2 :
  Xargs.same_result r1 r2 ->
  (forall s t, Xargs.same s t -> Xargs.same_result (k1 s) (k2 t)) ->
  Xargs.same_result (Xargs.andthen r1 k1) (Xargs.andthen r2 k2).
Proof. destruct r1, r2; simpl; auto; intros []. Qed.

Section Counters.
Variable MAXARG : nat.
Variable e : Xargs.env.
Variable fixed : list string.
Variable per_token : bool.
Hypothesis forks_ok : forall n, Xargs.fork_ok e n = true.
Hypothesis mallocs_ok : forall n, Xargs.malloc_ok e n = true.

Lemma same_fork_exec args s t :
  Xargs.same s t -> Xargs.same_result (Xargs.fork_exec e args s) (Xargs.fork_exec e args t).
Proof.
  intros (Ht & Hw & Ho). unfold Xargs.fork_exec. rewrite !forks_ok.
  repeat split; cbn [Xargs.tok Xargs.words Xargs.out Xargs.emit Xargs.count_fork];
    congruence.
Qed.

Lemma same_end_token keep s t :
  Xargs.same s t ->
  Xargs.same_result (Xargs.end_token MAXARG e fixed per_token keep s)
                    (Xargs.end_token MAXARG e fixed per_token keep t).
Proof.
  intros H. pose proof H as (Ht & Hw & Ho). unfold Xargs.end_token.
  destruct per_token.
  - unfold Xargs.run_with_token. rewrite Ht. apply same_fork_exec. exact H.
  - apply same_andthen.
    + unfold Xargs.flush_if_full, Xargs.run_with_tokens. rewrite Hw.
      destruct (Nat.leb MAXARG (List.length fixed + List.length (Xargs.words t) + 1));
        [|exact H].
      apply same_andthen; [apply same_fork_exec; exact H|].
      intros s1 t1 (Ht1 & Hw1 & Ho1). repeat split; assumption.
    + intros s1 t1 (Ht1 & Hw1 & Ho1). rewrite !mallocs_ok.
      destruct keep; repeat split;
        cbn [Xargs.tok Xargs.words Xargs.out Xargs.set_words Xargs.count_malloc];
        congruence.
Qed.

Lemma same_loop input : forall s t,
  Xargs.same s t ->
  Xargs.same_result (Xargs.loop MAXARG e fixed per_token input s)
                    (Xargs.loop MAXARG e fixed per_token input t).
Proof.
  induction input as [input IH] using (induction_ltof1 _ (@List.length ascii)).
  unfold ltof in IH. intros s t H. pose proof H as (Ht & Hw & Ho).
  assert (forall s1 t1, Xargs.same s1 t1 ->
            Xargs.same (Xargs.set_tok s1 []) (Xargs.set_tok t1 [])) as Hclear.
  { intros s1 t1 (_ & Hw1 & Ho1). repeat split; assumption. }
  destruct input as [|ch rest]; [exact H|]. cbn [Xargs.loop].
  destruct (Xargs.is_quote ch); [apply IH; [simpl; lia|exact H]|].
  destruct (Ascii.eqb ch Xargs.backslash).
  - destruct rest as [|ch2 rest2]; [apply same_push; exact H|].
    destruct (Ascii.eqb ch2 "n").
    + rewrite Ht. destruct (Nat.ltb 0 (List.length (Xargs.tok t))).
      * apply same_andthen; [apply same_end_token; exact H|].
        intros s1 t1 H1. apply IH; [simpl; lia|apply Hclear; exact H1].
      * apply IH; [simpl; lia|exact H].
    + apply IH; [simpl; lia|]. apply same_push, same_push. exact H.
  - destruct (Xargs.is_blank ch).
    + rewrite Ht. destruct (Nat.ltb 0 (List.length (Xargs.tok t))).
      * apply same_andthen; [apply same_end_token; exact H|].
        intros s1 t1 H1. apply IH; [simpl; lia|apply Hclear; exact H1].
      * apply IH; [simpl; lia|exact H].
    + apply IH; [simpl; lia|]. apply same_push. exact H.
Qed.

Lemma same_at_eof s t :
  Xargs.same s t ->
  Xargs.same_result (Xargs.at_eof MAXARG e fixed per_token s)
                    (Xargs.at_eof MAXARG e fixed per_token t).
Proof.
  intros H. pose proof H as (Ht & Hw & Ho). unfold Xargs.at_eof.
  apply same_andthen.
  - rewrite Ht. destruct (Nat.ltb 0 (List.length (Xargs.tok t)));
      [apply same_end_token|]; exact H.
  - intros s1 t1 H1. pose proof H1 as (Ht1 & Hw1 & Ho1). apply same_andthen.
    + rewrite Hw1. destruct (negb per_token && Nat.ltb 0 (List.length (Xargs.words t1)));
        [|exact H1].
      apply same_andthen; [apply same_fork_exec; exact H1|].
      intros s2 t2 (Ht2 & Hw2 & Ho2). repeat split; assumption.
    + intros s2 t2 (Ht2 & Hw2 & Ho2). split; [reflexivity|assumption].
Qed.

End Counters.

(** The loop on a word. *)
Lemma loop_word MAXARG e fixed per_token w rest : forall s,
  Xargs.plain w = true -> forallb (fun c => negb (Xargs.is_blank c)) w = true ->
  Xargs.loop MAXARG e fixed per_token (w ++ rest) s =
  Xargs.loop MAXARG e fixed per_token rest (fold_left (fun s c => Xargs.push c s) w s).
Proof.
  induction w as [|c w IH]; intros s Hp Hb; [reflexivity|].
  destruct (plain_cons c w Hp) as (Hq & Hbs & _ & Hw).
  cbn [forallb] in Hb. apply andb_prop in Hb. destruct Hb as [Hc Hb].
  apply negb_true_iff in Hc.
  rewrite <- app_comm_cons. cbn [Xargs.loop fold_left]. rewrite Hq, Hbs, Hc.
  apply IH; assumption.
Qed.

Lemma fold_push_fields w : forall s,
  Xargs.words (fold_left (fun s c => Xargs.push c s) w s) = Xargs.words s /\
  Xargs.out (fold_left (fun s c => Xargs.push c s) w s) = Xargs.out s /\
  Xargs.mallocs (fold_left (fun s c => Xargs.push c s) w s) = Xargs.mallocs s /\
  (Xargs.tok s <> [] \/ w <> [] ->
   Xargs.tok (fold_left (fun s c => Xargs.push c s) w s) <> []).
Proof.
  induction w as [|c w IH]; intros s.
  - simpl. repeat split. intros [H|H]; congruence.
  - cbn [fold_left]. destruct (IH (Xargs.push c s)) as (Hw & Ho & Hm & Ht).
    rewrite Hw, Ho, Hm, words_push, out_push, mallocs_push. repeat split.
    intros _. apply Ht. left. unfold Xargs.push.
    destruct (Xargs.tok s) as [|a l] eqn:E.
    + simpl. discriminate.
    + destruct (Nat.ltb _ _); cbn [Xargs.tok Xargs.set_tok]; rewrite ?E; discriminate.
Qed.

(** X16.  Without [-n 1], a word that is ended by a backslash followed by n
    is lost: a text that starts with such a word is treated as the text
    after it (when no [fork] and no [malloc] fails and the command leaves
    room for one more argument). *)
Theorem xargs_escape_drops_word MAXARG e prog cmd args w rest :
  (forall n, Xargs.fork_ok e n = true) -> (forall n, Xargs.malloc_ok e n = true) ->
  cmd <> "-n"%string -> List.length (cmd :: args) + 2 <= MAXARG ->
  Xargs.plain w = true -> forallb (fun c => negb (Xargs.is_blank c)) w = true -> w <> [] ->
  Xargs.main MAXARG e (prog :: cmd :: args) (w ++ Xargs.backslash :: "n"%char :: rest) =
  Xargs.main MAXARG e (prog :: cmd :: args) rest.
Proof.
  intros Hf Hm Hcmd Hroom Hp Hb Hne.
  unfold Xargs.main, Xargs.first_arg, Xargs.has_n. cbn [List.length nth Nat.leb].
  apply String.eqb_neq in Hcmd. rewrite Hcmd, andb_false_r. cbn [andb skipn].
  rewrite (loop_word MAXARG e (cmd :: args) false w _ Xargs.start Hp Hb).
  destruct (fold_push_fields w Xargs.start) as (Hw & Ho & Hmc & Ht).
  specialize (Ht (or_intror Hne)).
  remember (fold_left (fun s c => Xargs.push c s) w Xargs.start) as sw eqn:Esw.
  cbn [Xargs.loop].
  change (Xargs.is_quote Xargs.backslash) with false.
  rewrite Ascii.eqb_refl. cbv iota.
  change (Ascii.eqb "n" "n") with true. cbv iota.
  assert (Nat.ltb 0 (List.length (Xargs.tok sw)) = true) as Hpos
    by (destruct (Xargs.tok sw); [congruence|reflexivity]).
  rewrite Hpos. unfold Xargs.end_token, Xargs.flush_if_full. rewrite Hw.
  cbn [Xargs.words Xargs.start List.length].
  assert (Nat.leb MAXARG (S (List.length args) + 0 + 1) = false) as Hfree
    by (apply Nat.leb_gt; cbn [List.length] in Hroom; lia).
  rewrite Hfree. cbn [Xargs.andthen]. rewrite Hm. cbn [Xargs.andthen].
  pose proof (same_loop MAXARG e (cmd :: args) false Hf Hm rest
                (Xargs.set_tok (Xargs.set_words (Xargs.count_malloc sw) (Xargs.words sw)) [])
                Xargs.start) as Hl.
  specialize (Hl ltac:(repeat split; cbn; rewrite ?Ho, ?Hw; reflexivity)).
  destruct (Xargs.loop MAXARG e (cmd :: args) false rest
              (Xargs.set_tok (Xargs.set_words (Xargs.count_malloc sw) (Xargs.words sw)) [])) as [s1|c1 s1];
    destruct (Xargs.loop MAXARG e (cmd :: args) false rest Xargs.start) as [t1|d1 t1];
    cbn [Xargs.same_result Xargs.andthen] in *; try contradiction.
  - pose proof (same_at_eof MAXARG e (cmd :: args) false Hf Hm s1 t1 Hl) as He.
    destruct (Xargs.at_eof MAXARG e (cmd :: args) false s1);
      destruct (Xargs.at_eof MAXARG e (cmd :: args) false t1);
      cbn [Xargs.same_result] in He; try contradiction.
    + destruct He as (_ & _ & He). simpl. rewrite He. reflexivity.
    + destruct He as [-> He]. simpl. rewrite He. reflexivity.
  - destruct Hl as [-> Hl]. simpl. rewrite Hl. reflexivity.
Qed.

Lemma xargs_escape_drops_word_demo :
  Xargs.main 32 Xargs.kind ["xargs"; "echo"]%string
             (list_ascii_of_string "lost" ++ Xargs.backslash :: "n"%char
              :: list_ascii_of_string "kept") =
  (0%Z, [Xargs.Ran ["echo"; "kept"]%string]).
Proof.
  rewrite (xargs_escape_drops_word 32 Xargs.kind "xargs" "echo" []
             (list_ascii_of_string "lost") (list_ascii_of_string "kept"));
    try reflexivity; try discriminate. simpl. lia.
Defined.

(** * pingpong.c *)

Lemma mem_In s l : Pingpong.mem s l = true <-> In s l.
Proof.
  unfold Pingpong.mem. rewrite existsb_exists. split.
  - intros (t & Hin & Ht). destruct (Pingpong.state_eq_dec s t); [subst; exact Hin|discriminate].
  - intros Hin. exists s. split; [exact Hin|].
    destruct (Pingpong.state_eq_dec s s); [reflexivity|congruence].
Qed.

Lemma next_step cap s k f s' :
  Pingpong.step cap s k f = Some s' -> In s' (Pingpong.next cap s).
Proof.
  intros H. unfold Pingpong.next. apply in_flat_map. exists (k, f). split.
  - unfold Pingpong.moves. destruct k, f; simpl; auto.
  - simpl. rewrite H. left. reflexivity.
Qed.

(** With room for one byte a pipe is as good as with room for more. *)
Lemma step_cap cap s k f :
  1 <= cap -> Pingpong.writes_empty s = true ->
  Pingpong.step cap s k f = Pingpong.step 1 s k f.
Proof.
  intros Hcap Hw. unfold Pingpong.writes_empty in Hw. apply andb_prop in Hw.
  destruct Hw as [Hp Hc].
  destruct k; unfold Pingpong.step, Pingpong.step_parent, Pingpong.step_child.
  - destruct (Pingpong.parent s); try reflexivity.
    unfold Pingpong.write1. destruct (buf (Pingpong.p2c s)); [|discriminate].
    destruct (Nat.eqb (rd (Pingpong.p2c s)) 0); [reflexivity|].
    assert (Nat.ltb (@List.length Z []) cap = true) as -> by (apply Nat.ltb_lt; simpl; lia).
    reflexivity.
  - destruct (Pingpong.child s); try reflexivity.
    unfold Pingpong.write1. destruct (buf (Pingpong.c2p s)); [|discriminate].
    destruct (Nat.eqb (rd (Pingpong.c2p s)) 0); [reflexivity|].
    assert (Nat.ltb (@List.length Z []) cap = true) as -> by (apply Nat.ltb_lt; simpl; lia).
    reflexivity.
Qed.

Lemma reach_closed : Pingpong.closed 1 Pingpong.reach = true.
Proof. vm_compute. reflexivity. Qed.

Lemma reach_writes_empty : forallb Pingpong.writes_empty Pingpong.reach = true.
Proof. vm_compute. reflexivity. Qed.

Lemma reach_init : In Pingpong.init Pingpong.reach.
Proof. apply mem_In. vm_compute. reflexivity. Qed.

Lemma reach_step cap s k f s' :
  1 <= cap -> In s Pingpong.reach -> Pingpong.step cap s k f = Some s' ->
  In s' Pingpong.reach.
Proof.
  intros Hcap Hin H.
  pose proof reach_writes_empty as Hw. rewrite forallb_forall in Hw.
  rewrite (step_cap cap s k f Hcap (Hw s Hin)) in H.
  pose proof reach_closed as Hc. unfold Pingpong.closed in Hc.
  rewrite forallb_forall in Hc. specialize (Hc s Hin). rewrite forallb_forall in Hc.
  apply mem_In. apply Hc. eapply next_step. exact H.
Qed.

Lemma run_cons cap s k f sc st :
  Pingpong.run cap s ((k, f) :: sc) = Some st ->
  exists s1, Pingpong.step cap s k f = Some s1 /\ Pingpong.run cap s1 sc = Some st.
Proof.
  simpl. destruct (Pingpong.step cap s k f) as [s1|]; [|discriminate].
  intros H. exists s1. split; [reflexivity|exact H].
Qed.

(** Every state of every run is among the states found. *)
Lemma reach_run cap sc : forall s st,
  1 <= cap -> In s Pingpong.reach -> Pingpong.run cap s sc = Some st ->
  In st Pingpong.reach.
Proof.
  induction sc as [|[k f] sc IH]; intros s st Hcap Hin H.
  - simpl in H. injection H as <-. exact Hin.
  - destruct (run_cons cap s k f sc st H) as (s1 & E & H1).
    exact (IH s1 st Hcap (reach_step cap s k f s1 Hcap Hin E) H1).
Qed.

(** What holds of all the states found holds in every run. *)
Lemma checked (P : Pingpong.state -> bool) cap sc st :
  forallb P Pingpong.reach = true ->
  1 <= cap -> Pingpong.run cap Pingpong.init sc = Some st -> P st = true.
Proof.
  intros HP Hcap H.
  exact (proj1 (forallb_forall P Pingpong.reach) HP st
           (reach_run cap sc Pingpong.init st Hcap reach_init H)).
Qed.

(** ** The order of the two lines *)

(** X17.  Whatever the scheduling, the refusals and the size of the pipes,
    standard output is at every moment an initial part of the two lines
    "<child pid>: received ping", "<parent pid>: received pong": ping comes
    first, neither line is printed twice, and pong is never printed without
    ping. *)
Theorem pingpong_order cap sc st ppid cpid :
  1 <= cap -> Pingpong.run cap Pingpong.init sc = Some st ->
  exists rest,
    (Pingpong.stdout ppid cpid st ++ rest)%list =
    [Pingpong.render ppid cpid Pingpong.Ping; Pingpong.render ppid cpid Pingpong.Pong].
Proof.
  intros Hcap H.
  assert (Pingpong.out_ok st = true) as Hok
    by (apply (checked Pingpong.out_ok cap sc st); [vm_compute; reflexivity|exact Hcap|exact H]).
  unfold Pingpong.out_ok in Hok. unfold Pingpong.stdout.
  destruct (Pingpong.out st) as [|[|] [|[|] [|? ?]]]; try discriminate.
  - eexists. reflexivity.
  - exists [Pingpong.render ppid cpid Pingpong.Pong]. reflexivity.
  - exists []. reflexivity.
Qed.

Lemma pingpong_order_demo :
  Pingpong.stdout 3 4 (Pingpong.mkState Pingpong.P_read (Pingpong.C_write 120)
                         (mkPipe [120%Z] [] 1 1) (mkPipe [] [] 1 1) [Pingpong.Ping] []) =
  ["4: received ping"%string] /\
  exists rest,
    (Pingpong.stdout 3 4 (Pingpong.mkState Pingpong.P_read (Pingpong.C_write 120)
                            (mkPipe [120%Z] [] 1 1) (mkPipe [] [] 1 1) [Pingpong.Ping] [])
       ++ rest)%list =
    [Pingpong.render 3 4 Pingpong.Ping; Pingpong.render 3 4 Pingpong.Pong].
Proof.
  split; [vm_compute; reflexivity|].
  apply (pingpong_order 512 Pingpong.demo_half _ 3%Z 4%Z); [lia|vm_compute; reflexivity].
Defined.

(** ** The reads and writes cannot fail *)

(** X18.  The four reports of a failed read or write ("child: read error",
    "child: write error", "parents: write error", "parents: read error")
    are never written and their branches are never entered: in every run
    descriptor 2 holds nothing, or the one line "pipe() failed" or
    "fork() failed". *)
Theorem pingpong_transfer_safe cap sc st :
  1 <= cap -> Pingpong.run cap Pingpong.init sc = Some st ->
  (Pingpong.errs st = [] \/ Pingpong.errs st = ["pipe() failed"%string] \/
   Pingpong.errs st = ["fork() failed"%string]) /\
  ~ In (Pingpong.parent st) [Pingpong.P_write_err; Pingpong.P_read_err; Pingpong.P_fail_exit] /\
  ~ In (Pingpong.child st) [Pingpong.C_read_err; Pingpong.C_write_err; Pingpong.C_fail_exit].
Proof.
  intros Hcap H.
  assert (Pingpong.errs_ok st = true) as He
    by (apply (checked Pingpong.errs_ok cap sc st); [vm_compute; reflexivity|exact Hcap|exact H]).
  assert (Pingpong.transfers_ok st = true) as Hp
    by (apply (checked Pingpong.transfers_ok cap sc st); [vm_compute; reflexivity|exact Hcap|exact H]).
  unfold Pingpong.transfers_ok in Hp. split; [|split].
  - unfold Pingpong.errs_ok in He. destruct (Pingpong.errs st) as [|m [|? ?]]; try discriminate.
    + left. reflexivity.
    + right. apply orb_prop in He. destruct He as [He|He]; apply String.eqb_eq in He; subst m; auto.
  - intros [E|[E|[E|[]]]]; rewrite <- E in Hp; discriminate.
  - intros [E|[E|[E|[]]]]; rewrite <- E in Hp;
      destruct (Pingpong.parent st); discriminate.
Qed.

Lemma pingpong_transfer_safe_demo :
  Pingpong.run 1 Pingpong.init Pingpong.demo_refused =
    Some (Pingpong.mkState (Pingpong.Zombie 1) Pingpong.Unborn (mkPipe [] [] 0 0)
            (mkPipe [] [] 0 0) [] ["fork() failed"%string]) /\
  ~ In (Pingpong.Zombie 1) [Pingpong.P_write_err; Pingpong.P_read_err; Pingpong.P_fail_exit].
Proof.
  assert (Pingpong.run 1 Pingpong.init Pingpong.demo_refused =
    Some (Pingpong.mkState (Pingpong.Zombie 1) Pingpong.Unborn (mkPipe [] [] 0 0)
            (mkPipe [] [] 0 0) [] ["fork() failed"%string])) as H by (vm_compute; reflexivity).
  split; [exact H|].
  destruct (pingpong_transfer_safe 1 Pingpong.demo_refused _ ltac:(lia) H) as (_ & Hp & _).
  exact Hp.
Defined.

(** ** Runs in which nothing is refused *)

Lemma pingpong_clean_run cap sc : forall s st,
  1 <= cap -> In s Pingpong.reach -> Pingpong.clean s = true ->
  Pingpong.fault_free sc = true -> Pingpong.run cap s sc = Some st ->
  Pingpong.clean st = true.
Proof.
  induction sc as [|[k f] sc IH]; intros s st Hcap Hin Hc Hf H; simpl in H.
  - injection H as <-. exact Hc.
  - simpl in Hf. apply andb_prop in Hf. destruct Hf as [Hf1 Hf].
    destruct f; [discriminate|].
    destruct (Pingpong.step cap s k false) as [s1|] eqn:E; [|discriminate].
    refine (IH s1 st Hcap (reach_step cap s k false s1 Hcap Hin E) _ Hf H).
    pose proof reach_writes_empty as Hw. rewrite forallb_forall in Hw.
    rewrite (step_cap cap s k false Hcap (Hw s Hin)) in E.
    assert (forallb (Pingpong.clean_kept 1) Pingpong.reach = true) as Hk
      by (vm_compute; reflexivity).
    rewrite forallb_forall in Hk. specialize (Hk s Hin).
    unfold Pingpong.clean_kept in Hk. rewrite Hc in Hk. cbn [negb orb forallb] in Hk.
    destruct k; rewrite E in Hk.
    + apply andb_prop in Hk. apply Hk.
    + apply andb_prop in Hk. destruct Hk as [_ Hk].
      destruct (Pingpong.step 1 s Pingpong.Parent false);
        apply andb_prop in Hk; apply Hk.
Qed.

(** X19.  When neither [pipe] nor [fork] is refused and the parent has
    exited, it has exited with status 0 after collecting its child, which
    exited with status 0 too; standard output is the ping line followed by
    the pong line, nothing was written to descriptor 2, and both pipes are
    closed at both ends and empty. *)
Theorem pingpong_completes cap sc st :
  1 <= cap -> Pingpong.fault_free sc = true ->
  Pingpong.run cap Pingpong.init sc = Some st ->
  Pingpong.exited (Pingpong.parent st) = true ->
  Pingpong.parent st = Pingpong.Zombie 0 /\ Pingpong.child st = Pingpong.Reaped 0 /\
  Pingpong.out st = [Pingpong.Ping; Pingpong.Pong] /\ Pingpong.errs st = [] /\
  Pingpong.p2c st = mkPipe [120%Z] [] 0 0 /\ Pingpong.c2p st = mkPipe [120%Z] [] 0 0.
Proof.
  intros Hcap Hf H Hx.
  assert (Pingpong.clean st = true) as Hc
    by (apply (pingpong_clean_run cap sc Pingpong.init st Hcap reach_init); [reflexivity|exact Hf|exact H]).
  assert (Pingpong.ends_done st = true) as Hs
    by (apply (checked Pingpong.ends_done cap sc st); [vm_compute; reflexivity|exact Hcap|exact H]).
  unfold Pingpong.ends_done in Hs. rewrite Hc, Hx in Hs. simpl in Hs.
  destruct (Pingpong.state_eq_dec st _) as [->|]; [|discriminate].
  repeat split.
Qed.

Lemma pingpong_completes_demo :
  Pingpong.fault_free Pingpong.demo = true /\
  Pingpong.run 512 Pingpong.init Pingpong.demo =
    Some Pingpong.done /\
  Pingpong.out Pingpong.done =
    [Pingpong.Ping; Pingpong.Pong].
Proof.
  assert (Pingpong.run 512 Pingpong.init Pingpong.demo =
    Some Pingpong.done)
    as H by (vm_compute; reflexivity).
  split; [vm_compute; reflexivity|]. split; [exact H|].
  destruct (pingpong_completes 512 Pingpong.demo _ ltac:(lia) ltac:(vm_compute; reflexivity) H
              ltac:(reflexivity)) as (_ & _ & Ho & _).
  exact Ho.
Defined.

(** ** The parent exits last *)

(** X20.  In every run, refusals included, when the parent has exited no
    child is left: either none was created, or it has exited and the
    parent's [wait] has collected it; and no end of either pipe is open.
    If something was reported on descriptor 2 the parent's status is 1,
    no child was created and nothing was printed. *)
Theorem pingpong_parent_last cap sc st :
  1 <= cap -> Pingpong.run cap Pingpong.init sc = Some st ->
  Pingpong.exited (Pingpong.parent st) = true ->
  (Pingpong.child st = Pingpong.Unborn \/ exists s, Pingpong.child st = Pingpong.Reaped s) /\
  rd (Pingpong.p2c st) = 0 /\ wr (Pingpong.p2c st) = 0 /\
  rd (Pingpong.c2p st) = 0 /\ wr (Pingpong.c2p st) = 0 /\
  (Pingpong.errs st <> [] ->
   Pingpong.parent st = Pingpong.Zombie 1 /\ Pingpong.child st = Pingpong.Unborn /\
   Pingpong.out st = []).
Proof.
  intros Hcap H Hx.
  assert (Pingpong.joined st = true) as Hj
    by (apply (checked Pingpong.joined cap sc st); [vm_compute; reflexivity|exact Hcap|exact H]).
  assert (Pingpong.refused_end st = true) as He
    by (apply (checked Pingpong.refused_end cap sc st); [vm_compute; reflexivity|exact Hcap|exact H]).
  unfold Pingpong.refused_end in He. unfold Pingpong.joined in Hj. rewrite Hx in Hj, He. simpl in Hj, He.
  apply andb_prop in Hj. destruct Hj as [Hj Hc2]. apply andb_prop in Hj. destruct Hj as [Hch Hc1].
  unfold Pingpong.pipe_closed in Hc1, Hc2.
  apply andb_prop in Hc1. destruct Hc1 as [Hc1 _]. apply andb_prop in Hc1.
  destruct Hc1 as [R1 W1]. apply Nat.eqb_eq in R1, W1.
  apply andb_prop in Hc2. destruct Hc2 as [Hc2 _]. apply andb_prop in Hc2.
  destruct Hc2 as [R2 W2]. apply Nat.eqb_eq in R2, W2.
  repeat split; try assumption.
  - destruct (Pingpong.child st); try discriminate; [left; reflexivity|right; eexists; reflexivity].
  - destruct (Pingpong.errs st); [congruence|].
    destruct (Pingpong.pc_eq_dec (Pingpong.parent st) (Pingpong.Zombie 1)); [assumption|discriminate].
  - destruct (Pingpong.errs st); [congruence|].
    apply andb_prop in He. destruct He as [He _]. apply andb_prop in He. destruct He as [_ He].
    destruct (Pingpong.pc_eq_dec (Pingpong.child st) Pingpong.Unborn); [assumption|discriminate].
  - destruct (Pingpong.errs st); [congruence|].
    apply andb_prop in He. destruct He as [_ He].
    destruct (Pingpong.out st); [reflexivity|discriminate].
Qed.

Lemma pingpong_parent_last_demo :
  Pingpong.run 1 Pingpong.init Pingpong.demo_refused =
    Some (Pingpong.mkState (Pingpong.Zombie 1) Pingpong.Unborn (mkPipe [] [] 0 0)
            (mkPipe [] [] 0 0) [] ["fork() failed"%string]) /\
  rd (mkPipe [] [] 0 0) = 0.
Proof.
  assert (Pingpong.run 1 Pingpong.init Pingpong.demo_refused =
    Some (Pingpong.mkState (Pingpong.Zombie 1) Pingpong.Unborn (mkPipe [] [] 0 0)
            (mkPipe [] [] 0 0) [] ["fork() failed"%string])) as H by (vm_compute; reflexivity).
  split; [exact H|].
  destruct (pingpong_parent_last 1 Pingpong.demo_refused _ ltac:(lia) H ltac:(reflexivity))
    as (_ & R & _).
  exact R.
Defined.

(** ** Termination *)

Lemma measure_run cap sc : forall s st,
  1 <= cap -> In s Pingpong.reach -> Pingpong.run cap s sc = Some st ->
  Pingpong.measure st + List.length sc <= Pingpong.measure s.
Proof.
  induction sc as [|[k f] sc IH]; intros s st Hcap Hin H; simpl in H.
  - injection H as <-. simpl. lia.
  - destruct (Pingpong.step cap s k f) as [s1|] eqn:E; [|discriminate].
    pose proof (IH s1 st Hcap (reach_step cap s k f s1 Hcap Hin E) H) as Hm.
    pose proof reach_writes_empty as Hw. rewrite forallb_forall in Hw.
    rewrite (step_cap cap s k f Hcap (Hw s Hin)) in E.
    assert (forallb (Pingpong.decreasing 1) Pingpong.reach = true) as Hd
      by (vm_compute; reflexivity).
    rewrite forallb_forall in Hd. specialize (Hd s Hin).
    unfold Pingpong.decreasing in Hd. rewrite forallb_forall in Hd.
    specialize (Hd s1 (next_step 1 s k f s1 E)). apply Nat.ltb_lt in Hd.
    simpl List.length. lia.
Qed.

(** X21.  The program always ends: a run has at most 21 steps, whatever
    the scheduling and the refusals, and it never gets stuck before the
    parent has exited: as long as the parent has not exited, the parent or
    the child can take a step (a read that has to wait for its byte and a
    [wait] that has to wait for the child are not steps). *)
Theorem pingpong_terminates cap sc st :
  1 <= cap -> Pingpong.run cap Pingpong.init sc = Some st ->
  List.length sc <= 21 /\
  (Pingpong.exited (Pingpong.parent st) = false ->
   exists k st', Pingpong.step cap st k false = Some st').
Proof.
  intros Hcap H. split.
  - pose proof (measure_run cap sc Pingpong.init st Hcap reach_init H) as Hm.
    change (Pingpong.measure Pingpong.init) with 21 in Hm. lia.
  - intros Hx.
    assert (Pingpong.live 1 st = true) as Hl
      by (apply (checked (Pingpong.live 1) cap sc st); [vm_compute; reflexivity|exact Hcap|exact H]).
    assert (Pingpong.writes_empty st = true) as Hw
      by (apply (checked Pingpong.writes_empty cap sc st);
          [exact reach_writes_empty|exact Hcap|exact H]).
    unfold Pingpong.live in Hl. rewrite Hx in Hl. cbn [orb] in Hl.
    destruct (Pingpong.step 1 st Pingpong.Parent false) as [s1|] eqn:E1.
    + exists Pingpong.Parent, s1. rewrite (step_cap cap st _ false Hcap Hw). exact E1.
    + destruct (Pingpong.step 1 st Pingpong.Child false) as [s2|] eqn:E2; [|discriminate].
      exists Pingpong.Child, s2. rewrite (step_cap cap st _ false Hcap Hw). exact E2.
Qed.

Lemma pingpong_terminates_demo :
  Pingpong.run 512 Pingpong.init Pingpong.demo =
    Some Pingpong.done /\
  List.length Pingpong.demo <= 21.
Proof.
  assert (Pingpong.run 512 Pingpong.init Pingpong.demo =
    Some Pingpong.done)
    as H by (vm_compute; reflexivity).
  split; [exact H|].
  destruct (pingpong_terminates 512 Pingpong.demo _ ltac:(lia) H) as (Hl & _).
  exact Hl.
Defined.

(** * find.c *)

(** Induction on what the kernel answers, the entries of a directory
    included. *)
Lemma node_induction (P : Find.node -> Prop) :
  P Find.NoOpen -> P Find.NoStat -> P Find.File -> P Find.Device ->
  (forall entries, Forall (fun e => P (snd e)) entries -> P (Find.Dir entries)) ->
  forall n, P n.
Proof.
  intros H1 H2 H3 H4 H5.
  fix IH 1. intros [ | | | |entries]; try assumption.
  apply H5. induction entries as [|[[i f] sub] l IHl]; constructor.
  - apply IH.
  - exact IHl.
Qed.

Lemma same_true a b : Find.same a b = true <-> a = b.
Proof.
  unfold Find.same. destruct (list_eq_dec Ascii.ascii_dec a b); split; congruence.
Qed.

Lemma same_false a b : Find.same a b = false <-> a <> b.
Proof.
  unfold Find.same. destruct (list_eq_dec Ascii.ascii_dec a b); split; congruence.
Qed.

Lemma find_dir path target entries :
  Find.find path target (Find.Dir entries) =
  if Nat.ltb Find.BUFSZ (List.length path + 1 + Find.DIRSIZ + 1)
  then [Find.Open path true; Find.Stderr (Find.text "find: path too long"); Find.Close]
  else Find.Open path true :: flat_map (Find.visit path target) entries ++ [Find.Close].
Proof. reflexivity. Qed.

(** ** [basename] *)

Lemma upto_slash_split l :
  ~ In Find.slash (Find.upto_slash l) /\
  (l = Find.upto_slash l \/ exists r, l = Find.upto_slash l ++ Find.slash :: r).
Proof.
  induction l as [|c l [IH1 IH2]]; simpl.
  - split; [tauto|left; reflexivity].
  - destruct (Ascii.eqb_spec c Find.slash) as [->|Hc].
    + split; [simpl; tauto|]. right. exists l. reflexivity.
    + split.
      * simpl. intros [E|E]; [congruence|tauto].
      * destruct IH2 as [E|[r E]].
        -- left. simpl. congruence.
        -- right. exists r. simpl. congruence.
Qed.

Lemma upto_slash_app a b :
  ~ In Find.slash a -> Find.upto_slash (a ++ Find.slash :: b) = a.
Proof.
  induction a as [|c a IH]; intros H.
  - reflexivity.
  - cbn [Find.upto_slash app]. destruct (Ascii.eqb_spec c Find.slash) as [->|Hc].
    + exfalso. apply H. left. reflexivity.
    + rewrite IH; [reflexivity|]. intros Hin. apply H. right. exact Hin.
Qed.

Lemma upto_slash_none a : ~ In Find.slash a -> Find.upto_slash a = a.
Proof.
  induction a as [|c a IH]; intros H; simpl; [reflexivity|].
  destruct (Ascii.eqb_spec c Find.slash) as [->|Hc].
  - exfalso. apply H. left. reflexivity.
  - rewrite IH; [reflexivity|]. intros Hin. apply H. right. exact Hin.
Qed.

(** X22.  [basename] returns the part of the path after its last '/', the
    whole path when it has none: the path is a directory part, empty or
    ending in '/', followed by the result, the result has no '/' in it, and
    a name without '/' appended to any directory part and a '/' is given
    back unchanged. *)
Theorem basename_last_component path :
  (exists dir, path = dir ++ Find.basename path /\
               (dir = [] \/ exists d, dir = d ++ [Find.slash])) /\
  ~ In Find.slash (Find.basename path) /\
  (forall dir name, ~ In Find.slash name ->
     Find.basename (dir ++ Find.slash :: name) = name) /\
  (~ In Find.slash path -> Find.basename path = path).
Proof.
  unfold Find.basename. repeat split.
  - destruct (upto_slash_split (rev path)) as [_ [E|[r E]]].
    + exists []. split; [|left; reflexivity].
      rewrite <- E, rev_involutive. reflexivity.
    + exists (rev r ++ [Find.slash]). split; [|right; exists (rev r); reflexivity].
      apply (f_equal (@rev ascii)) in E. rewrite rev_involutive in E.
      rewrite rev_app_distr in E. simpl in E. exact E.
  - destruct (upto_slash_split (rev path)) as [H _].
    intros Hin. apply H. apply in_rev. exact Hin.
  - intros dir name H.
    rewrite rev_app_distr. simpl. rewrite <- app_assoc. simpl.
    rewrite upto_slash_app; [apply rev_involutive|].
    intros Hin. apply H. apply in_rev. exact Hin.
  - intros H. rewrite upto_slash_none; [apply rev_involutive|].
    intros Hin. apply H. apply in_rev. exact Hin.
Qed.

Lemma basename_last_component_demo :
  Find.basename (Find.text "./d/b") = Find.text "b" /\
  Find.basename (Find.text "b") = Find.text "b".
Proof.
  destruct (basename_last_component (Find.text "b")) as (_ & _ & Hj & Hn).
  split.
  - apply (Hj (Find.text "./d") (Find.text "b")).
    vm_compute. intros [E|[]]. discriminate E.
  - apply Hn. vm_compute. intros [E|[]]. discriminate E.
Defined.

(** ** What is printed *)

Lemma visit_stdout path target e p :
  In (Find.Stdout p) (Find.visit path target e) ->
  fst (fst e) <> 0 /\ Find.entry_name (snd (fst e)) <> [Find.dot] /\
  Find.entry_name (snd (fst e)) <> [Find.dot; Find.dot] /\
  In (Find.Stdout p)
     (Find.find (path ++ Find.slash :: Find.entry_name (snd (fst e))) target (snd e)).
Proof.
  destruct e as [[i f] sub]. unfold Find.visit. simpl fst. simpl snd.
  destruct (Nat.eqb_spec i 0) as [->|Hi]; [intros []|].
  destruct (Find.same (Find.entry_name f) [Find.dot]) eqn:E1; [intros []|].
  destruct (Find.same (Find.entry_name f) [Find.dot; Find.dot]) eqn:E2; [intros []|].
  simpl orb. cbv iota. intros H.
  apply same_false in E1, E2. repeat split; assumption.
Qed.

Lemma stdout_visit path target i f sub p :
  i <> 0 -> Find.entry_name f <> [Find.dot] -> Find.entry_name f <> [Find.dot; Find.dot] ->
  In (Find.Stdout p) (Find.find (path ++ Find.slash :: Find.entry_name f) target sub) ->
  In (Find.Stdout p) (Find.visit path target (i, f, sub)).
Proof.
  intros Hi H1 H2 H. unfold Find.visit.
  destruct (Nat.eqb_spec i 0) as [E|_]; [contradiction|].
  apply same_false in H1, H2. rewrite H1, H2. exact H.
Qed.

Lemma find_stdout target n : forall path p,
  In (Find.Stdout p) (Find.find path target n) <->
  Find.file_at path n p /\ Find.basename p = target.
Proof.
  induction n as [ | | | |entries IH] using node_induction; intros path p.
  - split.
    + simpl. intros [E|[E|[]]]; discriminate.
    + intros [H _]. inversion H.
  - split.
    + simpl. intros [E|[E|[E|[]]]]; discriminate.
    + intros [H _]. inversion H.
  - split.
    + simpl. intros [E|H]; [discriminate|].
      apply in_app_or in H. destruct H as [H|[E|[]]]; [|discriminate].
      destruct (Find.same (Find.basename path) target) eqn:Es; [|destruct H].
      destruct H as [E|[]]. injection E as <-.
      apply same_true in Es. split; [constructor|exact Es].
    + intros [H Hb]. inversion H; subst. simpl. right. apply in_or_app. left.
      rewrite (proj2 (same_true _ _) eq_refl). left. reflexivity.
  - split.
    + simpl. intros [E|[E|[]]]; discriminate.
    + intros [H _]. inversion H.
  - rewrite find_dir. split.
    + destruct (Nat.ltb_spec Find.BUFSZ (List.length path + 1 + Find.DIRSIZ + 1)) as [Hl|Hl].
      * simpl. intros [E|[E|[E|[]]]]; discriminate.
      * intros [E|H]; [discriminate|].
        apply in_app_or in H. destruct H as [H|[E|[]]]; [|discriminate].
        apply in_flat_map in H. destruct H as ([[i f] sub] & Hin & H).
        apply visit_stdout in H. simpl in H. destruct H as (Hi & H1 & H2 & H).
        rewrite Forall_forall in IH. apply (IH _ Hin) in H. simpl in H.
        destruct H as [Hat Hb]. split; [|exact Hb].
        apply (Find.at_entry path entries i f sub p); assumption.
    + intros [H Hb].
      inversion H as [|q es inum field sub q' Hfit Hin Hi Hn1 Hn2 Hat]; subst.
      destruct (Nat.ltb_spec Find.BUFSZ (List.length path + 1 + Find.DIRSIZ + 1)) as [Hl|Hl];
        [lia|].
      right. apply in_or_app. left. apply in_flat_map.
      exists (inum, field, sub). split; [assumption|].
      apply stdout_visit; try assumption.
      rewrite Forall_forall in IH. apply (IH _ Hin). simpl. split; [assumption|reflexivity].
Qed.

(** X23.  [find start target] prints exactly the paths of the files below
    [start] whose last component is [target]: a path is printed if and only
    if it is the path of a file (not a directory or a device) reached from
    [start] through directories whose path leaves room for a name in the
    buffer of 512 bytes, along entries in use whose names are not "." or
    "..", and the part of it after the last '/' equals [target].  A name
    that cannot be opened does not stop the search of the others. *)
Theorem find_prints_matches prog start target root p :
  In (Find.Stdout p) (snd (Find.main [prog; start; target] root)) <->
  Find.file_at start root p /\ Find.basename p = target.
Proof. apply find_stdout. Qed.

Lemma find_prints_matches_demo :
  In (Find.Stdout (Find.text "./d/b"))
     (snd (Find.main [Find.text "find"; Find.text "."; Find.text "b"] Find.demo)) /\
  ~ In (Find.Stdout (Find.text "./d/c"))
     (snd (Find.main [Find.text "find"; Find.text "."; Find.text "b"] Find.demo)).
Proof.
  split.
  - vm_compute. tauto.
  - intros H.
    apply (proj1 (find_prints_matches (Find.text "find") (Find.text ".") (Find.text "b")
                    Find.demo (Find.text "./d/c"))) in H.
    destruct H as [_ H]. vm_compute in H. discriminate H.
Defined.

Lemma file_at_under path n p :
  Find.file_at path n p ->
  exists rest, p = path ++ rest /\
    match n with Find.Dir _ => exists r, rest = Find.slash :: r | _ => rest = [] end.
Proof.
  induction 1 as [path|path entries i f sub p Hl Hin Hi H1 H2 Hat IH].
  - exists []. split; [rewrite app_nil_r; reflexivity|reflexivity].
  - destruct IH as (rest & E & _). exists (Find.slash :: Find.entry_name f ++ rest). split.
    + rewrite E. rewrite <- app_assoc. reflexivity.
    + eexists. reflexivity.
Qed.

(** X24.  Every line [find] prints begins with the start path: it is the
    start path itself when that is a file, and the start path followed by
    '/' and more when it is a directory, which is never printed itself;
    the part after the last '/' is the target. *)
Theorem find_below_start start target n p :
  In (Find.Stdout p) (Find.find start target n) ->
  Find.basename p = target /\
  exists rest, p = start ++ rest /\
    match n with Find.Dir _ => exists r, rest = Find.slash :: r | _ => rest = [] end.
Proof.
  intros H. apply find_stdout in H. destruct H as [Hat Hb].
  split; [exact Hb|]. apply file_at_under. exact Hat.
Qed.

Lemma find_below_start_demo :
  In (Find.Stdout (Find.text "./d/b")) (Find.find (Find.text ".") (Find.text "b") Find.demo) /\
  Find.basename (Find.text "./d/b") = Find.text "b".
Proof.
  assert (In (Find.Stdout (Find.text "./d/b"))
            (Find.find (Find.text ".") (Find.text "b") Find.demo)) as H
    by (vm_compute; tauto).
  split; [exact H|].
  destruct (find_below_start _ _ _ _ H) as [Hb _]. exact Hb.
Defined.

(** ** Descriptors *)

Lemma descriptors_app l1 : forall k l2,
  Find.descriptors k (l1 ++ l2) =
  match Find.descriptors k l1 with
  | Some k' => Find.descriptors k' l2
  | None => None
  end.
Proof.
  induction l1 as [|e l1 IH]; intros k l2; [reflexivity|].
  destruct e as [q [|]| | |]; simpl; try apply IH.
  destruct k; [reflexivity|apply IH].
Qed.

Lemma peak_ge l : forall k, k <= Find.peak k l.
Proof.
  induction l as [|e l IH]; intros k; [simpl; lia|].
  destruct e as [q [|]| | |]; cbn [Find.peak]; try apply IH; lia.
Qed.

Lemma peak_app l1 : forall k l2 k' m,
  Find.descriptors k l1 = Some k' -> Find.peak k l1 <= m -> Find.peak k' l2 <= m ->
  Find.peak k (l1 ++ l2) <= m.
Proof.
  induction l1 as [|e l1 IH]; intros k l2 k' m Hd H1 H2.
  - simpl in Hd. injection Hd as <-. exact H2.
  - destruct e as [q [|]| | |];
      cbn [Find.descriptors Find.peak app] in Hd, H1 |- *.
    + apply Nat.max_lub; [lia|]. apply (IH _ _ k'); [exact Hd|lia|exact H2].
    + apply (IH _ _ k'); assumption.
    + destruct k; [discriminate|]. cbn [Nat.pred] in H1 |- *.
      apply Nat.max_lub; [lia|]. apply (IH _ _ k'); [exact Hd|lia|exact H2].
    + apply (IH _ _ k'); assumption.
    + apply (IH _ _ k'); assumption.
Qed.

Lemma height_entry i f sub entries :
  In (i, f, sub) entries -> S (Find.height sub) <= Find.height (Find.Dir entries).
Proof.
  intros Hin. cbn [Find.height]. apply le_n_S.
  induction entries as [|[[i' f'] sub'] l IH]; [destruct Hin|].
  destruct Hin as [E|Hin]; cbn [fold_right].
  - injection E as -> -> ->. apply Nat.le_max_l.
  - etransitivity; [apply IH; exact Hin|apply Nat.le_max_r].
Qed.

Ltac flat :=
  cbn [Find.find Find.descriptors Find.peak Find.height Nat.pred app flat_map].

Lemma find_balanced target n : forall path k,
  Find.descriptors k (Find.find path target n) = Some k /\
  Find.peak k (Find.find path target n) <= k + Find.height n.
Proof.
  induction n as [ | | | |entries IH] using node_induction; intros path k.
  - flat. split; [reflexivity|lia].
  - flat. split; [reflexivity|lia].
  - cbn [Find.find]. destruct (Find.same (Find.basename path) target); flat;
      (split; [reflexivity|lia]).
  - flat. split; [reflexivity|lia].
  - rewrite find_dir.
    destruct (Nat.ltb Find.BUFSZ (List.length path + 1 + Find.DIRSIZ + 1)).
    + flat. split; [reflexivity|lia].
    + assert (forall m, 1 <= m -> (forall e, In e entries -> S (Find.height (snd e)) <= m) ->
                Find.descriptors (S k) (flat_map (Find.visit path target) entries) = Some (S k) /\
                Find.peak (S k) (flat_map (Find.visit path target) entries) <= k + m) as Hloop.
      { intros m Hm1. induction entries as [|[[i f] sub] l IHl]; intros Hm.
        - flat. split; [reflexivity|lia].
        - inversion IH as [|? ? Hsub Hrest]; subst.
          destruct (IHl Hrest (fun e He => Hm e (or_intror He))) as [Hd Hp].
          pose proof (Hm _ (or_introl eq_refl)) as Hh. simpl snd in Hh.
          cbn [flat_map].
          assert (Find.descriptors (S k) (Find.visit path target (i, f, sub)) = Some (S k) /\
                  Find.peak (S k) (Find.visit path target (i, f, sub)) <= k + m) as [Hd1 Hp1].
          { unfold Find.visit. destruct (Nat.eqb i 0); [flat; split; [reflexivity|lia]|].
            destruct (Find.same (Find.entry_name f) [Find.dot] ||
                      Find.same (Find.entry_name f) [Find.dot; Find.dot]);
              [flat; split; [reflexivity|lia]|].
            simpl in Hsub.
            destruct (Hsub (path ++ Find.slash :: Find.entry_name f) (S k)) as [A B].
            split; [exact A|lia]. }
          split.
          + rewrite descriptors_app, Hd1. exact Hd.
          + apply (peak_app _ _ _ (S k)); assumption. }
      assert (1 <= Find.height (Find.Dir entries)) as Hh1 by (cbn [Find.height]; lia).
      destruct (Hloop (Find.height (Find.Dir entries)) Hh1) as [Hd Hp].
      { intros [[i f] sub] Hin. apply (height_entry i f sub entries Hin). }
      cbn [Find.descriptors Find.peak]. split.
      * rewrite descriptors_app, Hd. reflexivity.
      * apply Nat.max_lub; [lia|].
        apply (peak_app _ _ _ (S k)); [exact Hd|exact Hp|].
        cbn [Find.peak Nat.pred]. lia.
Qed.

(** X25.  [find] closes every descriptor it opens, on every path through
    it, the error paths included, and closes nothing else: after it returns
    as many descriptors are open as before.  While it runs it holds one
    descriptor per directory it is inside of and one for the entry at hand,
    at most as many as the longest chain of names nested in each other. *)
Theorem find_descriptors path target n k :
  Find.descriptors k (Find.find path target n) = Some k /\
  Find.peak k (Find.find path target n) <= k + Find.height n.
Proof. apply find_balanced. Qed.

(** ** The buffer *)

Lemma cstr_length l : List.length (Find.cstr l) <= List.length l.
Proof.
  induction l as [|c l IH]; simpl; [lia|].
  destruct (Ascii.eqb c Find.NUL); simpl; lia.
Qed.

Lemma cstr_no_nul l : ~ In Find.NUL (Find.cstr l).
Proof.
  induction l as [|c l IH]; simpl; [tauto|].
  destruct (Ascii.eqb_spec c Find.NUL) as [E|E]; simpl; [tauto|].
  intros [H|H]; [congruence|tauto].
Qed.

Lemma entry_name_length f : List.length (Find.entry_name f) <= Find.DIRSIZ.
Proof.
  unfold Find.entry_name. etransitivity; [apply cstr_length|].
  rewrite length_firstn. apply Nat.le_min_l.
Qed.

Lemma find_opens target n : forall path q ok,
  In (Find.Open q ok) (Find.find path target n) ->
  q = path \/
  (List.length q + 1 <= Find.BUFSZ /\
   exists dir name, q = dir ++ Find.slash :: name /\
     List.length name <= Find.DIRSIZ /\ ~ In Find.NUL name /\
     name <> [Find.dot] /\ name <> [Find.dot; Find.dot]).
Proof.
  induction n as [ | | | |entries IH] using node_induction; intros path q ok.
  - simpl. intros [E|[E|[]]]; [injection E as <- _; left; reflexivity|discriminate].
  - simpl. intros [E|[E|[E|[]]]]; [injection E as <- _; left; reflexivity|discriminate..].
  - simpl. intros [E|H]; [injection E as <- _; left; reflexivity|].
    apply in_app_or in H. destruct H as [H|[E|[]]]; [|discriminate].
    destruct (Find.same (Find.basename path) target); [|destruct H].
    destruct H as [E|[]]. discriminate.
  - simpl. intros [E|[E|[]]]; [injection E as <- _; left; reflexivity|discriminate].
  - rewrite find_dir.
    destruct (Nat.ltb_spec Find.BUFSZ (List.length path + 1 + Find.DIRSIZ + 1)) as [Hl|Hl].
    + simpl. intros [E|[E|[E|[]]]]; [injection E as <- _; left; reflexivity|discriminate..].
    + intros [E|H]; [injection E as <- _; left; reflexivity|].
      apply in_app_or in H. destruct H as [H|[E|[]]]; [|discriminate].
      apply in_flat_map in H. destruct H as ([[i f] sub] & Hin & H).
      unfold Find.visit in H.
      destruct (Nat.eqb i 0); [destruct H|].
      destruct (Find.same (Find.entry_name f) [Find.dot]) eqn:E1; [destruct H|].
      destruct (Find.same (Find.entry_name f) [Find.dot; Find.dot]) eqn:E2; [destruct H|].
      cbn [orb] in H. apply same_false in E1, E2.
      rewrite Forall_forall in IH. apply (IH _ Hin) in H. cbn [snd] in H.
      destruct H as [->|H]; [|right; exact H].
      right. pose proof (entry_name_length f) as Hn. split.
      * rewrite length_app. cbn [List.length]. lia.
      * exists path, (Find.entry_name f). repeat split; try assumption.
        apply cstr_no_nul.
Qed.

(** X26.  Every path [find] opens other than the one it was called with
    was built in the buffer of 512 bytes and fits it with its terminator:
    it is the path of a directory, a '/' and a name of at most 14
    characters, none of them NUL, that is neither "." nor "..". *)
Theorem find_buffer_fits start target n q ok :
  In (Find.Open q ok) (Find.find start target n) -> q <> start ->
  List.length q + 1 <= Find.BUFSZ /\
  exists dir name, q = dir ++ Find.slash :: name /\
    List.length name <= Find.DIRSIZ /\ ~ In Find.NUL name /\
    name <> [Find.dot] /\ name <> [Find.dot; Find.dot].
Proof.
  intros H Hq. destruct (find_opens target n start q ok H) as [E|H']; [contradiction|exact H'].
Qed.

Lemma find_buffer_fits_demo :
  In (Find.Open (Find.text "./d/c") true) (Find.find (Find.text ".") (Find.text "b") Find.demo) /\
  List.length (Find.text "./d/c") + 1 <= Find.BUFSZ.
Proof.
  assert (In (Find.Open (Find.text "./d/c") true)
            (Find.find (Find.text ".") (Find.text "b") Find.demo)) as H
    by (vm_compute; tauto).
  split; [exact H|].
  destruct (find_buffer_fits _ _ _ _ _ H) as [Hl _]; [|exact Hl].
  vm_compute. discriminate.
Defined.

(** * The output of primes.c in every run *)

(** C1, as stated, fails: [fork] is refused to the third sieve process when
    it is to create the fourth; every process exits, [main] with status 0,
    and the output is the three lines for 2, 3 and 5 only: 7, 11, ..., 31
    have no line. *)
Lemma refusal_cuts_output :
  exists st, run LIMIT PIPESIZE init fork_refused_3 = Some st /\
    completed st = true /\ exit_status st 0 = Some 0%Z /\
    stdout st = ["prime 2"; "prime 3"; "prime 5"]%string /\
    printed st <> filter is_prime (zrange 2 35).
Proof.
  exists (outcome LIMIT PIPESIZE fork_refused_3). split; [by_run|].
  vm_compute. repeat split. discriminate.
Qed.

(** C1, amended.  In every run, whatever is refused and however the
    processes are scheduled, standard output is an initial part of the
    lines "prime v" for the primes v of 2..35 in strictly ascending order,
    without duplicates and without any other line; in every run in which
    the kernel refuses no [pipe] and no [fork] it is, once [main] has
    exited, all of them: exactly one line for each prime of 2..35, and
    nothing was written to descriptor 2. *)
Theorem primes_printed cap sc st :
  run LIMIT cap init sc = Some st ->
  (exists rest, printed st ++ rest = filter is_prime (zrange 2 35)) /\
  (exists more,
     stdout st ++ more =
     ["prime 2"; "prime 3"; "prime 5"; "prime 7"; "prime 11"; "prime 13";
      "prime 17"; "prime 19"; "prime 23"; "prime 29"; "prime 31"]%string) /\
  increasing (printed st) /\ NoDup (printed st) /\
  (fault_free sc -> exited (procs st 0) = true ->
   printed st = filter is_prime (zrange 2 35) /\
   stdout st = ["prime 2"; "prime 3"; "prime 5"; "prime 7"; "prime 11"; "prime 13";
                "prime 17"; "prime 19"; "prime 23"; "prime 29"; "prime 31"]%string /\
   errs st = []).
Proof.
  intros H.
  assert (exists rest, printed st ++ rest = filter is_prime (zrange 2 35)) as [rest Hr].
  { change 35%Z with LIMIT.
    rewrite <- sieve_primes, (printed_ideal LIMIT cap sc st H). eexists. reflexivity. }
  assert (filter is_prime (zrange 2 35) = [2; 3; 5; 7; 11; 13; 17; 19; 23; 29; 31]%Z) as Hl
    by (vm_compute; reflexivity).
  split; [exists rest; exact Hr|]. split; [|split; [|split]].
  - exists (map prime_line rest). unfold stdout.
    rewrite <- map_app, Hr, Hl. vm_compute. reflexivity.
  - apply (increasing_app_l (printed st) rest). rewrite Hr, Hl.
    unfold increasing. repeat (constructor; [|repeat constructor; reflexivity]).
    constructor.
  - apply (NoDup_app_remove_r (printed st) rest). rewrite Hr, Hl.
    repeat (constructor; [simpl; intuition discriminate|]). constructor.
  - intros Hff Hex.
    pose proof (clean_run LIMIT cap sc st Hff H) as L.
    pose proof (printed_35 cap sc st Hff H Hex) as E.
    unfold stdout. rewrite E. split; [vm_compute; reflexivity|].
    split; [vm_compute; reflexivity|]. exact (cl_errs L).
Qed.

Lemma primes_printed_demo :
  fault_free demo /\
  exited (procs (outcome LIMIT PIPESIZE demo) 0) = true /\
  stdout (outcome LIMIT PIPESIZE demo) =
    ["prime 2"; "prime 3"; "prime 5"; "prime 7"; "prime 11"; "prime 13";
     "prime 17"; "prime 19"; "prime 23"; "prime 29"; "prime 31"]%string.
Proof.
  split; [by_run|]. split; [by_run|].
  destruct (primes_printed PIPESIZE demo (outcome LIMIT PIPESIZE demo))
    as (_ & _ & _ & _ & Hend); [by_run|].
  destruct Hend as (_ & Ho & _); [by_run|by_run|exact Ho].
Defined.
